(** * Planet: procedural terrain, scatter and seismic displacement

    A shallow embedding of the geometry core of the Planet repository
    (main.js, utilities.js and the wave-pipeline script) together with the
    properties its specification states about it.

    Numbers.  A JavaScript number is idealised as a real number ([R]): the
    rounding of the floating-point operations and of the [Float32Array]
    buffers is left out.  The places where the source leaves the reals (a
    division by zero, a read past the end of a buffer, both giving [NaN] or
    an infinity) are made explicit: the embedded function returns [None]
    there.  A property that an object does not have reads [undefined],
    which is [NaN] in arithmetic and makes every comparison false: it is
    [None] as well.  Counts and indices are integers ([Z], [nat]); the draws
    of [Math.random] are rationals ([Q]).

    Collaborators.  three.js ([computeVertexNormals], [mergeVertices],
    [SimplifyModifier.modify], the loaders), simplex-noise ([noise3D]) and
    [Math.random] are not code of this repository: they are section
    variables, constrained only where a property needs it. *)

From Stdlib Require Import Reals Lra Lia ZArith QArith Qround.
From Stdlib Require Lqa.
From stdpp Require Import base option list strings gmap.

(** * Part I: the embedding *)

(** ** THREE.Vector3 *)

Module Vec.

Local Open Scope R_scope.

Record vec3 : Type := mk { x : R; y : R; z : R }.

(** [Vector3.add]. *)
Definition add (a b : vec3) : vec3 :=
  mk (x a + x b) (y a + y b) (z a + z b).

(** [Vector3.sub]. *)
Definition sub (a b : vec3) : vec3 :=
  mk (x a - x b) (y a - y b) (z a - z b).

(** [Vector3.multiplyScalar]. *)
Definition multiplyScalar (a : vec3) (s : R) : vec3 :=
  mk (x a * s) (y a * s) (z a * s).

(** [Vector3.divideScalar]: multiplication by the inverse. *)
Definition divideScalar (a : vec3) (s : R) : vec3 :=
  multiplyScalar a (1 / s).

(** [Vector3.lengthSq] and [Vector3.length]. *)
Definition lengthSq (a : vec3) : R := x a * x a + y a * y a + z a * z a.

Definition length (a : vec3) : R := sqrt (lengthSq a).

(** [Vector3.normalize] is [divideScalar (length () || 1)]: the null vector
    is divided by 1. *)
Definition normalize (a : vec3) : vec3 :=
  divideScalar a (if Req_dec_T (length a) 0 then 1 else length a).

(** [Vector3.distanceTo]. *)
Definition distanceTo (a b : vec3) : R := length (sub a b).

Definition zero : vec3 := mk 0 0 0.

(** A typed array holding the components of the vertices one after the
    other, as [BufferAttribute.array] does. *)
Definition toArray (l : list vec3) : list R :=
  flat_map (fun v => [x v; y v; z v]) l.

End Vec.

Abbreviation vec3 := Vec.vec3.

(** ** Exceptions and rejections *)

Inductive Exception : Type :=
| TypeError                       (* a method call on [undefined] *)
| Failure (reason : string).      (* raised or rejected by a collaborator *)

(** ** [for (let i = 0; i < n; i++) body]

    The body may leave the reals ([None]); the loop then stops with [None]. *)

Fixpoint forFrom {S : Type} (body : nat -> S -> option S)
    (i n : nat) (s : S) : option S :=
  match n with
  | O => Some s
  | Datatypes.S n' => s' ← body i s; forFrom body (Datatypes.S i) n' s'
  end.

Definition forLoop {S : Type} (n : nat) (body : nat -> S -> option S)
    (s : S) : option S :=
  forFrom body 0 n s.

(** ** THREE.BufferGeometry and THREE.Mesh *)

Record BufferGeometry : Type := {
  position : list vec3;            (* attributes.position, itemSize 3 *)
  normal : list vec3;              (* attributes.normal *)
  index : option (list nat);       (* the index buffer, when indexed *)
  attributes : gmap string (list R);  (* further per-vertex float attributes *)
  userData_originalPositions : option (list R)
}.

Record Mesh : Type := {
  geometry : BufferGeometry;
  flatShading : bool               (* material.flatShading *)
}.

(** [posAttr.count]. *)
Definition count (g : BufferGeometry) : nat := List.length (position g).

Definition setPosition (p : list vec3) (g : BufferGeometry) : BufferGeometry :=
  {| position := p; normal := normal g; index := index g;
     attributes := attributes g; userData_originalPositions := userData_originalPositions g |}.

Definition setNormal (n : list vec3) (g : BufferGeometry) : BufferGeometry :=
  {| position := position g; normal := n; index := index g;
     attributes := attributes g; userData_originalPositions := userData_originalPositions g |}.

(** [geometry.setAttribute (name, new BufferAttribute (a, 1))]. *)
Definition setAttribute (name : string) (a : list R) (g : BufferGeometry)
  : BufferGeometry :=
  {| position := position g; normal := normal g; index := index g;
     attributes := <[name := a]> (attributes g);
     userData_originalPositions := userData_originalPositions g |}.

Definition setOriginalPositions (a : list R) (g : BufferGeometry)
  : BufferGeometry :=
  {| position := position g; normal := normal g; index := index g;
     attributes := attributes g; userData_originalPositions := Some a |}.

(** [geometry.computeVertexNormals ()]; [normals] is three.js's computation
    of the normals from the positions and the index. *)
Definition computeVertexNormals
    (normals : list vec3 -> option (list nat) -> list vec3)
    (g : BufferGeometry) : BufferGeometry :=
  setNormal (normals (position g) (index g)) g.

(** [posAttr.setXYZ (i, v.x, v.y, v.z)] after
    [v.fromBufferAttribute (posAttr, i)] and a change [f] of [v]: one pass of
    a vertex loop.  A read past the end of the buffer gives [undefined]
    components. *)
Definition updateVertex (f : vec3 -> option vec3) (i : nat)
    (p : list vec3) : option (list vec3) :=
  v ← p !! i; v' ← f v; Some (<[i := v']> p).

(** ** utilities.js *)

Module Utilities.

(** *** bakeTerrain *)

Record NoiseFieldParameters : Type := {
  scale : R;
  octaves : Z;
  persistence : R;
  lacunarity : R;
  amplitude : R
}.

(** The default value of the second argument of [bakeTerrain]. *)
Definition defaultParams : NoiseFieldParameters :=
  {| scale := 0.05%R; octaves := 4; persistence := 0.5%R;
     lacunarity := 2%R; amplitude := 4%R |}.

Section Terrain.

Local Open Scope R_scope.

Variable noise3D : R -> R -> R -> R.
Variable normals : list vec3 -> option (list nat) -> list vec3.
Variable mergeVertices : BufferGeometry -> BufferGeometry.

(** "noise3D usually returns -1 to 1". *)
Definition unitNoise : Prop := forall x y z, -1 <= noise3D x y z <= 1.

(** [BufferGeometryUtils.mergeVertices] keeps vertices of its argument and
    makes no new one. *)
Definition weldKeepsVertices : Prop :=
  forall (g : BufferGeometry) (v : vec3),
    v ∈ position (mergeVertices g) -> v ∈ position g.

(** The octave loop [for (let o = 0; o < params.octaves; o++)], [k] passes
    left; it returns [noiseValue] and [maxValue]. *)
Fixpoint octaveLoop (params : NoiseFieldParameters) (vertex : vec3) (k : nat)
    (noiseValue frequency amplitude maxValue : R) : R * R :=
  match k with
  | O => (noiseValue, maxValue)
  | S k' =>
      let n := noise3D (Vec.x vertex * frequency) (Vec.y vertex * frequency)
                       (Vec.z vertex * frequency) in
      octaveLoop params vertex k'
        (noiseValue + n * amplitude)
        (frequency * lacunarity params)
        (amplitude * persistence params)
        (maxValue + amplitude)
  end.

(** [finalHeight = (noiseValue / maxValue) * params.amplitude]; a null
    [maxValue] makes the quotient [NaN] or infinite. *)
Definition finalHeight (params : NoiseFieldParameters) (vertex : vec3)
  : option R :=
  let '(noiseValue, maxValue) :=
    octaveLoop params vertex (Z.to_nat (octaves params)) 0 (scale params) 1 0 in
  if Req_dec_T maxValue 0 then None
  else Some (noiseValue / maxValue * amplitude params).

(** The body of the vertex loop. *)
Definition bakeVertex (params : NoiseFieldParameters) (vertex : vec3)
  : option vec3 :=
  let dir := Vec.normalize vertex in
  h ← finalHeight params vertex;
  Some (Vec.add vertex (Vec.multiplyScalar dir h)).

(** [bakeTerrain (planet, params)]; the [console.log] of each pass is left
    out. *)
Definition bakeTerrain (planet : Mesh) (params : NoiseFieldParameters)
  : option Mesh :=
  let g := geometry planet in
  pos ← forLoop (count g) (updateVertex (bakeVertex params)) (position g);
  let g' := computeVertexNormals normals (setPosition pos g) in
  Some {| geometry := mergeVertices g'; flatShading := true |}.

End Terrain.

(** *** reduceMeshComplexity *)

Inductive ConsoleLine : Type :=
| LogReduced (initialCount finalCount : nat)
| ErrorSimplificationFailed (error : Exception).

Section Simplify.

Variable normals : list vec3 -> option (list nat) -> list vec3.
Variable mergeVertices : BufferGeometry -> BufferGeometry.
(** [modifier.modify (geometry, count)]: the simplified geometry, or the
    exception it throws; three.js works on a clone of the argument. *)
Variable modify : BufferGeometry -> Z -> Exception + BufferGeometry.

Definition reduceMeshComplexity (mesh : Mesh) (reductionRatio : Q)
    (console : list ConsoleLine) : Mesh * list ConsoleLine :=
  let g := match index (geometry mesh) with
           | Some _ => geometry mesh
           | None => mergeVertices (geometry mesh)
           end in
  let initialCount := count g in
  let countToRemove :=
    Qfloor (inject_Z (Z.of_nat initialCount) * reductionRatio)%Q in
  match modify g countToRemove with
  | inr simplified =>
      let simplified' := computeVertexNormals normals simplified in
      ({| geometry := simplified'; flatShading := flatShading mesh |},
       console ++ [LogReduced initialCount (count simplified')])
  | inl error => (mesh, console ++ [ErrorSimplificationFailed error])
  end.

End Simplify.

(** *** loadAssets *)

Inductive Asset (Object3D Texture : Type) : Type :=
| Model (scene : Object3D)
| Image (texture : Texture).

Arguments Model {Object3D Texture} scene.
Arguments Image {Object3D Texture} texture.

(** [String.prototype.endsWith]. *)
Definition endsWith (s suffix : string) : bool :=
  String.prefix (String.rev suffix) (String.rev s).

Section Assets.

Context {Object3D Texture : Type}.

(** How [gltfLoader.loadAsync (url)] and [textureLoader.loadAsync (url)]
    settle: rejected with a reason, or fulfilled (for a model, with the
    [scene] of the result). *)
Variable gltfLoad : string -> Exception + Object3D.
Variable textureLoad : string -> Exception + Texture.
(** [scene.traverse] setting [castShadow] and [receiveShadow] on the meshes. *)
Variable shadowReady : Object3D -> Object3D.

(** One callback of [Object.entries (assetsObj).map], run until it settles:
    the write it makes to [loadedAssets], or its rejection. *)
Definition loadOne (name url : string)
    (loadedAssets : gmap string (Asset Object3D Texture))
  : Exception + gmap string (Asset Object3D Texture) :=
  if endsWith url ".glb" || endsWith url ".gltf" then
    match gltfLoad url with
    | inl e => inl e
    | inr result => inr (<[name := Model (shadowReady result)]> loadedAssets)
    end
  else if endsWith url ".png" || endsWith url ".jpg" then
    match textureLoad url with
    | inl e => inl e
    | inr texture => inr (<[name := Image texture]> loadedAssets)
    end
  else inr loadedAssets.

(** All the callbacks are started and each one settles; the fulfilled ones
    have written to [loadedAssets].  [Promise.all] rejects with the
    rejection that comes first (here: first in the order of the entries). *)
Fixpoint settleAll (entries : list (string * string))
    (loadedAssets : gmap string (Asset Object3D Texture))
  : gmap string (Asset Object3D Texture) * option Exception :=
  match entries with
  | [] => (loadedAssets, None)
  | (name, url) :: rest =>
      match loadOne name url loadedAssets with
      | inr loadedAssets' => settleAll rest loadedAssets'
      | inl e =>
          let '(loadedAssets', _) := settleAll rest loadedAssets in
          (loadedAssets', Some e)
      end
  end.

(** [await Promise.all (assetPromises); return loadedAssets]: the promise
    [loadAssets] returns is fulfilled with the map or rejected. *)
Definition loadAssets (assetsObj : list (string * string))
  : Exception + gmap string (Asset Object3D Texture) :=
  match settleAll assetsObj ∅ with
  | (loadedAssets, None) => inr loadedAssets
  | (_, Some e) => inl e
  end.

End Assets.

(** *** cloner *)

(** A clone in the scene, by what decides its transform: the prefab it
    copies, [scale.setScalar], the vertex it sits on with its world position
    ([anchor], the argument of [position.copy]) and radial direction ([up],
    the second argument of [quaternion.setFromUnitVectors]), the three draws
    behind [rotateX], [rotateY] and [rotateZ] (each times [2 * Math.PI]) and
    the three local translations. *)
Record Clone (Prefab : Type) : Type := {
  prefab : Prefab;
  scaleScalar : option Q;
  vertexIndex : nat;
  anchor : option vec3;
  up : option vec3;
  turns : option (Q * Q * Q);
  offsets : option (Q * Q * Q)
}.

Arguments prefab {Prefab} c.
Arguments scaleScalar {Prefab} c.
Arguments vertexIndex {Prefab} c.
Arguments anchor {Prefab} c.
Arguments up {Prefab} c.
Arguments turns {Prefab} c.
Arguments offsets {Prefab} c.

(** What [cloner] changes outside itself: the children of the scene and the
    number of draws made from [Math.random]. *)
Record World (Prefab : Type) : Type := {
  scene : list (Clone Prefab);
  draws : nat
}.

Arguments scene {Prefab} w.
Arguments draws {Prefab} w.

(** A call returns, throws, or is still in a loop when the fuel is spent. *)
Inductive Outcome (Prefab A : Type) : Type :=
| Returns (a : A) (w : World Prefab)
| Throws (e : Exception) (w : World Prefab)
| Running.

Arguments Returns {Prefab A} a w.
Arguments Throws {Prefab A} e w.
Arguments Running {Prefab A}.

Definition M (Prefab A : Type) : Type := World Prefab -> Outcome Prefab A.

#[global] Instance M_ret {Prefab} : MRet (M Prefab) :=
  fun A a w => Returns a w.

#[global] Instance M_bind {Prefab} : MBind (M Prefab) :=
  fun A B f m w =>
    match m w with
    | Returns a w' => f a w'
    | Throws e w' => Throws e w'
    | Running => Running
    end.

Section Scatter.

Context {Prefab : Type}.

(** The successive values of [Math.random ()], each in [0, 1). *)
Variable random : nat -> Q.
(** [applyMatrix4 (planet.matrixWorld)] and [planet.position]. *)
Variable matrixWorld : vec3 -> vec3.
Variable planetPosition : vec3.

Definition mathRandom : M Prefab Q :=
  fun w => Returns (random (draws w))
                   {| scene := scene w; draws := S (draws w) |}.

Definition throw {A : Type} (e : Exception) : M Prefab A :=
  fun w => Throws e w.

Definition running {A : Type} : M Prefab A := fun _ => Running.

(** [scene.add (clone)]. *)
Definition sceneAdd (clone : Clone Prefab) : M Prefab unit :=
  fun w => Returns tt {| scene := scene w ++ [clone]; draws := draws w |}.

(** [Math.floor (Math.random () * n)]. *)
Definition randomIndex (n : nat) : M Prefab nat :=
  r ← mathRandom;
  mret (Z.to_nat (Qfloor (r * inject_Z (Z.of_nat n)))).

(** The contract of [Math.random]: every draw is in [0, 1). *)
Definition unitDraws : Prop := forall n, (0 <= random n < 1)%Q.

(** The index that draw number [n] gives among [total] vertices. *)
Definition drawnIndex (total n : nat) : nat :=
  Z.to_nat (Qfloor (random n * inject_Z (Z.of_nat total))).

(** A sequence of draws in which every vertex index keeps coming back, as
    happens with probability 1.  The rejection loop ends on such a sequence
    and only on sequences that bring an unused index. *)
Definition fairDraws (total : nat) : Prop :=
  forall n k, (k < total)%nat ->
    exists m, (n <= m)%nat /\ drawnIndex total m = k.

(** [do { vIndex = ... } while (usedIndices.has (vIndex))], at most [fuel]
    draws. *)
Fixpoint pickVertex (fuel : nat) (totalVertices : nat)
    (usedIndices : gset nat) : M Prefab nat :=
  match fuel with
  | O => running
  | S fuel' =>
      vIndex ← randomIndex totalVertices;
      if decide (vIndex ∈ usedIndices)
      then pickVertex fuel' totalVertices usedIndices
      else mret vIndex
  end.

(** [prefabs[...].clone ()]: a [TypeError] when the entry is [undefined]. *)
Definition clonePrefab (prefabs : list Prefab) : M Prefab Prefab :=
  k ← randomIndex (List.length prefabs);
  match prefabs !! k with
  | Some randomPrefab => mret randomPrefab
  | None => throw TypeError
  end.

Definition randomScale (size : Q) : M Prefab Q :=
  let minScale := ((1 # 1000) * size)%Q in
  let maxScale := ((2 # 1000) * size)%Q in
  r ← mathRandom;
  mret (r * (maxScale - minScale) + minScale)%Q.

Definition randomTurns : M Prefab (Q * Q * Q) :=
  rx ← mathRandom; ry ← mathRandom; rz ← mathRandom;
  mret (rx, ry, rz).

Definition randomOffsets (dispAmount : Q) : M Prefab (Q * Q * Q) :=
  rx ← mathRandom; ry ← mathRandom; rz ← mathRandom;
  mret ((rx - (1 # 2)) * dispAmount, (ry - (1 # 2)) * dispAmount,
        (rz - (1 # 2)) * dispAmount)%Q.

Definition optionally {A : Type} (flag : bool) (m : M Prefab A)
  : M Prefab (option A) :=
  if flag then a ← m; mret (Some a) else mret None.

(** One pass of the [for] loop. *)
Definition placeOne (fuel : nat) (positions : list vec3)
    (prefabs : list Prefab) (size : Q)
    (scaleRand rotationRand positionRand : bool)
    (usedIndices : gset nat) : M Prefab (nat * Clone Prefab) :=
  let totalVertices := List.length positions in
  let dispAmount := (1 # 2)%Q in
  vIndex ← pickVertex fuel totalVertices usedIndices;
  randomPrefab ← clonePrefab prefabs;
  sc ← optionally scaleRand (randomScale size);
  let vertex := matrixWorld <$> positions !! vIndex in
  let normal := (fun v => Vec.normalize (Vec.sub v planetPosition)) <$> vertex in
  rot ← optionally rotationRand randomTurns;
  off ← optionally positionRand (randomOffsets dispAmount);
  let clone := {| prefab := randomPrefab; scaleScalar := sc;
                  vertexIndex := vIndex; anchor := vertex; up := normal;
                  turns := rot; offsets := off |} in
  _ ← sceneAdd clone;
  mret (vIndex, clone).

(** The [for] loop, [k] passes left. *)
Fixpoint placeLoop (fuel : nat) (positions : list vec3)
    (prefabs : list Prefab) (size : Q)
    (scaleRand rotationRand positionRand : bool) (k : nat)
    (usedIndices : gset nat) (clones : list (Clone Prefab))
  : M Prefab (list (Clone Prefab)) :=
  match k with
  | O => mret clones
  | S k' =>
      '(vIndex, clone) ← placeOne fuel positions prefabs size
                           scaleRand rotationRand positionRand usedIndices;
      placeLoop fuel positions prefabs size scaleRand rotationRand
        positionRand k' ({[vIndex]} ∪ usedIndices) (clones ++ [clone])
  end.

(** [cloner (planet, count, prefabs, scene, size, scaleRand, rotationRand,
    positionRand)]; the scene is in the [World]. *)
Definition cloner (fuel : nat) (planet : Mesh) (count : Z)
    (prefabs : list Prefab) (size : Q)
    (scaleRand rotationRand positionRand : bool)
  : M Prefab (list (Clone Prefab)) :=
  let positions := position (geometry planet) in
  let totalVertices := List.length positions in
  let actualCount := Z.min count (Z.of_nat totalVertices) in
  placeLoop fuel positions prefabs size scaleRand rotationRand positionRand
    (Z.to_nat actualCount) ∅ [].

End Scatter.

End Utilities.

(** ** main.js *)

Module Main.

(** The seasons of the dropdown of the GUI. *)
Inductive Season : Type := Spring | Summer | Autumn | Winter.


(** The object [params] (lines 12-24), by its five data properties; its
    sixth property, [regenerate], is the closure embedded below.  The GUI
    changes the values of these properties and adds no property. *)
Record Settings : Type := {
  heat : R;
  season : Season;
  waterLevel : R;
  windLevel : R;
  earthquakeLevel : R
}.

(** [params] as the script creates it. *)
Definition params : Settings :=
  {| heat := 0.5%R; season := Summer; waterLevel := 1.0%R;
     windLevel := 0.2%R; earthquakeLevel := 0.0%R |}.



(** What [bakeTerrain] reads of its second argument, as numbers. *)
Record NoiseFields : Type := {
  scale : option R;
  octaves : option R;
  persistence : option R;
  lacunarity : option R;
  amplitude : option R
}.



Section Regenerate.

Local Open Scope R_scope.

Variable noise3D : R -> R -> R -> R.
Variable normals : list vec3 -> option (list nat) -> list vec3.
Variable mergeVertices : BufferGeometry -> BufferGeometry.

(** Arithmetic on numbers that may be [NaN]: [NaN] gives [NaN], and so
    does, here, a division by zero. *)
Definition plus (a b : option R) : option R := x ← a; y ← b; Some (x + y).

Definition times (a b : option R) : option R := x ← a; y ← b; Some (x * y).

Definition over (a b : option R) : option R :=
  x ← a; y ← b; if Req_dec_T y 0 then None else Some (x / y).

(** [noise3D (vertex.x * frequency, vertex.y * frequency,
    vertex.z * frequency)]: a frequency that is [NaN] makes the three
    coordinates [NaN], and the sample is then taken to be [NaN]. *)
Definition sample (vertex : vec3) (frequency : option R) : option R :=
  f ← frequency;
  Some (noise3D (Vec.x vertex * f) (Vec.y vertex * f) (Vec.z vertex * f)).

(** The octave loop of [bakeTerrain] on any object, before its pass [o]:
    the test [o < params.octaves] is false when [params.octaves] is
    [undefined].  [fuel] bounds the number of passes. *)
Fixpoint octaveLoop (fields : NoiseFields) (vertex : vec3) (fuel o : nat)
    (noiseValue frequency amplitude maxValue : option R)
  : option R * option R :=
  match fuel with
  | O => (noiseValue, maxValue)
  | S fuel' =>
      match octaves fields with
      | Some r =>
          if Rlt_dec (INR o) r
          then octaveLoop fields vertex fuel' (S o)
                 (plus noiseValue (times (sample vertex frequency) amplitude))
                 (times frequency (lacunarity fields))
                 (times amplitude (persistence fields))
                 (plus maxValue amplitude)
          else (noiseValue, maxValue)
      | None => (noiseValue, maxValue)
      end
  end.

(** As many passes as there are naturals below [params.octaves], at most:
    the loop ends by its test. *)
Definition passes (fields : NoiseFields) : nat :=
  match octaves fields with
  | Some r => Z.to_nat (up r)
  | None => 0
  end.

(** [finalHeight = (noiseValue / maxValue) * params.amplitude]. *)
Definition finalHeight (fields : NoiseFields) (vertex : vec3) : option R :=
  let '(noiseValue, maxValue) :=
    octaveLoop fields vertex (passes fields) 0
      (Some 0) (scale fields) (Some 1) (Some 0) in
  times (over noiseValue maxValue) (amplitude fields).

(** The body of the vertex loop. *)
Definition bakeVertex (fields : NoiseFields) (vertex : vec3) : option vec3 :=
  let dir := Vec.normalize vertex in
  h ← finalHeight fields vertex;
  Some (Vec.add vertex (Vec.multiplyScalar dir h)).

(** [bakeTerrain (planet, params)] as main.js calls it, on an object that
    need not have the five properties. *)
Definition bakeTerrain (planet : Mesh) (fields : NoiseFields) : option Mesh :=
  let g := geometry planet in
  pos ← forLoop (count g) (updateVertex (bakeVertex fields)) (position g);
  let g' := computeVertexNormals normals (setPosition pos g) in
  Some {| geometry := mergeVertices g'; flatShading := true |}.


End Regenerate.

End Main.

(** ** The wave pipeline (the script with [updateDisplacer]) *)

Module Wave.

(** The module-level variables: the geometry of [planet],
    [originalPositions] and [impactPoint]. *)
Record State : Type := {
  planet : BufferGeometry;
  originalPositions : list R;
  impactPoint : vec3
}.

Section Pipeline.

Local Open Scope R_scope.

Variable noise3D : R -> R -> R -> R.
Variable normals : list vec3 -> option (list nat) -> list vec3.

(** *** bakeTerrain *)

(** The summed two octaves, before and after [if (noise < 0) noise *= 0.1]. *)
Definition rawNoise (vertex : vec3) : R :=
  noise3D (Vec.x vertex * 0.1) (Vec.y vertex * 0.1) (Vec.z vertex * 0.1) * 1.2
  + noise3D (Vec.x vertex * 0.4) (Vec.y vertex * 0.4) (Vec.z vertex * 0.4) * 0.3.

Definition shallowOceans (noise : R) : R :=
  if Rlt_dec noise 0 then noise * 0.1 else noise.

Definition bakeVertex (vertex : vec3) : vec3 :=
  let noise := rawNoise vertex in
  let direction := Vec.normalize vertex in
  let noise := shallowOceans noise in
  Vec.add vertex (Vec.multiplyScalar direction noise).

Definition bakeTerrain (st : State) : option State :=
  let g := planet st in
  pos ← forLoop (count g) (updateVertex (fun v => Some (bakeVertex v)))
                (position g);
  let g' := computeVertexNormals normals (setPosition pos g) in
  Some {| planet := g';
          originalPositions := Vec.toArray (position g');
          impactPoint := impactPoint st |}.

(** *** lockColors *)

Definition lockColors (st : State) : option State :=
  let g := planet st in
  let count := count g in
  let bakedHeights := replicate count 0 in
  let posAttr := position g in
  bakedHeights ←
    forLoop count
      (fun i (bakedHeights : list R) =>
         vertex ← posAttr !! i;
         Some (<[i := Vec.length vertex]> bakedHeights))
      bakedHeights;
  Some {| planet := setAttribute "aBakedHeight" bakedHeights g;
          originalPositions := originalPositions st;
          impactPoint := impactPoint st |}.

(** *** updateDisplacer *)

(** [updateRaycast]: [pick] is the first intersection of the ray with the
    planet, when there is one. *)
Definition updateRaycast (pick : option vec3) (st : State) : State :=
  match pick with
  | Some point => {| planet := planet st;
                     originalPositions := originalPositions st;
                     impactPoint := point |}
  | None => st
  end.

(** [vertex.set (a[i * 3], a[i * 3 + 1], a[i * 3 + 2])]. *)
Definition readVertex (a : list R) (i : nat) : option vec3 :=
  x ← a !! (i * 3)%nat; y ← a !! (i * 3 + 1)%nat; z ← a !! (i * 3 + 2)%nat;
  Some (Vec.mk x y z).

Definition frequency : R := 2.

Definition falloffRadius : R := 15.

Definition falloffAt (dist : R) : R :=
  let falloff := Rmax 0 (1 - dist / falloffRadius) in
  falloff ^ 2.

Definition waveAt (time audioVolume dist : R) : R :=
  sin (dist * frequency - time * 5) * audioVolume * falloffAt dist.

(** The body of the vertex loop, from the original position [vertex]. *)
Definition displace (time audioVolume : R) (impact vertex : vec3) : vec3 :=
  let dist := Vec.distanceTo vertex impact in
  let wave := waveAt time audioVolume dist in
  let direction := Vec.normalize vertex in
  Vec.add vertex (Vec.multiplyScalar direction wave).

Definition updateDisplacer (time audioVolume : R) (pick : option vec3)
    (st : State) : option State :=
  let st := updateRaycast pick st in
  let g := planet st in
  pos ← forLoop (count g)
        (fun i (p : list vec3) =>
           vertex ← readVertex (originalPositions st) i;
           Some (<[i := displace time audioVolume (impactPoint st) vertex]> p))
        (position g);
  Some {| planet := computeVertexNormals normals (setPosition pos g);
          originalPositions := originalPositions st;
          impactPoint := impactPoint st |}.

(** The frames of [animate], one [(time, audioVolume, pick)] each. *)
Fixpoint frames (fs : list (R * R * option vec3)) (st : State)
  : option State :=
  match fs with
  | [] => Some st
  | (time, audioVolume, pick) :: fs' =>
      st' ← updateDisplacer time audioVolume pick st; frames fs' st'
  end.

End Pipeline.

End Wave.

(** ** Sample inputs *)

Module Samples.

Local Open Scope R_scope.

(** A noise function with values in [-1, 1]: a ramp along x, clamped. *)
Definition rampNoise (x y z : R) : R := Rmax (-1) (Rmin 1 x).

(** A noise function with values in [-1, 1]: a falling ramp, 1 up to x = 1
    and -1 from x = 2 on. *)
Definition fallingNoise (x y z : R) : R := Rmax (-1) (Rmin 1 (3 - 2 * x)).

(** Normals play no part in the positions. *)
Definition noNormals (p : list vec3) (i : option (list nat)) : list vec3 := [].

(** The welding of a mesh that has no two vertices at the same place. *)
Definition noWeld (g : BufferGeometry) : BufferGeometry := g.

(** A mesh of the vertices [p], not indexed, with no further attribute. *)
Definition meshOf (p : list vec3) : Mesh :=
  {| geometry := {| position := p; normal := []; index := None;
                    attributes := ∅; userData_originalPositions := None |};
     flatShading := false |}.

(** One octave of weight 1 and amplitude 1 at scale 1. *)
Definition oneOctave : Utilities.NoiseFieldParameters :=
  {| Utilities.scale := 1; Utilities.octaves := 1;
     Utilities.persistence := 0.5; Utilities.lacunarity := 2;
     Utilities.amplitude := 1 |}.

(** Two octaves whose weights, 1 and -1/2, differ in sign. *)
Definition alternating : Utilities.NoiseFieldParameters :=
  {| Utilities.scale := 1; Utilities.octaves := 2;
     Utilities.persistence := -0.5; Utilities.lacunarity := 2;
     Utilities.amplitude := 1 |}.

(** Draws that alternate between 0 and 1/2. *)
Definition alternatingDraws (n : nat) : Q :=
  if Nat.even n then 0%Q else (1 # 2)%Q.

(** The world matrix of a planet left at the origin, unrotated. *)
Definition unmoved (v : vec3) : vec3 := v.

(** An empty scene, before any draw. *)
Definition emptyWorld : Utilities.World string :=
  {| Utilities.scene := []; Utilities.draws := 0 |}.

(** [modifier.modify] failing when asked to remove every vertex. *)
Definition strictModify (g : BufferGeometry) (n : Z)
  : Exception + BufferGeometry :=
  if (Z.of_nat (count g) <=? n)%Z then inl (Failure "nothing left")
  else inr g.

(** A loader that finds every model but pine.glb. *)
Definition pinelessLoad (url : string) : Exception + string :=
  if String.eqb url "pine.glb" then inl (Failure "404") else inr url.

(** A loader of textures that finds everything. *)
Definition anyTexture (url : string) : Exception + string := inr url.

(** The wave pipeline on the vertices [p]: [originalPositions] is their flat
    copy and [impactPoint] is where [new THREE.Vector3 ()] puts it. *)
Definition waveState (p : list vec3) : Wave.State :=
  {| Wave.planet := geometry (meshOf p);
     Wave.originalPositions := Vec.toArray p;
     Wave.impactPoint := Vec.zero |}.

(** No octave at all. *)
Definition noOctaves : Utilities.NoiseFieldParameters :=
  {| Utilities.scale := 1; Utilities.octaves := 0;
     Utilities.persistence := 0.5; Utilities.lacunarity := 2;
     Utilities.amplitude := 1 |}.

(** One octave and a negative overall amplitude. *)
Definition negativeAmplitude : Utilities.NoiseFieldParameters :=
  {| Utilities.scale := 1; Utilities.octaves := 1;
     Utilities.persistence := 0.5; Utilities.lacunarity := 2;
     Utilities.amplitude := -1 |}.

End Samples.

(** ** main.js: the water animation and the gradient materials *)

Module Ocean.

Section Water.

Local Open Scope R_scope.

Variable normals : list vec3 -> option (list nat) -> list vec3.

(** [Math.sin (time * 2.0 + vertex.x * 1.5 + vertex.y * 1.5) * 0.015]. *)
Definition wave (time : R) (vertex : vec3) : R :=
  sin (time * 2.0 + Vec.x vertex * 1.5 + Vec.y vertex * 1.5) * 0.015.

(** The body of the vertex loop, from the original position [vertex]. *)
Definition waterVertex (time : R) (vertex : vec3) : vec3 :=
  let dir := Vec.normalize vertex in
  let wave := wave time vertex in
  Vec.add vertex (Vec.multiplyScalar dir wave).

(** [animateWater (oceanMesh, time)].  Without [originalPositions] the first
    pass of the loop reads an entry of [undefined] and throws; with it, a
    read past its end gives [undefined] coordinates. *)
Definition animateWater (oceanMesh : Mesh) (time : R)
  : Exception + option Mesh :=
  let g := geometry oceanMesh in
  match userData_originalPositions g with
  | Some original =>
      inr (pos ← forLoop (count g)
                    (fun i (p : list vec3) =>
                       vertex ← Wave.readVertex original i;
                       Some (<[i := waterVertex time vertex]> p))
                    (position g);
           Some {| geometry := computeVertexNormals normals
                                 (setPosition pos g);
                   flatShading := flatShading oceanMesh |})
  | None =>
      match count g with
      | O => inr (Some {| geometry := computeVertexNormals normals g;
                          flatShading := flatShading oceanMesh |})
      | S _ => inl TypeError
      end
  end.

End Water.

(** *** createSphericalGradientMaterial *)

Local Open Scope R_scope.

(** [mat.userData.gradient]. *)
Record Gradient : Type := {
  colorInner : vec3;
  colorOuter : vec3;
  innerRadius : R;
  outerRadius : R
}.

(** GLSL [clamp (x, minVal, maxVal)] is [min (max (x, minVal), maxVal)]. *)
Definition clamp (x minVal maxVal : R) : R := Rmin (Rmax x minVal) maxVal.

(** GLSL [mix (a, b, f)] on vectors is [a * (1 - f) + b * f]. *)
Definition mix (a b : vec3) (f : R) : vec3 :=
  Vec.add (Vec.multiplyScalar a (1 - f)) (Vec.multiplyScalar b f).

(** [factor] and [finalColor] of the fragment shader, for the distance
    [vDist] to the local origin. *)
Definition factor (g : Gradient) (vDist : R) : R :=
  clamp ((vDist - innerRadius g) / (outerRadius g - innerRadius g)) 0 1.

Definition finalColor (g : Gradient) (vDist : R) : vec3 :=
  mix (colorInner g) (colorOuter g) (factor g vDist).

(** The radii of the gradients of [materials.Ocean] and [materials.Sand];
    the colours are those three.js makes of the two hexadecimal codes. *)
Definition oceanGradient (inner outer : vec3) : Gradient :=
  {| colorInner := inner; colorOuter := outer;
     innerRadius := 4.5; outerRadius := 5.0 |}.

Definition sandGradient (inner outer : vec3) : Gradient :=
  {| colorInner := inner; colorOuter := outer;
     innerRadius := 4.9; outerRadius := 5.1 |}.

(** [paramsOcean] and [paramsSand] of [init]. *)
Definition paramsOcean : Utilities.NoiseFieldParameters :=
  {| Utilities.scale := 0.05; Utilities.octaves := 10;
     Utilities.persistence := 0.5; Utilities.lacunarity := 2.0;
     Utilities.amplitude := 0.5 |}.

Definition paramsSand : Utilities.NoiseFieldParameters :=
  {| Utilities.scale := 0.05; Utilities.octaves := 7;
     Utilities.persistence := 0.5; Utilities.lacunarity := 2.0;
     Utilities.amplitude := 0.5 |}.

End Ocean.

(** ** The wave pipeline: the colours of the planet, the buildings *)

Module Shader.

Local Open Scope R_scope.

(** The colours of [planetFragmentShader]. *)
Inductive Colour : Type := ocean | sand | grass | rock | snow.

(** The hard cuts of [planetFragmentShader] on [vLockedHeight]. *)
Definition planetFragmentShader (vLockedHeight : R) : Colour :=
  if Rlt_dec vLockedHeight 10.2 then ocean
  else if Rlt_dec vLockedHeight 10.5 then sand
  else if Rlt_dec vLockedHeight 11.2 then grass
  else if Rlt_dec vLockedHeight 12.0 then rock
  else snow.

(** [PLANET_RADIUS]. *)
Definition PLANET_RADIUS : R := 10.

End Shader.

(** *** setupCloner, refreshClones, updateClones and animate *)

Module Buildings.

(** A building, by the identity of the object, its position and the
    direction its y axis points to (the second argument of
    [quaternion.setFromUnitVectors]). *)
Record Building : Type := {
  ident : nat;
  place : option vec3;
  up : option vec3
}.

(** The module-level variables: those of the displacer, the children of
    [scene] (by identity), [clones], [vertexIndices] and [settings.count];
    the number of objects created and of draws made so far. *)
Record State : Type := {
  wave : Wave.State;
  scene : list nat;
  clones : list Building;
  vertexIndices : list nat;
  settingsCount : Z;
  created : nat;
  draws : nat
}.

(** [scene.remove (object)]: the child is spliced out where [indexOf] finds
    it. *)
Fixpoint sceneRemove (object : nat) (children : list nat) : list nat :=
  match children with
  | [] => []
  | child :: rest =>
      if decide (child = object) then rest
      else child :: sceneRemove object rest
  end.

Section Cloner.

Variable random : nat -> Q.
Variable normals : list vec3 -> option (list nat) -> list vec3.

(** One pass of the loop of [setupCloner]: a new mesh, at the origin and
    upright, a vertex index drawn for it, both pushed and the mesh added to
    the scene. *)
Definition addBuilding (st : State) : State :=
  let building := {| ident := created st; place := Some Vec.zero;
                     up := Some (Vec.mk 0 1 0) |} in
  let vIndex :=
    Utilities.drawnIndex random (count (Wave.planet (wave st))) (draws st) in
  {| wave := wave st;
     scene := scene st ++ [ident building];
     clones := clones st ++ [building];
     vertexIndices := vertexIndices st ++ [vIndex];
     settingsCount := settingsCount st;
     created := S (created st);
     draws := S (draws st) |}.

Fixpoint setupLoop (k : nat) (st : State) : State :=
  match k with
  | O => st
  | S k' => setupLoop k' (addBuilding st)
  end.

(** [setupCloner (count)]. *)
Definition setupCloner (count : Z) (st : State) : State :=
  setupLoop (Z.to_nat count) st.

(** [refreshClones ()]; disposing of the geometry and of the material of the
    old buildings changes nothing of the state kept here. *)
Definition refreshClones (st : State) : State :=
  let scene' :=
    foldl (fun children building => sceneRemove (ident building) children)
          (scene st) (clones st) in
  setupCloner (settingsCount st)
    {| wave := wave st; scene := scene'; clones := [];
       vertexIndices := []; settingsCount := settingsCount st;
       created := created st; draws := draws st |}.

(** [updateClones ()]: a vertex index that is missing, or past the end of
    the buffer, gives [undefined] coordinates. *)
Definition updateClones (st : State) : State :=
  let planetPosAttr := position (Wave.planet (wave st)) in
  {| wave := wave st; scene := scene st;
     clones :=
       imap (fun i building =>
               let tempPos :=
                 vIndex ← vertexIndices st !! i; planetPosAttr !! vIndex in
               {| ident := ident building; place := tempPos;
                  up := Vec.normalize <$> tempPos |})
            (clones st);
     vertexIndices := vertexIndices st;
     settingsCount := settingsCount st;
     created := created st; draws := draws st |}.

(** A frame of [animate]: the displacer, then the buildings. *)
Definition animate (time audioVolume : R) (pick : option vec3) (st : State)
  : option State :=
  wave' ← Wave.updateDisplacer normals time audioVolume pick (wave st);
  Some (updateClones
          {| wave := wave'; scene := scene st; clones := clones st;
             vertexIndices := vertexIndices st;
             settingsCount := settingsCount st;
             created := created st; draws := draws st |}).

End Cloner.

End Buildings.

(** ** utilities.js: createStars *)

Module Stars.

(** The geometry of the [THREE.Points] that [createStars] returns: the
    arrays of its [position] and [color] attributes, three numbers a star. *)
Record Points : Type := {
  positionArray : list R;
  colorArray : list R
}.

(** The three typed arrays of the loop and the number of draws made. *)
Record Buffers : Type := {
  positions : list R;
  colors : list R;
  sizes : list R;
  drawn : nat
}.

Section CreateStars.

Local Open Scope R_scope.

(** The successive values of [Math.random ()], each in [0, 1). *)
Variable random : nat -> Q.
(** [new THREE.Color (hex)], as the vector of its [r], [g] and [b]. *)
Variable color : Z -> vec3.

(** The components of a colour are between 0 and 1. *)
Definition unitColours : Prop :=
  forall hex, 0 <= Vec.x (color hex) <= 1 /\ 0 <= Vec.y (color hex) <= 1
              /\ 0 <= Vec.z (color hex) <= 1.

Definition palette : list vec3 :=
  color <$> [0xffffff; 0xfff5e1; 0xffd700; 0xffa570; 0xffd2a1]%Z.

(** Draw number [n], as a number. *)
Definition mathRandom (n : nat) : R := Q2R (random n).

(** [d]: the position of a star, from the draws [n] to [n + 3]. *)
Definition starPosition (radius : R) (n : nat) : vec3 :=
  Vec.multiplyScalar
    (Vec.normalize
       (Vec.mk (mathRandom n - 0.5) (mathRandom (n + 1) - 0.5)
               (mathRandom (n + 2) - 0.5)))
    (radius + mathRandom (n + 3) * 100).

(** [baseColor] times [intensity], from the draws [n + 4] and [n + 5]; an
    index outside the palette gives [undefined]. *)
Definition starColor (n : nat) : option vec3 :=
  baseColor ←
    palette !! Utilities.drawnIndex random (length palette) (n + 4);
  let intensity := 0.5 + mathRandom (n + 5) * 2.0 in
  Some (Vec.multiplyScalar baseColor intensity).

(** One pass of the loop; writes past the end of a typed array are
    ignored, reading a component of [undefined] throws. *)
Definition starPass (radius : R) (i : nat) (b : Buffers)
  : Exception + Buffers :=
  let n := drawn b in
  let i3 := (i * 3)%nat in
  let d := starPosition radius n in
  let positions :=
    <[(i3 + 2)%nat := Vec.z d]>
      (<[(i3 + 1)%nat := Vec.y d]> (<[i3 := Vec.x d]> (positions b))) in
  match starColor n with
  | None => inl TypeError
  | Some c =>
      let colors :=
        <[(i3 + 2)%nat := Vec.z c]>
          (<[(i3 + 1)%nat := Vec.y c]> (<[i3 := Vec.x c]> (colors b))) in
      let sizes := <[i := mathRandom (n + 6) * 2.0]> (sizes b) in
      inr {| positions := positions; colors := colors; sizes := sizes;
             drawn := (n + 7)%nat |}
  end.

(** The loop from pass [i] on, [k] passes left. *)
Fixpoint starLoop (radius : R) (k i : nat) (b : Buffers)
  : Exception + Buffers :=
  match k with
  | O => inr b
  | S k' =>
      match starPass radius i b with
      | inl e => inl e
      | inr b' => starLoop radius k' (S i) b'
      end
  end.

(** [createStars (count, radius, texture)], after [drawn0] draws; a typed
    array of negative length is a [RangeError].  [sizes] is attached to
    nothing, and the material is left out. *)
Definition createStars (count : Z) (radius : R) (drawn0 : nat)
  : Exception + Points :=
  if (count <? 0)%Z then inl (Failure "RangeError")
  else
    let k := Z.to_nat count in
    match starLoop radius k 0
            {| positions := replicate (k * 3) 0;
               colors := replicate (k * 3) 0;
               sizes := replicate k 0;
               drawn := drawn0 |} with
    | inl e => inl e
    | inr b => inr {| positionArray := positions b;
                      colorArray := colors b |}
    end.

End CreateStars.

End Stars.

(** ** More sample inputs *)

Module MoreSamples.

Import Samples.

Local Open Scope R_scope.

(** The wave pipeline at rest on one vertex, and the same once a frame has
    pushed the vertex out: the original positions are the same. *)
Definition restingState : Wave.State := waveState [Vec.mk 10 0 0].

Definition displacedState : Wave.State :=
  {| Wave.planet := geometry (meshOf [Vec.mk 11 0 0]);
     Wave.originalPositions := Vec.toArray [Vec.mk 10 0 0];
     Wave.impactPoint := Vec.zero |}.

(** The default parameters with a null overall amplitude. *)
Definition flatParams : Utilities.NoiseFieldParameters :=
  {| Utilities.scale := 0.05; Utilities.octaves := 4;
     Utilities.persistence := 0.5; Utilities.lacunarity := 2;
     Utilities.amplitude := 0 |}.

(** [strictModify] behind a check of the sign of the request. *)
Definition guardedModify (g : BufferGeometry) (n : Z)
  : Exception + BufferGeometry :=
  if (n <? 0)%Z then inl (Failure "negative") else strictModify g n.

(** An ocean of one vertex with its original positions saved. *)
Definition oceanMesh : Mesh :=
  {| geometry :=
       setOriginalPositions (Vec.toArray [Vec.mk 12 0 0])
         (geometry (meshOf [Vec.mk 12 0 0]));
     flatShading := true |}.

(** The radii of the gradient of [materials.Land], from black to white. *)
Definition landGradient : Ocean.Gradient :=
  {| Ocean.colorInner := Vec.mk 0 0 0; Ocean.colorOuter := Vec.mk 1 1 1;
     Ocean.innerRadius := 12; Ocean.outerRadius := 12.5 |}.

(** A planet of two vertices, alone in the scene (object 0), and the same
    with one building (object 1) on its second vertex. *)
Definition town : Buildings.State :=
  {| Buildings.wave := waveState [Vec.mk 10 0 0; Vec.mk 0 10 0];
     Buildings.scene := [0%nat]; Buildings.clones := [];
     Buildings.vertexIndices := []; Buildings.settingsCount := 3;
     Buildings.created := 1; Buildings.draws := 0 |}.

Definition house : Buildings.Building :=
  {| Buildings.ident := 1; Buildings.place := Some Vec.zero;
     Buildings.up := Some (Vec.mk 0 1 0) |}.

Definition settledTown : Buildings.State :=
  {| Buildings.wave := waveState [Vec.mk 10 0 0; Vec.mk 0 10 0];
     Buildings.scene := [0%nat; 1%nat]; Buildings.clones := [house];
     Buildings.vertexIndices := [1%nat]; Buildings.settingsCount := 3;
     Buildings.created := 2; Buildings.draws := 1 |}.

(** A palette of whites. *)
Definition white (hex : Z) : vec3 := Vec.mk 1 1 1.

End MoreSamples.

(** * Part II: properties *)

(** ** Vectors *)

Module VecFacts.

Local Open Scope R_scope.

Lemma lengthSq_nonneg (a : vec3) : 0 <= Vec.lengthSq a.
Proof. unfold Vec.lengthSq. nra. Qed.

Lemma length_nonneg (a : vec3) : 0 <= Vec.length a.
Proof. apply sqrt_pos. Qed.

Lemma length_square (a : vec3) : Vec.length a * Vec.length a = Vec.lengthSq a.
Proof. apply sqrt_sqrt, lengthSq_nonneg. Qed.

Lemma length_null (a : vec3) : Vec.length a = 0 -> a = Vec.zero.
Proof.
  intros H. pose proof (length_square a) as Hs. rewrite H in Hs.
  unfold Vec.lengthSq in Hs. destruct a as [x y z]; simpl in *.
  pose proof (Rle_0_sqr x) as Hx. pose proof (Rle_0_sqr y) as Hy.
  pose proof (Rle_0_sqr z) as Hz. unfold Rsqr in Hx, Hy, Hz.
  assert (x = 0) by (apply Rsqr_0_uniq; unfold Rsqr; lra).
  assert (y = 0) by (apply Rsqr_0_uniq; unfold Rsqr; lra).
  assert (z = 0) by (apply Rsqr_0_uniq; unfold Rsqr; lra).
  subst. reflexivity.
Qed.

Lemma length_multiplyScalar (a : vec3) (s : R) :
  Vec.length (Vec.multiplyScalar a s) = Vec.length a * Rabs s.
Proof.
  unfold Vec.length. rewrite <- (sqrt_Rsqr_abs s).
  rewrite <- sqrt_mult; [| apply lengthSq_nonneg | apply Rle_0_sqr].
  f_equal. unfold Vec.lengthSq, Vec.multiplyScalar, Rsqr. simpl. ring.
Qed.

(** Moving a vertex along its own direction is a scaling of the vertex. *)
Lemma radial_as_scaling (a : vec3) (h : R) :
  Vec.length a <> 0 ->
  Vec.add a (Vec.multiplyScalar (Vec.normalize a) h)
  = Vec.multiplyScalar a (1 + h / Vec.length a).
Proof.
  intros Hl. unfold Vec.normalize.
  destruct (Req_dec_T (Vec.length a) 0) as [E | _]; [contradiction |].
  unfold Vec.add, Vec.divideScalar, Vec.multiplyScalar. simpl.
  f_equal; field; exact Hl.
Qed.

(** The null vector has no direction and stays where it is. *)
Lemma radial_null (h : R) :
  Vec.add Vec.zero (Vec.multiplyScalar (Vec.normalize Vec.zero) h) = Vec.zero.
Proof.
  unfold Vec.normalize, Vec.add, Vec.divideScalar, Vec.multiplyScalar,
    Vec.zero. simpl. f_equal; ring.
Qed.

(** The distance to the origin after a radial move by [h]. *)
Lemma length_radial (a : vec3) (h : R) :
  Vec.length a <> 0 ->
  Vec.length (Vec.add a (Vec.multiplyScalar (Vec.normalize a) h))
  = Rabs (Vec.length a + h).
Proof.
  intros Hl. rewrite radial_as_scaling by exact Hl.
  rewrite length_multiplyScalar.
  pose proof (length_nonneg a) as Hp.
  rewrite <- (Rabs_pos_eq (Vec.length a)) at 1 by exact Hp.
  rewrite <- Rabs_mult. f_equal. field. exact Hl.
Qed.

(** A radial move by [h] changes the distance to the origin by at most
    [|h|], and lowers it by at most [-h]. *)
Lemma length_radial_bounds (a : vec3) (h : R) :
  let a' := Vec.add a (Vec.multiplyScalar (Vec.normalize a) h) in
  Rabs (Vec.length a' - Vec.length a) <= Rabs h
  /\ Vec.length a - Rmax 0 (- h) <= Vec.length a'.
Proof.
  intros a'. subst a'.
  pose proof (length_nonneg a) as Hp.
  pose proof (Rmax_l 0 (- h)). pose proof (Rmax_r 0 (- h)).
  destruct (Req_dec_T (Vec.length a) 0) as [E | N].
  - pose proof (length_null a E) as ->. rewrite radial_null, E.
    replace (0 - 0) with 0 by ring. rewrite Rabs_R0.
    split; [apply Rabs_pos | lra].
  - rewrite length_radial by exact N.
    unfold Rabs. repeat destruct Rcase_abs; repeat split; lra.
Qed.

End VecFacts.

(** ** Vertex loops *)

Module LoopFacts.

Section Loops.

Context {A B : Type}.

Lemma updateVertex_middle (f : vec3 -> option vec3) (done todo : list vec3)
    (v : vec3) :
  updateVertex f (length done) (done ++ v :: todo)
  = v' ← f v; Some (done ++ v' :: todo).
Proof.
  unfold updateVertex. rewrite list_lookup_middle by done. simpl.
  destruct (f v) as [v' |]; simpl; [| done].
  rewrite insert_app_r_alt by lia. by rewrite Nat.sub_diag.
Qed.

(** A loop that rewrites each entry of a buffer from the entry itself: the
    entries before [i] are done, the others are still to do. *)
Lemma forFrom_updateVertex (f : vec3 -> option vec3) (done todo : list vec3) :
  forFrom (updateVertex f) (length done) (length todo) (done ++ todo)
  = (fun todo' => done ++ todo') <$> mapM f todo.
Proof.
  revert done. induction todo as [| v todo IH]; intros done;
    cbn [forFrom length].
  - simpl. by rewrite app_nil_r.
  - rewrite updateVertex_middle.
    change (mapM f (v :: todo))
      with (y ← f v; k ← mapM f todo; mret (y :: k)).
    destruct (f v) as [v' |]; simpl; [| done].
    replace (done ++ v' :: todo) with ((done ++ [v']) ++ todo)
      by (by rewrite <- app_assoc).
    replace (S (length done)) with (length (done ++ [v']))
      by (rewrite length_app; simpl; lia).
    rewrite IH. destruct (mapM f todo); simpl; [| done].
    by rewrite <- app_assoc.
Qed.

Lemma forLoop_updateVertex (f : vec3 -> option vec3) (p : list vec3) :
  forLoop (length p) (updateVertex f) p = mapM f p.
Proof.
  unfold forLoop. pose proof (forFrom_updateVertex f [] p) as H.
  simpl in H. rewrite H. by destruct (mapM f p).
Qed.

(** A loop that writes entry [i] of a buffer from a source [src i]. *)
Lemma forFrom_write (src : nat -> option A) (done todo : list A) :
  forFrom (fun i (p : list A) => v ← src i; Some (<[i := v]> p))
          (length done) (length todo) (done ++ todo)
  = (fun todo' => done ++ todo')
      <$> mapM src (seq (length done) (length todo)).
Proof.
  revert done. induction todo as [| t todo IH]; intros done;
    cbn [forFrom length seq].
  - simpl. by rewrite app_nil_r.
  - change (mapM src (length done :: seq (S (length done)) (length todo)))
      with (y ← src (length done);
            k ← mapM src (seq (S (length done)) (length todo)); mret (y :: k)).
    destruct (src (length done)) as [v |]; simpl; [| done].
    rewrite insert_app_r_alt by lia. rewrite Nat.sub_diag. simpl.
    replace (done ++ v :: todo) with ((done ++ [v]) ++ todo)
      by (by rewrite <- app_assoc).
    replace (S (length done)) with (length (done ++ [v]))
      by (rewrite length_app; simpl; lia).
    rewrite IH.
    destruct (mapM src (seq (length (done ++ [v])) (length todo))); simpl;
      [| done].
    by rewrite <- app_assoc.
Qed.

Lemma forLoop_write (src : nat -> option A) (p : list A) :
  forLoop (length p) (fun i (p : list A) => v ← src i; Some (<[i := v]> p)) p
  = mapM src (seq 0 (length p)).
Proof.
  unfold forLoop. pose proof (forFrom_write src [] p) as H.
  simpl in H. rewrite H. by destruct (mapM src (seq 0 (length p))).
Qed.

(** Loops with the same body are the same loop. *)
Lemma forFrom_ext (body1 body2 : nat -> A -> option A) (n i : nat) (s : A) :
  (forall j t, body1 j t = body2 j t) ->
  forFrom body1 i n s = forFrom body2 i n s.
Proof.
  intros H. revert i s. induction n as [| n IH]; intros i s; simpl; [done |].
  rewrite H. destruct (body2 i s); simpl; [apply IH | done].
Qed.

(** The entries of the result of [mapM]. *)
Lemma mapM_lookup (f : A -> option B) (l : list A) (k : list B) (i : nat)
    (a : A) :
  mapM f l = Some k -> l !! i = Some a -> exists b, k !! i = Some b /\ f a = Some b.
Proof.
  intros Hm Hl. apply mapM_Some_1 in Hm.
  destruct (Forall2_lookup_l _ _ _ _ _ Hm Hl) as (b & Hb & Hf). eauto.
Qed.

Lemma mapM_lookup_inv (f : A -> option B) (l : list A) (k : list B) (i : nat)
    (b : B) :
  mapM f l = Some k -> k !! i = Some b -> exists a, l !! i = Some a /\ f a = Some b.
Proof.
  intros Hm Hk. apply mapM_Some_1 in Hm.
  destruct (Forall2_lookup_r _ _ _ _ _ Hm Hk) as (a & Ha & Hf). eauto.
Qed.

End Loops.

End LoopFacts.

(** ** bakeTerrain (utilities.js) *)

Module TerrainFacts.

Import Utilities.

Section Terrain.

Local Open Scope R_scope.

Variable noise3D : R -> R -> R -> R.
Variable normals : list vec3 -> option (list nat) -> list vec3.
Variable mergeVertices : BufferGeometry -> BufferGeometry.

(** The invariant of the octave loop: the weights are non-negative and
    [noiseValue] stays within [maxValue]. *)
Lemma octaveLoop_bound (params : NoiseFieldParameters) (vertex : vec3) :
  unitNoise noise3D -> 0 <= persistence params ->
  forall (k : nat) (noiseValue frequency amplitude maxValue : R),
    0 <= amplitude -> Rabs noiseValue <= maxValue ->
    let '(noiseValue', maxValue') :=
      octaveLoop noise3D params vertex k noiseValue frequency amplitude
        maxValue in
    Rabs noiseValue' <= maxValue'
    /\ maxValue + (match k with O => 0 | S _ => amplitude end) <= maxValue'.
Proof.
  intros Hn Hp. induction k as [| k IH]; intros nv fr am mx Ham Hnv; simpl.
  - split; lra.
  - set (n := noise3D _ _ _).
    assert (Hn' : -1 <= n <= 1) by apply Hn.
    assert (Hstep : Rabs (nv + n * am) <= mx + am).
    { eapply Rle_trans; [apply Rabs_triang |].
      rewrite Rabs_mult, (Rabs_pos_eq am) by exact Ham.
      assert (Rabs n <= 1) by (apply Rabs_le; lra).
      nra. }
    assert (Ham' : 0 <= am * persistence params) by nra.
    specialize (IH (nv + n * am) (fr * lacunarity params)
                   (am * persistence params) (mx + am) Ham' Hstep).
    destruct (octaveLoop _ _ _ _ _ _ _ _) as [nv' mx'].
    destruct IH as [IH1 IH2]. split; [exact IH1 |].
    destruct k; lra.
Qed.

(** With at least one octave and a non-negative persistence the height is a
    real number, within the overall amplitude. *)
Lemma finalHeight_bound (params : NoiseFieldParameters) (vertex : vec3) :
  unitNoise noise3D -> 0 <= persistence params -> (1 <= octaves params)%Z ->
  exists h, finalHeight noise3D params vertex = Some h
            /\ Rabs h <= Rabs (amplitude params).
Proof.
  intros Hn Hp Ho. unfold finalHeight.
  pose proof (octaveLoop_bound params vertex Hn Hp
                (Z.to_nat (octaves params)) 0 (scale params) 1 0) as H.
  destruct (octaveLoop _ _ _ _ _ _ _ _) as [nv mx].
  destruct H as [H1 H2]; [lra | rewrite Rabs_R0; lra |].
  assert (Hmx : 1 <= mx).
  { destruct (Z.to_nat (octaves params)) eqn:E; [lia | lra]. }
  destruct (Req_dec_T mx 0) as [E | _]; [lra |].
  eexists; split; [reflexivity |].
  rewrite Rabs_mult. unfold Rdiv. rewrite Rabs_mult.
  rewrite (Rabs_pos_eq (/ mx)) by (left; apply Rinv_0_lt_compat; lra).
  assert (Rabs nv * / mx <= 1).
  { apply (Rmult_le_reg_r mx); [lra |].
    rewrite Rmult_assoc, Rinv_l by lra. lra. }
  pose proof (Rabs_pos (amplitude params)).
  pose proof (Rabs_pos nv).
  assert (0 <= Rabs nv * / mx).
  { apply Rmult_le_pos; [apply Rabs_pos |].
    left; apply Rinv_0_lt_compat; lra. }
  nra.
Qed.

(** The sum of the weights is at least the first weight, 1, as soon as
    there is an octave and the persistence is not negative: the height is
    then a real number whatever the noise. *)
Lemma octaveLoop_maxValue (params : NoiseFieldParameters) (vertex : vec3) :
  0 <= persistence params ->
  forall (k : nat) (noiseValue frequency amplitude maxValue : R),
    0 <= amplitude ->
    maxValue + (match k with O => 0 | S _ => amplitude end)
    <= snd (octaveLoop noise3D params vertex k noiseValue frequency amplitude
              maxValue).
Proof.
  intros Hp. induction k as [| k IH]; intros nv fr am mx Ham; simpl.
  - lra.
  - assert (Ham' : 0 <= am * persistence params) by nra.
    specialize (IH (nv + noise3D (Vec.x vertex * fr) (Vec.y vertex * fr)
                                 (Vec.z vertex * fr) * am)
                   (fr * lacunarity params) (am * persistence params)
                   (mx + am) Ham').
    destruct k; lra.
Qed.

Lemma finalHeight_real (params : NoiseFieldParameters) (vertex : vec3) :
  0 <= persistence params -> (1 <= octaves params)%Z ->
  is_Some (finalHeight noise3D params vertex).
Proof.
  intros Hp Ho. unfold finalHeight.
  pose proof (octaveLoop_maxValue params vertex Hp
                (Z.to_nat (octaves params)) 0 (scale params) 1 0) as H.
  destruct (octaveLoop _ _ _ _ _ _ _ _) as [nv mx]. simpl in H.
  assert (1 <= mx).
  { destruct (Z.to_nat (octaves params)) eqn:E; [lia | lra]. }
  destruct (Req_dec_T mx 0) as [E | _]; [lra | eauto].
Qed.

(** The vertex loop of [bakeTerrain] bakes every vertex, each from its own
    position. *)
Lemma bakeTerrain_positions (planet : Mesh) (params : NoiseFieldParameters) :
  bakeTerrain noise3D normals mergeVertices planet params
  = pos ← mapM (bakeVertex noise3D params) (position (geometry planet));
    Some {| geometry :=
              mergeVertices
                (computeVertexNormals normals
                   (setPosition pos (geometry planet)));
            flatShading := true |}.
Proof.
  unfold bakeTerrain, count. by rewrite LoopFacts.forLoop_updateVertex.
Qed.

(** Every vertex is baked to a real position when the heights are real. *)
Lemma bake_all (params : NoiseFieldParameters) (p : list vec3) :
  (forall v, v ∈ p -> is_Some (finalHeight noise3D params v)) ->
  is_Some (mapM (bakeVertex noise3D params) p).
Proof.
  intros H. apply mapM_is_Some_2, Forall_forall. intros v Hv.
  destruct (H v Hv) as [h Hh]. unfold bakeVertex. simpl. rewrite Hh.
  simpl. eauto.
Qed.

(** A vertex of the baked mesh comes from a vertex of the mesh as it was. *)
Lemma bakeTerrain_vertex (planet planet' : Mesh)
    (params : NoiseFieldParameters) (v' : vec3) :
  weldKeepsVertices mergeVertices ->
  bakeTerrain noise3D normals mergeVertices planet params = Some planet' ->
  v' ∈ position (geometry planet') ->
  exists v h,
    v ∈ position (geometry planet)
    /\ finalHeight noise3D params v = Some h
    /\ v' = Vec.add v (Vec.multiplyScalar (Vec.normalize v) h).
Proof.
  intros Hw Hb Hv'. rewrite bakeTerrain_positions in Hb.
  destruct (mapM _ _) as [pos |] eqn:Hm; simpl in Hb; [| done].
  injection Hb as <-. simpl in Hv'. apply Hw in Hv'. simpl in Hv'.
  apply list_elem_of_lookup in Hv' as [i Hi].
  destruct (LoopFacts.mapM_lookup_inv _ _ _ _ _ Hm Hi) as (v & Hv & Hf).
  unfold bakeVertex in Hf.
  destruct (finalHeight noise3D params v) as [h |] eqn:Hh; simpl in Hf;
    [| done].
  injection Hf as <-. exists v, h.
  split; [by eapply list_elem_of_lookup_2 | done].
Qed.

End Terrain.

End TerrainFacts.

(** ** The sample inputs, evaluated *)

Module SampleFacts.

Import Utilities Samples.

Local Open Scope R_scope.

Lemma length_on_x (r : R) : 0 <= r -> Vec.length (Vec.mk r 0 0) = r.
Proof.
  intros Hr. unfold Vec.length, Vec.lengthSq. simpl.
  replace (r * r + 0 * 0 + 0 * 0) with (r * r) by ring.
  by apply sqrt_square.
Qed.

Lemma radial_on_x (r h : R) :
  0 < r ->
  Vec.add (Vec.mk r 0 0)
          (Vec.multiplyScalar (Vec.normalize (Vec.mk r 0 0)) h)
  = Vec.mk (r + h) 0 0.
Proof.
  intros Hr. rewrite VecFacts.radial_as_scaling;
    rewrite length_on_x by lra; [| lra].
  unfold Vec.multiplyScalar. simpl. f_equal; field; lra.
Qed.

Lemma rampNoise_unit : unitNoise rampNoise.
Proof.
  intros x y z. unfold rampNoise, Rmax, Rmin.
  repeat destruct Rle_dec; lra.
Qed.

Lemma rampNoise_high (x y z : R) : 1 <= x -> rampNoise x y z = 1.
Proof.
  intros Hx. unfold rampNoise, Rmax, Rmin. repeat destruct Rle_dec; lra.
Qed.

Lemma fallingNoise_unit : unitNoise fallingNoise.
Proof.
  intros x y z. unfold fallingNoise, Rmax, Rmin.
  repeat destruct Rle_dec; lra.
Qed.

Lemma noWeld_keeps : weldKeepsVertices noWeld.
Proof. by intros g v Hv. Qed.

(** One octave of the ramp raises a vertex of the x axis, at 1 or beyond,
    by 1. *)
Lemma oneOctave_height (r : R) :
  1 <= r -> finalHeight rampNoise oneOctave (Vec.mk r 0 0) = Some 1.
Proof.
  intros Hr. unfold finalHeight. simpl.
  rewrite rampNoise_high by lra.
  destruct Req_dec_T as [E | _]; [lra |]. f_equal. field.
Qed.

Lemma oneOctave_bake (r : R) :
  1 <= r ->
  bakeVertex rampNoise oneOctave (Vec.mk r 0 0) = Some (Vec.mk (r + 1) 0 0).
Proof.
  intros Hr. unfold bakeVertex. rewrite oneOctave_height by exact Hr.
  simpl. by rewrite radial_on_x by lra.
Qed.

(** Two octaves of opposite weights: the sum of the weights is 1/2, the
    weighted sum of the samples 3/2. *)
Lemma alternating_height :
  finalHeight fallingNoise alternating (Vec.mk 1 0 0) = Some 3.
Proof.
  unfold finalHeight. simpl.
  assert (H1 : fallingNoise (1 * 1) (0 * 1) (0 * 1) = 1).
  { unfold fallingNoise, Rmax, Rmin. repeat destruct Rle_dec; lra. }
  assert (H2 : fallingNoise (1 * (1 * 2)) (0 * (1 * 2)) (0 * (1 * 2)) = -1).
  { unfold fallingNoise, Rmax, Rmin. repeat destruct Rle_dec; lra. }
  rewrite H1, H2.
  destruct Req_dec_T as [E | _]; [lra |]. f_equal. lra.
Qed.

End SampleFacts.

(** ** Claims on the terrain bake *)

Module TerrainClaims.

Import Utilities Samples.

Section Bake.

Local Open Scope R_scope.

Variable noise3D : R -> R -> R -> R.
Variable normals : list vec3 -> option (list nat) -> list vec3.
Variable mergeVertices : BufferGeometry -> BufferGeometry.

(** C4, as amended.  With noise samples in [-1, 1], at least one octave and a
    persistence that is not negative, the fBm height of every vertex is a
    real number of magnitude at most [|params.amplitude|]; [bakeTerrain]
    then returns a mesh each of whose vertices comes from a vertex of the
    input whose distance to the origin differs by at most
    [|params.amplitude|]; on a sphere of radius [r] every resulting radius
    lies within [r - |amplitude|, r + |amplitude|]. *)
Theorem bakeTerrain_radius_within_amplitude (planet : Mesh)
    (params : NoiseFieldParameters) :
  unitNoise noise3D -> weldKeepsVertices mergeVertices ->
  0 <= persistence params -> (1 <= octaves params)%Z ->
  (forall v, exists h,
      finalHeight noise3D params v = Some h
      /\ Rabs h <= Rabs (amplitude params))
  /\ exists planet',
      bakeTerrain noise3D normals mergeVertices planet params = Some planet'
      /\ (forall v', v' ∈ position (geometry planet') ->
          exists v, v ∈ position (geometry planet)
                    /\ Rabs (Vec.length v' - Vec.length v)
                       <= Rabs (amplitude params))
      /\ (forall r,
            (forall v, v ∈ position (geometry planet) -> Vec.length v = r) ->
            forall v', v' ∈ position (geometry planet') ->
              r - Rabs (amplitude params) <= Vec.length v'
              <= r + Rabs (amplitude params)).
Proof.
  intros Hn Hw Hp Ho.
  assert (Hfh : forall v, exists h,
             finalHeight noise3D params v = Some h
             /\ Rabs h <= Rabs (amplitude params))
    by (intros v; by apply TerrainFacts.finalHeight_bound).
  split; [exact Hfh |].
  destruct (TerrainFacts.bake_all noise3D params (position (geometry planet)))
    as [pos Hpos].
  { intros v _. destruct (Hfh v) as (h & Hh & _). rewrite Hh. eauto. }
  eexists. split.
  { rewrite TerrainFacts.bakeTerrain_positions, Hpos. reflexivity. }
  assert (Hstep : forall v', v' ∈ position (mergeVertices
              (computeVertexNormals normals (setPosition pos (geometry planet)))) ->
            exists v, v ∈ position (geometry planet)
                    /\ Rabs (Vec.length v' - Vec.length v)
                       <= Rabs (amplitude params)).
  { intros v' Hv'.
    destruct (TerrainFacts.bakeTerrain_vertex noise3D normals mergeVertices
                planet _ params v' Hw
                ltac:(rewrite TerrainFacts.bakeTerrain_positions, Hpos;
                      reflexivity) Hv')
      as (v & h & Hv & Hh & ->).
    exists v. split; [exact Hv |].
    destruct (Hfh v) as (h' & Hh' & Hb). rewrite Hh in Hh'.
    injection Hh' as <-.
    destruct (VecFacts.length_radial_bounds v h) as [H1 _]. simpl in H1. lra. }
  simpl. split; [exact Hstep |].
  intros r Hr v' Hv'. destruct (Hstep v' Hv') as (v & Hv & Hb).
  rewrite (Hr v Hv) in Hb. revert Hb. unfold Rabs at 1.
  destruct Rcase_abs; lra.
Qed.

End Bake.

Lemma bakeTerrain_radius_within_amplitude_witness :
  unitNoise rampNoise /\ weldKeepsVertices noWeld
  /\ (0 <= persistence defaultParams)%R /\ (1 <= octaves defaultParams)%Z
  /\ exists planet',
      bakeTerrain rampNoise noNormals noWeld (meshOf [Vec.mk 10 0 0])
        defaultParams = Some planet'
      /\ forall v', v' ∈ position (geometry planet') ->
           (10 - 4 <= Vec.length v' <= 10 + 4)%R.
Proof.
  assert (Hp : (0 <= persistence defaultParams)%R) by (simpl; lra).
  assert (Ho : (1 <= octaves defaultParams)%Z) by (simpl; lia).
  split; [exact SampleFacts.rampNoise_unit |].
  split; [exact SampleFacts.noWeld_keeps |].
  split; [exact Hp |]. split; [exact Ho |].
  destruct (bakeTerrain_radius_within_amplitude rampNoise noNormals noWeld
              (meshOf [Vec.mk 10 0 0]) defaultParams
              SampleFacts.rampNoise_unit SampleFacts.noWeld_keeps Hp Ho)
    as (_ & planet' & Hb & _ & Hr).
  exists planet'. split; [exact Hb |].
  intros v' Hv'.
  assert (H4 : Rabs (amplitude defaultParams) = 4%R)
    by (simpl; apply Rabs_pos_eq; lra).
  rewrite <- H4. apply (Hr 10%R); [| exact Hv'].
  intros v Hv. simpl in Hv. apply list_elem_of_singleton in Hv as ->.
  apply SampleFacts.length_on_x. lra.
Defined.

(** C4, as stated, fails: noise samples in [-1, 1] alone do not keep the fBm
    height within [params.amplitude].  With a persistence of -1/2 the two
    weights are 1 and -1/2, their sum is 1/2, and the samples 1 and -1 give
    the height 3 for the amplitude 1: the vertex (1, 0, 0) is baked to
    (4, 0, 0).  Without an octave the height is 0 / 0, and with the
    amplitude -1 a height of magnitude 1 is not within the amplitude. *)
Lemma fbm_exceeds_amplitude_counterexample :
  unitNoise fallingNoise
  /\ finalHeight fallingNoise alternating (Vec.mk 1 0 0) = Some 3%R
  /\ amplitude alternating = 1%R
  /\ ~ (forall (noise3D : R -> R -> R -> R) (params : NoiseFieldParameters)
               (vertex : vec3) (h : R),
          unitNoise noise3D ->
          finalHeight noise3D params vertex = Some h ->
          (Rabs h <= amplitude params)%R)
  /\ (exists planet',
        bakeTerrain fallingNoise noNormals noWeld (meshOf [Vec.mk 1 0 0])
          alternating = Some planet'
        /\ position (geometry planet') = [Vec.mk 4 0 0])
  /\ finalHeight fallingNoise noOctaves (Vec.mk 1 0 0) = None
  /\ finalHeight rampNoise negativeAmplitude (Vec.mk 1 0 0) = Some (-1)%R
  /\ amplitude negativeAmplitude = (-1)%R.
Proof.
  split; [exact SampleFacts.fallingNoise_unit |].
  split; [exact SampleFacts.alternating_height |].
  split; [reflexivity |].
  split.
  { intros H.
    specialize (H fallingNoise alternating (Vec.mk 1 0 0) 3%R
                  SampleFacts.fallingNoise_unit
                  SampleFacts.alternating_height).
    simpl in H. rewrite Rabs_pos_eq in H by lra. lra. }
  split.
  { eexists. split.
    - rewrite TerrainFacts.bakeTerrain_positions. simpl.
      unfold bakeVertex. rewrite SampleFacts.alternating_height. simpl.
      rewrite SampleFacts.radial_on_x by lra. reflexivity.
    - simpl. do 2 f_equal. lra. }
  split.
  { unfold finalHeight. simpl. by destruct Req_dec_T. }
  split; [| reflexivity].
  unfold finalHeight. simpl. rewrite SampleFacts.rampNoise_high by lra.
  destruct Req_dec_T as [E | _]; [lra |]. f_equal. lra.
Qed.

End TerrainClaims.

(** ** Claims on regenerate (main.js) *)

Module RegenerateClaims.

Import Utilities Samples.

Section Regenerate.

Local Open Scope R_scope.

Variable noise3D : R -> R -> R -> R.
Variable normals : list vec3 -> option (list nat) -> list vec3.
Variable mergeVertices : BufferGeometry -> BufferGeometry.








End Regenerate.


End RegenerateClaims.

(** ** The wave pipeline *)

Module WaveFacts.

Import Wave.

Section Pipeline.

Local Open Scope R_scope.

Variable noise3D : R -> R -> R -> R.
Variable normals : list vec3 -> option (list nat) -> list vec3.

(** Reading vertex [i] of the flat copy of a buffer gives vertex [i] of the
    buffer. *)
Lemma readVertex_toArray (l : list vec3) (i : nat) :
  readVertex (Vec.toArray l) i = l !! i.
Proof.
  revert i. induction l as [| v l IH]; intros i.
  - unfold readVertex. simpl. by rewrite lookup_nil.
  - destruct i as [| i].
    + unfold readVertex. simpl. by destruct v.
    + transitivity (readVertex (Vec.toArray l) i); [| apply IH].
      unfold readVertex. simpl.
      replace (i * 3 + 1)%nat with (S (i * 3)) by lia.
      replace (i * 3 + 2)%nat with (S (S (i * 3))) by lia.
      reflexivity.
Qed.

Lemma length_toArray (l : list vec3) :
  length (Vec.toArray l) = (3 * length l)%nat.
Proof. induction l as [| v l IH]; simpl; [done | lia]. Qed.

(** A vertex of an array of [3 * n] numbers can be read for every index
    below [n]. *)
Lemma readVertex_is_Some (a : list R) (i : nat) :
  (i * 3 + 2 < length a)%nat -> is_Some (readVertex a i).
Proof.
  intros H. unfold readVertex.
  destruct (lookup_lt_is_Some_2 a (i * 3)) as [x ->]; [lia |].
  destruct (lookup_lt_is_Some_2 a (i * 3 + 1)) as [y ->]; [lia |].
  destruct (lookup_lt_is_Some_2 a (i * 3 + 2)) as [z ->]; [lia |].
  simpl. eauto.
Qed.

(** [bakeTerrain] always returns: it bakes each vertex from its own
    position and keeps a flat copy of the result. *)
Lemma bakeTerrain_spec (st : State) :
  bakeTerrain noise3D normals st
  = Some {| planet :=
              computeVertexNormals normals
                (setPosition (bakeVertex noise3D <$> position (planet st))
                             (planet st));
            originalPositions :=
              Vec.toArray (bakeVertex noise3D <$> position (planet st));
            impactPoint := impactPoint st |}.
Proof.
  unfold bakeTerrain, count. rewrite LoopFacts.forLoop_updateVertex.
  assert (mapM (fun v => Some (bakeVertex noise3D v)) (position (planet st))
          = Some (bakeVertex noise3D <$> position (planet st))) as ->; [| done].
  apply mapM_Some_2. induction (position (planet st)); simpl; by constructor.
Qed.

(** The vertex loop of [updateDisplacer]. *)
Lemma displacer_loop (time audioVolume : R) (impact : vec3) (a : list R)
    (p : list vec3) :
  forLoop (length p)
    (fun i (p : list vec3) =>
       vertex ← readVertex a i;
       Some (<[i := displace time audioVolume impact vertex]> p)) p
  = mapM (fun i => displace time audioVolume impact <$> readVertex a i)
         (seq 0 (length p)).
Proof.
  rewrite <- LoopFacts.forLoop_write. unfold forLoop.
  apply LoopFacts.forFrom_ext. intros i q.
  by destruct (readVertex a i).
Qed.

Lemma updateDisplacer_spec (time audioVolume : R) (pick : option vec3)
    (st : State) :
  updateDisplacer normals time audioVolume pick st
  = pos ← mapM (fun i =>
                  displace time audioVolume
                    (impactPoint (updateRaycast pick st))
                  <$> readVertex (originalPositions st) i)
               (seq 0 (count (planet st)));
    Some {| planet := computeVertexNormals normals
                        (setPosition pos (planet st));
            originalPositions := originalPositions st;
            impactPoint := impactPoint (updateRaycast pick st) |}.
Proof.
  unfold updateDisplacer, count.
  assert (Hp : planet (updateRaycast pick st) = planet st)
    by (by destruct pick).
  assert (Ho : originalPositions (updateRaycast pick st)
               = originalPositions st) by (by destruct pick).
  rewrite Hp, Ho. by rewrite displacer_loop.
Qed.

(** What a frame keeps: the number of vertices, the index, the further
    attributes and [originalPositions]. *)
Lemma updateDisplacer_frame (time audioVolume : R) (pick : option vec3)
    (st st' : State) :
  updateDisplacer normals time audioVolume pick st = Some st' ->
  attributes (planet st') = attributes (planet st)
  /\ index (planet st') = index (planet st)
  /\ count (planet st') = count (planet st)
  /\ originalPositions st' = originalPositions st.
Proof.
  rewrite updateDisplacer_spec. intros H.
  destruct (mapM _ _) as [pos |] eqn:Hm; simpl in H; [| done].
  injection H as <-. simpl. repeat split.
  apply length_mapM in Hm. rewrite length_seq in Hm. unfold count. simpl.
  by rewrite <- Hm.
Qed.

(** A frame returns when [originalPositions] holds three numbers for every
    vertex. *)
Lemma updateDisplacer_total (time audioVolume : R) (pick : option vec3)
    (st : State) :
  length (originalPositions st) = (3 * count (planet st))%nat ->
  is_Some (updateDisplacer normals time audioVolume pick st).
Proof.
  intros Hl. rewrite updateDisplacer_spec.
  destruct (mapM _ _) as [pos |] eqn:Hm; simpl; [eauto |].
  apply mapM_None_1, Exists_exists in Hm as (i & Hi & Hn).
  apply elem_of_seq in Hi.
  destruct (readVertex_is_Some (originalPositions st) i) as [v Hv]; [lia |].
  rewrite Hv in Hn. done.
Qed.

Lemma frames_frame (fs : list (R * R * option vec3)) (st st' : State) :
  frames normals fs st = Some st' ->
  attributes (planet st') = attributes (planet st)
  /\ index (planet st') = index (planet st)
  /\ count (planet st') = count (planet st)
  /\ originalPositions st' = originalPositions st.
Proof.
  revert st. induction fs as [| [[time audioVolume] pick] fs IH]; intros st.
  - simpl. by intros [= <-].
  - simpl. destruct (updateDisplacer _ _ _ _ _) as [st1 |] eqn:H1; simpl;
      [| done].
    intros H. apply IH in H as (Ha & Hi & Hc & Ho).
    apply updateDisplacer_frame in H1 as (Ha1 & Hi1 & Hc1 & Ho1).
    repeat split; congruence.
Qed.

(** [lockColors] always returns: the heights are the distances of the
    vertices to the origin, each written by its own pass of the loop. *)
Lemma lockColors_spec (st : State) :
  lockColors st
  = Some {| planet := setAttribute "aBakedHeight"
                        (Vec.length <$> position (planet st)) (planet st);
            originalPositions := originalPositions st;
            impactPoint := impactPoint st |}.
Proof.
  assert (Hloop :
    forLoop (count (planet st))
      (fun i (bakedHeights : list R) =>
         vertex ← position (planet st) !! i;
         Some (<[i := Vec.length vertex]> bakedHeights))
      (replicate (count (planet st)) 0)
    = Some (Vec.length <$> position (planet st))).
  { rewrite <- (length_replicate (count (planet st)) 0) at 1.
    etransitivity;
      [| etransitivity;
         [apply (LoopFacts.forLoop_write
                   (fun i => Vec.length <$> position (planet st) !! i)) |]].
    - unfold forLoop. apply LoopFacts.forFrom_ext. intros i q.
      by destruct (position (planet st) !! i).
    - rewrite length_replicate. apply mapM_Some_2.
      apply Forall2_same_length_lookup_2.
      + rewrite length_seq, length_fmap. reflexivity.
      + intros i j h Hj Hh. apply lookup_seq in Hj as [-> _]. simpl.
        rewrite list_lookup_fmap in Hh. exact Hh. }
  unfold lockColors. by rewrite Hloop.
Qed.

(** [bakeTerrain] leaves in [originalPositions] the three coordinates of
    every vertex, and [lockColors] keeps them. *)
Lemma bakeTerrain_originalPositions (st st' : State) :
  bakeTerrain noise3D normals st = Some st' ->
  originalPositions st' = Vec.toArray (position (planet st'))
  /\ length (originalPositions st') = (3 * count (planet st'))%nat.
Proof.
  rewrite bakeTerrain_spec. intros [= <-]. simpl.
  split; [reflexivity |]. apply length_toArray.
Qed.

Lemma frames_total (fs : list (R * R * option vec3)) (st : State) :
  length (originalPositions st) = (3 * count (planet st))%nat ->
  is_Some (frames normals fs st).
Proof.
  revert st. induction fs as [| [[time audioVolume] pick] fs IH]; intros st Hl.
  - simpl. eauto.
  - simpl.
    destruct (updateDisplacer_total time audioVolume pick st Hl) as [st1 H1].
    rewrite H1. simpl. apply IH.
    apply updateDisplacer_frame in H1 as (_ & _ & Hc & Ho). congruence.
Qed.

(** Every state of a run (the bake, the lock, then frames) has in
    [originalPositions] the three coordinates of each of its vertices, as
    the bake left them. *)
Lemma run_originalPositions (fs : list (R * R * option vec3))
    (st baked locked st' : State) :
  bakeTerrain noise3D normals st = Some baked ->
  lockColors baked = Some locked ->
  frames normals fs locked = Some st' ->
  originalPositions st' = Vec.toArray (position (planet baked))
  /\ length (originalPositions st') = (3 * count (planet st'))%nat.
Proof.
  intros Hb Hl Hf.
  apply bakeTerrain_originalPositions in Hb as [Ho Hlen].
  rewrite lockColors_spec in Hl. injection Hl as <-.
  apply frames_frame in Hf as (_ & _ & Hc & Ho'). simpl in Hc, Ho'.
  rewrite Ho', Hc. done.
Qed.

End Pipeline.

End WaveFacts.

(** ** Claims on the wave pipeline *)

Module WaveClaims.

Import Wave Samples.

Section Pipeline.

Local Open Scope R_scope.

Variable noise3D : R -> R -> R -> R.
Variable normals : list vec3 -> option (list nat) -> list vec3.

(** Beyond the falloff radius the falloff is null. *)
Lemma falloffAt_far (dist : R) : falloffRadius <= dist -> falloffAt dist = 0.
Proof.
  unfold falloffAt, falloffRadius. intros H.
  rewrite Rmax_left by lra. simpl. ring.
Qed.

Lemma displace_far (time audioVolume : R) (impact vertex : vec3) :
  falloffRadius <= Vec.distanceTo vertex impact ->
  displace time audioVolume impact vertex = vertex.
Proof.
  intros H. unfold displace, waveAt. rewrite falloffAt_far by exact H.
  destruct vertex as [x y z].
  unfold Vec.add, Vec.multiplyScalar. simpl. f_equal; ring.
Qed.

(** C3.  A frame of the wave displacer returns (when [originalPositions]
    holds the three coordinates of every vertex) and sets the position of
    every vertex [i] to
    [baseline + normalize (baseline) * sin (dist * 2 - time * 5)
                * audioVolume * max (0, 1 - dist / 15) ^ 2],
    where [baseline] is vertex [i] of [originalPositions] and [dist] its
    distance to the impact point; a vertex at distance 15 or more is put
    exactly at its baseline, whatever the time. *)
Theorem updateDisplacer_wave_formula (time audioVolume : R)
    (pick : option vec3) (st : State) :
  length (originalPositions st) = (3 * count (planet st))%nat ->
  exists st',
    updateDisplacer normals time audioVolume pick st = Some st'
    /\ forall (i : nat) (baseline : vec3),
        (i < count (planet st))%nat ->
        readVertex (originalPositions st) i = Some baseline ->
        let impact := match pick with
                      | Some point => point
                      | None => impactPoint st
                      end in
        let dist := Vec.distanceTo baseline impact in
        position (planet st') !! i
        = Some (Vec.add baseline
                  (Vec.multiplyScalar (Vec.normalize baseline)
                     (sin (dist * 2 - time * 5) * audioVolume
                      * Rmax 0 (1 - dist / 15) ^ 2)))
        /\ (15 <= dist -> position (planet st') !! i = Some baseline).
Proof.
  intros Hl.
  destruct (WaveFacts.updateDisplacer_total normals time audioVolume pick st Hl)
    as [st' Hst'].
  exists st'. split; [exact Hst' |].
  intros i baseline Hi Hb impact dist.
  rewrite WaveFacts.updateDisplacer_spec in Hst'.
  destruct (mapM _ _) as [pos |] eqn:Hm; simpl in Hst'; [| done].
  injection Hst' as <-. simpl.
  assert (Hseq : seq 0 (count (planet st)) !! i = Some i)
    by (by apply lookup_seq_lt).
  destruct (LoopFacts.mapM_lookup _ _ _ _ _ Hm Hseq) as (v & Hv & Hf).
  rewrite Hb in Hf. simpl in Hf. injection Hf as <-.
  assert (Himp : impactPoint (updateRaycast pick st) = impact)
    by (by destruct pick).
  rewrite Himp in Hv. rewrite Hv. split; [reflexivity |].
  intros Hfar. f_equal. by apply displace_far.
Qed.

(** C8.  [lockColors] returns, having written the distance of every vertex
    to the origin into [aBakedHeight] and moved no vertex; whatever frames
    of [updateDisplacer] follow, the further attributes of the geometry,
    [aBakedHeight] among them, and the index are what they were: a frame
    writes the positions (and the normals derived from them) only.  The
    frames all return when [originalPositions] holds the three coordinates
    of every vertex. *)
Theorem lockColors_untouched_by_displacement (st : State) :
  exists locked,
    lockColors st = Some locked
    /\ attributes (planet locked) !! "aBakedHeight"
       = Some (Vec.length <$> position (planet st))
    /\ position (planet locked) = position (planet st)
    /\ originalPositions locked = originalPositions st
    /\ (forall fs st',
          frames normals fs locked = Some st' ->
          attributes (planet st') = attributes (planet locked)
          /\ attributes (planet st') !! "aBakedHeight"
             = Some (Vec.length <$> position (planet st))
          /\ index (planet st') = index (planet locked))
    /\ (length (originalPositions st) = (3 * count (planet st))%nat ->
        forall fs, is_Some (frames normals fs locked)).
Proof.
  eexists. split; [apply WaveFacts.lockColors_spec |].
  simpl. split; [apply lookup_insert_eq |]. split; [reflexivity |].
  split; [reflexivity |]. split.
  - intros fs st' Hfs.
    apply WaveFacts.frames_frame in Hfs as (Ha & Hi & _ & _).
    simpl in Ha, Hi. rewrite Ha.
    split; [reflexivity |]. split; [apply lookup_insert_eq | exact Hi].
  - intros Hl fs. apply WaveFacts.frames_total. exact Hl.
Qed.

(** C10.  The terrain bake of the wave pipeline returns; it moves every
    vertex along its direction by the summed noise, which lies in
    [-1.5, 1.5] for samples in [-1, 1], multiplied by 0.1 when it is
    negative: outwards by at most 1.5 and inwards by at most 0.15, and the
    distance to the origin changes within these bounds. *)
Theorem bakeTerrain_shallow_oceans (st : State) :
  Utilities.unitNoise noise3D ->
  exists st',
    bakeTerrain noise3D normals st = Some st'
    /\ forall (i : nat) (vertex : vec3),
        position (planet st) !! i = Some vertex ->
        let noise := rawNoise noise3D vertex in
        let h := if Rlt_dec noise 0 then noise * 0.1 else noise in
        let vertex' :=
          Vec.add vertex (Vec.multiplyScalar (Vec.normalize vertex) h) in
        position (planet st') !! i = Some vertex'
        /\ -1.5 <= noise <= 1.5
        /\ -0.15 <= h <= 1.5
        /\ Vec.length vertex - 0.15 <= Vec.length vertex'
           <= Vec.length vertex + 1.5.
Proof.
  intros Hn. eexists. split; [apply WaveFacts.bakeTerrain_spec |].
  intros i vertex Hi noise h vertex'. simpl.
  rewrite list_lookup_fmap, Hi. simpl.
  split; [reflexivity |].
  assert (Hnoise : -1.5 <= noise <= 1.5).
  { subst noise. unfold rawNoise.
    pose proof (Hn (Vec.x vertex * 0.1) (Vec.y vertex * 0.1)
                   (Vec.z vertex * 0.1)).
    pose proof (Hn (Vec.x vertex * 0.4) (Vec.y vertex * 0.4)
                   (Vec.z vertex * 0.4)).
    lra. }
  assert (Hh : -0.15 <= h <= 1.5).
  { subst h. destruct (Rlt_dec noise 0); lra. }
  split; [exact Hnoise |]. split; [exact Hh |].
  destruct (VecFacts.length_radial_bounds vertex h) as [H1 H2].
  fold vertex' in H1, H2.
  assert (Rabs h <= 1.5) by (unfold Rabs; destruct Rcase_abs; lra).
  assert (Rmax 0 (- h) <= 0.15) by (apply Rmax_lub; lra).
  revert H1. unfold Rabs at 1. destruct Rcase_abs; lra.
Qed.

End Pipeline.

Lemma updateDisplacer_wave_formula_witness :
  length (originalPositions (waveState [Vec.mk 20 0 0]))
  = (3 * count (planet (waveState [Vec.mk 20 0 0])))%nat
  /\ exists st',
      updateDisplacer noNormals 1 1 None (waveState [Vec.mk 20 0 0])
      = Some st'
      /\ position (planet st') !! 0%nat = Some (Vec.mk 20 0 0).
Proof.
  assert (Hl : length (originalPositions (waveState [Vec.mk 20 0 0]))
               = (3 * count (planet (waveState [Vec.mk 20 0 0])))%nat)
    by reflexivity.
  split; [exact Hl |].
  destruct (updateDisplacer_wave_formula noNormals 1 1 None
              (waveState [Vec.mk 20 0 0]) Hl) as (st' & Hst' & Hf).
  exists st'. split; [exact Hst' |].
  destruct (Hf 0%nat (Vec.mk 20 0 0)) as [_ Hfar].
  - unfold count. simpl. lia.
  - reflexivity.
  - apply Hfar. simpl. unfold Vec.distanceTo, Vec.sub, Vec.zero. simpl.
    replace (Vec.mk (20 - 0) (0 - 0) (0 - 0)) with (Vec.mk 20 0 0)
      by (f_equal; lra).
    rewrite SampleFacts.length_on_x; lra.
Defined.

Lemma bakeTerrain_shallow_oceans_witness :
  Utilities.unitNoise rampNoise
  /\ exists st',
      bakeTerrain rampNoise noNormals (waveState [Vec.mk 10 0 0]) = Some st'
      /\ exists vertex',
          position (planet st') !! 0%nat = Some vertex'
          /\ (10 - 0.15 <= Vec.length vertex' <= 10 + 1.5)%R.
Proof.
  split; [exact SampleFacts.rampNoise_unit |].
  destruct (bakeTerrain_shallow_oceans rampNoise noNormals
              (waveState [Vec.mk 10 0 0]) SampleFacts.rampNoise_unit)
    as (st' & Hst' & Hv).
  exists st'. split; [exact Hst' |].
  destruct (Hv 0%nat (Vec.mk 10 0 0) eq_refl) as (H1 & _ & _ & H2).
  eexists. split; [exact H1 |].
  rewrite SampleFacts.length_on_x in H2 by lra. exact H2.
Defined.

End WaveClaims.

(** ** Claims on reduceMeshComplexity *)

Module SimplifyClaims.

Import Utilities Samples.

Section Simplify.

Variable normals : list vec3 -> option (list nat) -> list vec3.
Variable mergeVertices : BufferGeometry -> BufferGeometry.
Variable modify : BufferGeometry -> Z -> Exception + BufferGeometry.

(** C6.  When [modifier.modify] throws on the geometry it is given (the
    geometry of the mesh, welded first when it has no index) and the number
    of vertices to remove, [reduceMeshComplexity] writes the error to the
    console and leaves the mesh, its geometry included, as it was. *)
Theorem reduceMeshComplexity_failure_keeps_geometry (mesh : Mesh)
    (reductionRatio : Q) (console : list ConsoleLine) (error : Exception) :
  let g := match index (geometry mesh) with
           | Some _ => geometry mesh
           | None => mergeVertices (geometry mesh)
           end in
  modify g (Qfloor (inject_Z (Z.of_nat (count g)) * reductionRatio)) = inl error ->
  reduceMeshComplexity normals mergeVertices modify mesh reductionRatio console
  = (mesh, console ++ [ErrorSimplificationFailed error])
  /\ geometry (fst (reduceMeshComplexity normals mergeVertices modify mesh
                      reductionRatio console))
     = geometry mesh.
Proof.
  intros g H. unfold reduceMeshComplexity. fold g. rewrite H. done.
Qed.

End Simplify.

Lemma reduceMeshComplexity_failure_keeps_geometry_witness :
  strictModify (noWeld (geometry (meshOf [Vec.mk 1 0 0])))
    (Qfloor (inject_Z (Z.of_nat (count (noWeld (geometry (meshOf [Vec.mk 1 0 0])))))
             * 1))
  = inl (Failure "nothing left")
  /\ reduceMeshComplexity noNormals noWeld strictModify
       (meshOf [Vec.mk 1 0 0]) 1 []
     = (meshOf [Vec.mk 1 0 0],
        [ErrorSimplificationFailed (Failure "nothing left")]).
Proof.
  assert (H : strictModify (noWeld (geometry (meshOf [Vec.mk 1 0 0])))
                (Qfloor (inject_Z (Z.of_nat
                   (count (noWeld (geometry (meshOf [Vec.mk 1 0 0])))))
                 * 1))
              = inl (Failure "nothing left")) by reflexivity.
  split; [exact H |].
  exact (proj1 (reduceMeshComplexity_failure_keeps_geometry noNormals noWeld
                  strictModify (meshOf [Vec.mk 1 0 0]) 1 []
                  (Failure "nothing left") H)).
Defined.

End SimplifyClaims.

(** ** Claims on loadAssets *)

Module AssetFacts.

Import Utilities.

Section Assets.

Context {Object3D Texture : Type}.

Variable gltfLoad : string -> Exception + Object3D.
Variable textureLoad : string -> Exception + Texture.
Variable shadowReady : Object3D -> Object3D.

Local Abbreviation loadOne := (loadOne gltfLoad textureLoad shadowReady).
Local Abbreviation settleAll :=
  (settleAll gltfLoad textureLoad shadowReady).

(** What a callback does to [loadedAssets], from what it does to the empty
    object: it fails alike, or adds its write. *)
Lemma loadOne_from_empty (name url : string)
    (loadedAssets : gmap string (Asset Object3D Texture)) :
  loadOne name url loadedAssets
  = match loadOne name url ∅ with
    | inl e => inl e
    | inr written => inr (written ∪ loadedAssets)
    end.
Proof.
  unfold Utilities.loadOne.
  destruct (endsWith url ".glb" || endsWith url ".gltf").
  - destruct (gltfLoad url); [done |].
    by rewrite insert_empty, <- insert_union_singleton_l.
  - destruct (endsWith url ".png" || endsWith url ".jpg").
    + destruct (textureLoad url); [done |].
      by rewrite insert_empty, <- insert_union_singleton_l.
    + by rewrite (left_id_L ∅ (∪)).
Qed.

(** A callback writes under its own name only. *)
Lemma loadOne_writes_own_name (name url : string)
    (written : gmap string (Asset Object3D Texture)) (k : string) :
  loadOne name url ∅ = inr written -> k <> name -> written !! k = None.
Proof.
  unfold Utilities.loadOne. intros H Hk.
  destruct (endsWith url ".glb" || endsWith url ".gltf").
  - destruct (gltfLoad url); [done |]. injection H as <-.
    by rewrite lookup_insert_ne.
  - destruct (endsWith url ".png" || endsWith url ".jpg").
    + destruct (textureLoad url); [done |]. injection H as <-.
      by rewrite lookup_insert_ne.
    + by injection H as <-.
Qed.

(** [Promise.all] rejects exactly when a callback does. *)
Lemma settleAll_rejects (entries : list (string * string))
    (loadedAssets : gmap string (Asset Object3D Texture)) :
  (exists e, snd (settleAll entries loadedAssets) = Some e)
  <-> exists name url e,
        (name, url) ∈ entries /\ loadOne name url ∅ = inl e.
Proof.
  revert loadedAssets.
  induction entries as [| [name url] rest IH]; intros loadedAssets; simpl.
  - split; [by intros [e ?] |]. intros (? & ? & ? & H & _).
    by apply elem_of_nil in H.
  - rewrite (loadOne_from_empty name url loadedAssets).
    destruct (loadOne name url ∅) as [e | written] eqn:H1.
    + destruct (settleAll rest loadedAssets) as [m o]. simpl.
      split; [| by eauto]. intros _. exists name, url, e.
      split; [apply list_elem_of_here | done].
    + rewrite IH. split.
      * intros (n & u & e & Hin & Hl). exists n, u, e.
        split; [by apply list_elem_of_further | done].
      * intros (n & u & e & Hin & Hl).
        apply elem_of_cons in Hin as [Heq | Hin].
        -- injection Heq as -> ->. congruence.
        -- eauto.
Qed.

(** The names no callback has are left as they were. *)
Lemma settleAll_other_names (entries : list (string * string))
    (loadedAssets : gmap string (Asset Object3D Texture)) (k : string) :
  k ∉ entries.*1 ->
  fst (settleAll entries loadedAssets) !! k = loadedAssets !! k.
Proof.
  revert loadedAssets.
  induction entries as [| [name url] rest IH]; intros loadedAssets Hk;
    simpl; [done |].
  simpl in Hk. apply not_elem_of_cons in Hk as [Hk1 Hk2].
  rewrite (loadOne_from_empty name url loadedAssets).
  destruct (loadOne name url ∅) as [e | written] eqn:H1.
  - specialize (IH loadedAssets Hk2).
    by destruct (settleAll rest loadedAssets).
  - rewrite IH by done. rewrite lookup_union.
    by rewrite (loadOne_writes_own_name name url written k H1 Hk1),
      (left_id_L None _).
Qed.

(** The fulfilled callbacks have all written. *)
Lemma settleAll_writes (entries : list (string * string))
    (loadedAssets written : gmap string (Asset Object3D Texture))
    (name url : string) :
  NoDup entries.*1 -> (name, url) ∈ entries ->
  loadOne name url ∅ = inr written ->
  written ⊆ fst (settleAll entries loadedAssets).
Proof.
  revert loadedAssets.
  induction entries as [| [n u] rest IH]; intros loadedAssets Hnd Hin Hw.
  - by apply elem_of_nil in Hin.
  - simpl in Hnd. apply NoDup_cons in Hnd as [Hn Hnd].
    simpl. rewrite (loadOne_from_empty n u loadedAssets).
    apply elem_of_cons in Hin as [Heq | Hin].
    + injection Heq as <- <-. rewrite Hw.
      apply map_subseteq_spec. intros k a Hk.
      destruct (decide (k = name)) as [-> | Hne].
      * rewrite settleAll_other_names by done.
        by apply lookup_union_Some_l.
      * by rewrite (loadOne_writes_own_name name url written k Hw Hne) in Hk.
    + destruct (loadOne n u ∅) as [e | w1] eqn:H1.
      * specialize (IH loadedAssets Hnd Hin Hw).
        by destruct (settleAll rest loadedAssets).
      * by apply IH.
Qed.

End Assets.

End AssetFacts.

Module AssetClaims.

Import Utilities Samples.

Section Assets.

Context {Object3D Texture : Type}.

Variable gltfLoad : string -> Exception + Object3D.
Variable textureLoad : string -> Exception + Texture.
Variable shadowReady : Object3D -> Object3D.

(** C5, as amended.  [loadAssets] is rejected exactly when the load of one
    of the requested assets is; no mapping is returned then, whatever the
    other loads did.  When it is fulfilled, its mapping holds what every
    callback wrote: every asset with a recognised extension. *)
Theorem loadAssets_all_or_nothing (assetsObj : list (string * string)) :
  ((exists e, loadAssets gltfLoad textureLoad shadowReady assetsObj = inl e)
   <-> exists name url e,
         (name, url) ∈ assetsObj
         /\ loadOne gltfLoad textureLoad shadowReady name url ∅ = inl e)
  /\ (forall loadedAssets,
        loadAssets gltfLoad textureLoad shadowReady assetsObj
        = inr loadedAssets ->
        NoDup assetsObj.*1 ->
        forall name url written,
          (name, url) ∈ assetsObj ->
          loadOne gltfLoad textureLoad shadowReady name url ∅ = inr written ->
          written ⊆ loadedAssets).
Proof.
  split.
  - rewrite <- (AssetFacts.settleAll_rejects gltfLoad textureLoad shadowReady
                  assetsObj ∅).
    unfold loadAssets. destruct (settleAll _ _ _ _ _) as [m [e |]]; simpl.
    + split; eauto.
    + split; by intros [e ?].
  - intros loadedAssets Hl Hnd name url written Hin Hw.
    pose proof (AssetFacts.settleAll_writes gltfLoad textureLoad shadowReady
                  assetsObj ∅ written name url Hnd Hin Hw) as H.
    unfold loadAssets in Hl.
    destruct (settleAll _ _ _ _ _) as [m [e |]]; [done |].
    by injection Hl as <-.
Qed.

End Assets.

(** C5, as stated, fails: when pine.glb cannot be loaded and tree.glb can,
    [loadAssets] is rejected and returns no mapping, so none that holds the
    tree. *)
Lemma loadAssets_one_failure_counterexample :
  pinelessLoad "tree.glb" = inr "tree.glb"
  /\ loadAssets pinelessLoad anyTexture (fun scene => scene)
       [("pine", "pine.glb"); ("tree", "tree.glb")]
     = inl (Failure "404")
  /\ ~ exists loadedAssets,
         loadAssets pinelessLoad anyTexture (fun scene => scene)
           [("pine", "pine.glb"); ("tree", "tree.glb")]
         = inr loadedAssets.
Proof.
  assert (H : loadAssets pinelessLoad anyTexture (fun scene => scene)
                [("pine", "pine.glb"); ("tree", "tree.glb")]
              = inl (Failure "404")) by reflexivity.
  split; [reflexivity |]. split; [exact H |].
  intros [m Hm]. rewrite H in Hm. discriminate.
Qed.

End AssetClaims.

(** ** cloner *)

Module ScatterFacts.

Import Utilities.

Section Scatter.

Context {Prefab : Type}.

Variable random : nat -> Q.
Variable matrixWorld : vec3 -> vec3.
Variable planetPosition : vec3.

Implicit Types (w : World Prefab) (usedIndices : gset nat).

(** *** The monad *)

Lemma bind_returns {A B : Type} (m : M Prefab A) (f : A -> M Prefab B)
    w (b : B) w' :
  (m ≫= f) w = Returns b w' ->
  exists a w1, m w = Returns a w1 /\ f a w1 = Returns b w'.
Proof.
  unfold mbind, M_bind. destruct (m w) as [a w1 | e w1 |]; [eauto | done..].
Qed.

Lemma bind_after_returns {A B : Type} (m : M Prefab A) (f : A -> M Prefab B)
    w (a : A) w1 :
  m w = Returns a w1 -> (m ≫= f) w = f a w1.
Proof. unfold mbind, M_bind. by intros ->. Qed.

Lemma bind_after_throws {A B : Type} (m : M Prefab A) (f : A -> M Prefab B)
    w (e : Exception) w1 :
  m w = Throws e w1 -> (m ≫= f) w = Throws e w1.
Proof. unfold mbind, M_bind. by intros ->. Qed.

Lemma bind_after_running {A B : Type} (m : M Prefab A) (f : A -> M Prefab B)
    w :
  m w = Running -> (m ≫= f) w = Running.
Proof. unfold mbind, M_bind. by intros ->. Qed.

(** *** The draws *)

Lemma randomIndex_run (n : nat) w :
  randomIndex random n w
  = Returns (drawnIndex random n (draws w))
            {| scene := scene w; draws := S (draws w) |}.
Proof. reflexivity. Qed.

(** A draw in [0, 1) gives an index below [n]. *)
Lemma drawnIndex_lt (n k : nat) :
  unitDraws random -> (0 < n)%nat -> (drawnIndex random n k < n)%nat.
Proof.
  intros Hu Hn. unfold drawnIndex. destruct (Hu k) as [H0 H1].
  set (t := inject_Z (Z.of_nat n)).
  assert (Ht : (0 < t)%Q).
  { unfold t. rewrite <- (Zlt_Qlt 0). lia. }
  assert (Hlo : (0 <= Qfloor (random k * t))%Z).
  { rewrite <- (Qfloor_Z 0). apply Qfloor_resp_le.
    apply Qmult_le_0_compat; [exact H0 | by apply Qlt_le_weak]. }
  assert (Hhi : (Qfloor (random k * t) < Z.of_nat n)%Z).
  { rewrite Zlt_Qlt. fold t.
    eapply Qle_lt_trans; [apply Qfloor_le |].
    rewrite <- (Qmult_1_l t) at 2. by apply Qmult_lt_compat_r. }
  lia.
Qed.

Lemma randomScale_run (size : Q) w :
  exists a w', randomScale random size w = Returns a w'
               /\ scene w' = scene w.
Proof. by do 2 eexists. Qed.

Lemma randomTurns_run w :
  exists a w', randomTurns random w = Returns a w' /\ scene w' = scene w.
Proof. by do 2 eexists. Qed.

Lemma randomOffsets_run (dispAmount : Q) w :
  exists a w', randomOffsets random dispAmount w = Returns a w'
               /\ scene w' = scene w.
Proof. by do 2 eexists. Qed.

Lemma optionally_run {A : Type} (flag : bool) (m : M Prefab A) :
  (forall w, exists a w', m w = Returns a w' /\ scene w' = scene w) ->
  forall w, exists a w', optionally flag m w = Returns a w'
                         /\ scene w' = scene w.
Proof.
  intros Hm w. destruct flag; simpl; [| by do 2 eexists].
  destruct (Hm w) as (a & w' & Ha & Hs).
  exists (Some a), w'. by rewrite (bind_after_returns _ _ _ _ _ Ha).
Qed.

(** [prefabs[...].clone ()] returns a prefab of the array or throws. *)
Lemma clonePrefab_run (prefabs : list Prefab) w :
  match prefabs !! drawnIndex random (length prefabs) (draws w) with
  | Some p =>
      clonePrefab random prefabs w
      = Returns p {| scene := scene w; draws := S (draws w) |}
  | None =>
      clonePrefab random prefabs w
      = Throws TypeError {| scene := scene w; draws := S (draws w) |}
  end.
Proof.
  unfold clonePrefab.
  rewrite (bind_after_returns _ _ _ _ _ (randomIndex_run _ w)).
  by destruct (prefabs !! _).
Qed.

(** *** The rejection loop *)

Lemma pickVertex_returns (fuel total : nat) usedIndices w (v : nat) w' :
  pickVertex random fuel total usedIndices w = Returns v w' ->
  (v ∉ usedIndices) /\ scene w' = scene w
  /\ exists n, v = drawnIndex random total n.
Proof.
  revert w. induction fuel as [| fuel IH]; intros w; simpl; [done |].
  rewrite (bind_after_returns _ _ _ _ _ (randomIndex_run _ w)).
  destruct (decide (_ ∈ usedIndices)) as [Hin | Hout].
  - intros H. by apply IH in H.
  - intros [= <- <-]. eauto.
Qed.

Lemma pickVertex_never_throws (fuel total : nat) usedIndices w
    (e : Exception) w' :
  pickVertex random fuel total usedIndices w <> Throws e w'.
Proof.
  revert w. induction fuel as [| fuel IH]; intros w; simpl; [done |].
  rewrite (bind_after_returns _ _ _ _ _ (randomIndex_run _ w)).
  destruct (decide (_ ∈ usedIndices)); [apply IH | done].
Qed.

(** The loop ends as soon as a draw brings an unused index, given fuel for
    the draws up to that one. *)
Lemma pickVertex_total (total : nat) usedIndices (m fuel : nat) w :
  (draws w <= m)%nat -> drawnIndex random total m ∉ usedIndices ->
  (m - draws w < fuel)%nat ->
  exists v w', pickVertex random fuel total usedIndices w = Returns v w'.
Proof.
  revert w. induction fuel as [| fuel IH]; intros w Hm Hfree Hfuel; [lia |].
  simpl. rewrite (bind_after_returns _ _ _ _ _ (randomIndex_run _ w)).
  destruct (decide (_ ∈ usedIndices)) as [Hin | Hout]; [| by do 2 eexists].
  assert (draws w <> m) by (intros Heq; apply Hfree; by rewrite <- Heq).
  apply IH; simpl; [lia | done | lia].
Qed.

Lemma pickVertex_more_fuel (total : nat) usedIndices (fuel fuel' : nat) w
    (v : nat) w' :
  pickVertex random fuel total usedIndices w = Returns v w' ->
  (fuel <= fuel')%nat ->
  pickVertex random fuel' total usedIndices w = Returns v w'.
Proof.
  revert fuel' w. induction fuel as [| fuel IH]; intros fuel' w; [done |].
  destruct fuel' as [| fuel']; [lia |]. simpl.
  rewrite !(bind_after_returns _ _ _ _ _ (randomIndex_run _ w)).
  destruct (decide (_ ∈ usedIndices)); [| by intros ? ?].
  intros H Hle. apply IH; [done | lia].
Qed.

(** *** One pass *)

(** After the rejection loop has returned, the pass throws if the prefab
    drawn is [undefined], and otherwise returns, one clone more in the
    scene. *)
Lemma placeOne_after_pick (fuel : nat) (positions : list vec3)
    (prefabs : list Prefab) (size : Q)
    (scaleRand rotationRand positionRand : bool) usedIndices w (v : nat) w1 :
  pickVertex random fuel (length positions) usedIndices w = Returns v w1 ->
  match prefabs !! drawnIndex random (length prefabs) (draws w1) with
  | Some _ =>
      exists clone w',
        placeOne random matrixWorld planetPosition fuel positions prefabs
          size scaleRand rotationRand positionRand usedIndices w
        = Returns (v, clone) w'
        /\ vertexIndex clone = v /\ scene w' = scene w1 ++ [clone]
  | None =>
      exists w',
        placeOne random matrixWorld planetPosition fuel positions prefabs
          size scaleRand rotationRand positionRand usedIndices w
        = Throws TypeError w'
        /\ scene w' = scene w1
  end.
Proof.
  intros Hpick. unfold placeOne. cbv zeta.
  rewrite (bind_after_returns _ _ _ _ _ Hpick).
  pose proof (clonePrefab_run prefabs w1) as Hclone.
  destruct (prefabs !! _) as [p |].
  - rewrite (bind_after_returns _ _ _ _ _ Hclone).
    destruct (optionally_run scaleRand _ (randomScale_run size)
                {| scene := scene w1; draws := S (draws w1) |})
      as (sc & w2 & H2 & S2).
    rewrite (bind_after_returns _ _ _ _ _ H2).
    destruct (optionally_run rotationRand _ randomTurns_run w2)
      as (rot & w3 & H3 & S3).
    rewrite (bind_after_returns _ _ _ _ _ H3).
    destruct (optionally_run positionRand _ (randomOffsets_run (1 # 2)) w3)
      as (off & w4 & H4 & S4).
    rewrite (bind_after_returns _ _ _ _ _ H4).
    do 2 eexists. split; [reflexivity |]. simpl.
    split; [reflexivity |]. by rewrite S4, S3, S2.
  - rewrite (bind_after_throws _ _ _ _ _ Hclone). by eexists.
Qed.

Lemma placeOne_returns (fuel : nat) (positions : list vec3)
    (prefabs : list Prefab) (size : Q)
    (scaleRand rotationRand positionRand : bool) usedIndices w (v : nat)
    (clone : Clone Prefab) w' :
  placeOne random matrixWorld planetPosition fuel positions prefabs size
    scaleRand rotationRand positionRand usedIndices w
  = Returns (v, clone) w' ->
  (v ∉ usedIndices) /\ vertexIndex clone = v
  /\ scene w' = scene w ++ [clone]
  /\ exists n, v = drawnIndex random (length positions) n.
Proof.
  intros H.
  destruct (pickVertex random fuel (length positions) usedIndices w)
    as [v1 w1 | e w1 |] eqn:Hpick.
  - pose proof (placeOne_after_pick fuel positions prefabs size scaleRand
                  rotationRand positionRand usedIndices w v1 w1 Hpick) as Ha.
    destruct (pickVertex_returns _ _ _ _ _ _ Hpick) as (Hv & Hs & Hn).
    destruct (prefabs !! _).
    + destruct Ha as (c1 & w1' & H1 & Hc & Hs1). rewrite H1 in H.
      injection H as -> -> ->. by rewrite <- Hs.
    + destruct Ha as (w1' & H1 & _). by rewrite H1 in H.
  - by apply pickVertex_never_throws in Hpick.
  - unfold placeOne in H. cbv zeta in H.
    by rewrite (bind_after_running _ _ _ Hpick) in H.
Qed.

Lemma placeOne_more_fuel (fuel fuel' : nat) (positions : list vec3)
    (prefabs : list Prefab) (size : Q)
    (scaleRand rotationRand positionRand : bool) usedIndices w
    (r : nat * Clone Prefab) w' :
  placeOne random matrixWorld planetPosition fuel positions prefabs size
    scaleRand rotationRand positionRand usedIndices w
  = Returns r w' ->
  (fuel <= fuel')%nat ->
  placeOne random matrixWorld planetPosition fuel' positions prefabs size
    scaleRand rotationRand positionRand usedIndices w
  = Returns r w'.
Proof.
  unfold placeOne. cbv zeta. intros H Hle.
  apply bind_returns in H as (v & w1 & Hpick & H).
  by rewrite (bind_after_returns _ _ _ _ _
                (pickVertex_more_fuel _ _ _ _ _ _ _ Hpick Hle)).
Qed.

(** *** The loop *)

(** Among [total] indices, fewer than [total] of them used, one is free. *)
Lemma free_index (total : nat) usedIndices :
  (size usedIndices < total)%nat ->
  exists j, (j < total)%nat /\ j ∉ usedIndices.
Proof.
  intros Hs.
  destruct (decide (Exists (fun j => j ∉ usedIndices) (seq 0 total)))
    as [He | Hn].
  - apply Exists_exists in He as (j & Hj & Hfree).
    apply elem_of_seq in Hj. exists j. split; [lia | done].
  - exfalso. apply not_Exists_Forall in Hn; [| apply _].
    assert (Hsub : list_to_set (seq 0 total) ⊆ usedIndices).
    { intros j Hj. apply elem_of_list_to_set in Hj.
      rewrite Forall_forall in Hn. specialize (Hn j Hj). simpl in Hn.
      by apply dec_stable. }
    apply subseteq_size in Hsub.
    rewrite size_list_to_set in Hsub by apply NoDup_seq.
    rewrite length_seq in Hsub. lia.
Qed.

(** What the loop returns: the clones it had, then one clone for each pass,
    each on a vertex of its own, all added to the scene in that order. *)
Lemma placeLoop_returns (fuel : nat) (positions : list vec3)
    (prefabs : list Prefab) (size : Q)
    (scaleRand rotationRand positionRand : bool) (k : nat) usedIndices
    (clones cs : list (Clone Prefab)) w w' :
  placeLoop random matrixWorld planetPosition fuel positions prefabs size
    scaleRand rotationRand positionRand k usedIndices clones w
  = Returns cs w' ->
  NoDup (vertexIndex <$> clones) ->
  (forall c, c ∈ clones -> vertexIndex c ∈ usedIndices) ->
  exists new,
    cs = clones ++ new /\ length new = k
    /\ NoDup (vertexIndex <$> cs)
    /\ scene w' = scene w ++ new
    /\ forall c, c ∈ new ->
         exists n, vertexIndex c = drawnIndex random (length positions) n.
Proof.
  revert usedIndices clones w.
  induction k as [| k IH]; intros usedIndices clones w H Hnd Hused.
  - injection H as <- <-. exists []. rewrite !app_nil_r.
    repeat split; [done |]. intros c Hc. by apply elem_of_nil in Hc.
  - simpl in H. apply bind_returns in H as ([v clone] & w1 & Hone & H).
    apply placeOne_returns in Hone as (Hv & Hc & Hs & Hn).
    apply IH in H as (new & -> & Hlen & Hnd' & Hs' & Hnew).
    + exists (clone :: new). rewrite <- app_assoc in Hnd'.
      rewrite <- app_assoc. simpl. repeat split; [by rewrite Hlen | done | |].
      * rewrite Hs', Hs, <- app_assoc. done.
      * intros c Hin. apply elem_of_cons in Hin as [-> | Hin]; [| by auto].
        rewrite Hc. done.
    + rewrite fmap_app. apply NoDup_app. split; [done |]. split.
      * intros i Hi Hi'. simpl in Hi'. apply list_elem_of_singleton in Hi'.
        apply list_elem_of_fmap in Hi as (c & -> & Hcin).
        apply Hused in Hcin. rewrite Hi', Hc in Hcin. done.
      * simpl. apply NoDup_singleton.
    + intros c Hin. apply elem_of_app in Hin as [Hin | Hin].
      * apply elem_of_union_r. by apply Hused.
      * apply list_elem_of_singleton in Hin as ->. rewrite Hc.
        apply elem_of_union_l. by apply elem_of_singleton.
Qed.

(** The loop returns, given enough fuel, as long as there are vertices left
    for its passes, the prefab array is not empty and the draws are fair. *)
Lemma placeLoop_total (positions : list vec3) (prefabs : list Prefab)
    (sz : Q) (scaleRand rotationRand positionRand : bool) :
  unitDraws random -> fairDraws random (length positions) ->
  prefabs <> [] ->
  forall (k : nat) usedIndices (clones : list (Clone Prefab)) w,
    (size usedIndices + k <= length positions)%nat ->
    exists fuel0, forall fuel, (fuel0 <= fuel)%nat ->
      exists cs w',
        placeLoop random matrixWorld planetPosition fuel positions prefabs
          sz scaleRand rotationRand positionRand k usedIndices clones w
        = Returns cs w'.
Proof.
  intros Hu Hf Hp. induction k as [| k IH]; intros usedIndices clones w Hk.
  - exists 0%nat. intros fuel _. by do 2 eexists.
  - destruct (free_index (length positions) usedIndices) as (j & Hj & Hfree);
      [lia |].
    destruct (Hf (draws w) j Hj) as (m & Hm & Hmj).
    destruct (pickVertex_total (length positions) usedIndices m
                (S (m - draws w)) w Hm) as (v & w1 & Hpick);
      [by rewrite Hmj | lia |].
    pose proof (placeOne_after_pick _ positions prefabs sz scaleRand
                  rotationRand positionRand _ _ _ _ Hpick) as Hone.
    destruct (lookup_lt_is_Some_2 prefabs
                (drawnIndex random (length prefabs) (draws w1))) as [p Hpre].
    { apply drawnIndex_lt; [done |]. destruct prefabs; [done | simpl; lia]. }
    rewrite Hpre in Hone. destruct Hone as (clone & w2 & Hone & Hc & Hs).
    destruct (pickVertex_returns _ _ _ _ _ _ Hpick) as (Hv & _ & _).
    destruct (IH ({[v]} ∪ usedIndices) (clones ++ [clone]) w2) as [fuel2 H2].
    { rewrite size_union by set_solver. rewrite size_singleton. lia. }
    exists (Nat.max (S (m - draws w)) fuel2). intros fuel Hfuel. simpl.
    rewrite (bind_after_returns _ _ _ _ _
               (placeOne_more_fuel _ fuel _ _ _ _ _ _ _ _ _ _ Hone
                  ltac:(lia))).
    apply H2. lia.
Qed.

End Scatter.

End ScatterFacts.

(** ** Claims on cloner *)

Module ScatterClaims.

Import Utilities Samples.

Section Scatter.

Context {Prefab : Type}.

Variable random : nat -> Q.
Variable matrixWorld : vec3 -> vec3.
Variable planetPosition : vec3.

(** C2.  On a mesh with a vertex, with a prefab array that is not empty and
    draws of [Math.random] that are in [0, 1) and fair, [cloner] returns
    (given fuel for its rejection loops); whenever it returns, it returns
    [min (count, totalVertices)] clones (none for a negative [count]), on
    vertex indices of the mesh that are pairwise distinct, and it has added
    exactly these clones to the scene. *)
Theorem cloner_count_and_distinct (planet : Mesh) (count : Z)
    (prefabs : list Prefab) (sz : Q)
    (scaleRand rotationRand positionRand : bool) (w : World Prefab) :
  let totalVertices := length (position (geometry planet)) in
  (0 < totalVertices)%nat -> prefabs <> [] ->
  unitDraws random -> fairDraws random totalVertices ->
  (exists fuel0, forall fuel, (fuel0 <= fuel)%nat ->
     exists clones w',
       cloner random matrixWorld planetPosition fuel planet count prefabs sz
         scaleRand rotationRand positionRand w
       = Returns clones w')
  /\ forall fuel clones w',
       cloner random matrixWorld planetPosition fuel planet count prefabs sz
         scaleRand rotationRand positionRand w
       = Returns clones w' ->
       length clones = Z.to_nat (Z.min count (Z.of_nat totalVertices))
       /\ ((0 <= count)%Z ->
           Z.of_nat (length clones) = Z.min count (Z.of_nat totalVertices))
       /\ NoDup (vertexIndex <$> clones)
       /\ (forall c, c ∈ clones -> (vertexIndex c < totalVertices)%nat)
       /\ scene w' = scene w ++ clones.
Proof.
  intros totalVertices Ht Hp Hu Hf. split.
  - unfold cloner.
    apply (ScatterFacts.placeLoop_total random matrixWorld planetPosition
             (position (geometry planet)) prefabs sz scaleRand rotationRand
             positionRand Hu Hf Hp).
    rewrite size_empty. fold totalVertices. lia.
  - intros fuel clones w' H. unfold cloner in H.
    apply ScatterFacts.placeLoop_returns in H
      as (new & -> & Hlen & Hnd & Hs & Hnew).
    + simpl. fold totalVertices in Hlen.
      split; [exact Hlen |]. split; [lia |]. split; [exact Hnd |].
      split; [| exact Hs].
      intros c Hc. destruct (Hnew c Hc) as [n ->].
      by apply ScatterFacts.drawnIndex_lt.
    + apply NoDup_nil_2.
    + intros c Hc. by apply elem_of_nil in Hc.
Qed.

(** C7.  With an empty prefab array, a positive [count] and a mesh with a
    vertex, [cloner] throws a [TypeError] in its first pass (once the
    rejection loop has made its draw) and returns no clone; the scene is as
    it was. *)
Theorem cloner_empty_prefabs_throws (fuel : nat) (planet : Mesh) (count : Z)
    (sz : Q) (scaleRand rotationRand positionRand : bool) (w : World Prefab) :
  (0 < count)%Z -> (0 < length (position (geometry planet)))%nat ->
  (0 < fuel)%nat ->
  exists w',
    cloner random matrixWorld planetPosition fuel planet count [] sz
      scaleRand rotationRand positionRand w
    = Throws TypeError w'
    /\ scene w' = scene w.
Proof.
  intros Hc Ht Hfuel. unfold cloner.
  destruct (Z.to_nat (Z.min count (Z.of_nat (length (position (geometry planet))))))
    as [| k] eqn:Hk; [lia |].
  simpl.
  destruct (ScatterFacts.pickVertex_total random
              (length (position (geometry planet))) ∅ (draws w) fuel w)
    as (v & w1 & Hpick); [lia | set_solver | lia |].
  pose proof (ScatterFacts.placeOne_after_pick random matrixWorld
                planetPosition fuel (position (geometry planet)) [] sz
                scaleRand rotationRand positionRand ∅ w v w1 Hpick) as Hone.
  rewrite lookup_nil in Hone. destruct Hone as (w' & Hone & Hs).
  exists w'. rewrite (ScatterFacts.bind_after_throws _ _ _ _ _ Hone).
  split; [reflexivity |].
  apply ScatterFacts.pickVertex_returns in Hpick as (_ & Hs1 & _).
  by rewrite Hs, Hs1.
Qed.

(** C9.  With a [count] of zero or less [cloner] returns the empty list at
    once: no clone, no draw, nothing added to the scene, no exception. *)
Theorem cloner_nonpositive_count_places_nothing (fuel : nat) (planet : Mesh)
    (count : Z) (prefabs : list Prefab) (sz : Q)
    (scaleRand rotationRand positionRand : bool) (w : World Prefab) :
  (count <= 0)%Z ->
  cloner random matrixWorld planetPosition fuel planet count prefabs sz
    scaleRand rotationRand positionRand w
  = Returns [] w.
Proof.
  intros Hc. unfold cloner.
  replace (Z.to_nat (Z.min count
             (Z.of_nat (length (position (geometry planet)))))) with 0%nat
    by lia.
  reflexivity.
Qed.

End Scatter.

(** The alternating draws are in [0, 1) and bring both indices of a mesh of
    two vertices again and again. *)
Lemma alternatingDraws_unit : unitDraws alternatingDraws.
Proof.
  intros n. unfold alternatingDraws. destruct (Nat.even n); split; done.
Qed.

Lemma alternatingDraws_index (n : nat) :
  drawnIndex alternatingDraws 2 n = if Nat.even n then 0%nat else 1%nat.
Proof.
  unfold drawnIndex, alternatingDraws. by destruct (Nat.even n).
Qed.

Lemma alternatingDraws_fair : fairDraws alternatingDraws 2.
Proof.
  intros n k Hk.
  destruct (Nat.even n) eqn:En; destruct k as [| [| k]]; try lia.
  - exists n. by rewrite alternatingDraws_index, En.
  - exists (S n). rewrite alternatingDraws_index, Nat.even_succ,
      <- Nat.negb_even, En. split; [lia | done].
  - exists (S n). rewrite alternatingDraws_index, Nat.even_succ,
      <- Nat.negb_even, En. split; [lia | done].
  - exists n. by rewrite alternatingDraws_index, En.
Qed.

Lemma cloner_count_and_distinct_witness :
  (0 < length (position (geometry (meshOf [Vec.mk 1 0 0; Vec.mk 0 1 0]))))%nat
  /\ ["pine"] <> []
  /\ unitDraws alternatingDraws
  /\ fairDraws alternatingDraws
       (length (position (geometry (meshOf [Vec.mk 1 0 0; Vec.mk 0 1 0]))))
  /\ exists fuel clones w',
      cloner alternatingDraws unmoved Vec.zero fuel
        (meshOf [Vec.mk 1 0 0; Vec.mk 0 1 0]) 5 ["pine"] 1 true true true
        emptyWorld
      = Returns clones w'
      /\ length clones = 2%nat
      /\ NoDup (vertexIndex <$> clones)
      /\ scene w' = clones.
Proof.
  assert (H1 : (0 < length (position (geometry
                  (meshOf [Vec.mk 1 0 0; Vec.mk 0 1 0]))))%nat)
    by (simpl; lia).
  assert (H2 : ["pine"] <> []) by done.
  split; [exact H1 |]. split; [exact H2 |].
  split; [exact alternatingDraws_unit |].
  split; [exact alternatingDraws_fair |].
  destruct (cloner_count_and_distinct alternatingDraws unmoved Vec.zero
              (meshOf [Vec.mk 1 0 0; Vec.mk 0 1 0]) 5 ["pine"] 1 true true
              true emptyWorld H1 H2 alternatingDraws_unit
              alternatingDraws_fair) as [[fuel0 Hret] Hany].
  destruct (Hret fuel0 (le_n fuel0)) as (clones & w' & Hr).
  destruct (Hany fuel0 clones w' Hr) as (Hlen & _ & Hnd & _ & Hs).
  exists fuel0, clones, w'. repeat split; done.
Defined.

Lemma cloner_empty_prefabs_throws_witness :
  (0 < 3)%Z
  /\ (0 < length (position (geometry (meshOf [Vec.mk 1 0 0]))))%nat
  /\ (0 < 1)%nat
  /\ exists w',
      cloner alternatingDraws unmoved Vec.zero 1 (meshOf [Vec.mk 1 0 0]) 3
        [] 1 true true true emptyWorld
      = Throws TypeError w'
      /\ scene w' = [].
Proof.
  assert (H1 : (0 < 3)%Z) by lia.
  assert (H2 : (0 < length (position (geometry (meshOf [Vec.mk 1 0 0]))))%nat)
    by (simpl; lia).
  assert (H3 : (0 < 1)%nat) by lia.
  split; [exact H1 |]. split; [exact H2 |]. split; [exact H3 |].
  exact (cloner_empty_prefabs_throws (Prefab := string) alternatingDraws
           unmoved Vec.zero 1 (meshOf [Vec.mk 1 0 0]) 3 1 true true true
           emptyWorld H1 H2 H3).
Defined.

Lemma cloner_nonpositive_count_places_nothing_witness :
  (-1 <= 0)%Z
  /\ cloner alternatingDraws unmoved Vec.zero 0 (meshOf [Vec.mk 1 0 0]) (-1)
       ["pine"] 1 true true true emptyWorld
     = Returns [] emptyWorld.
Proof.
  assert (H : (-1 <= 0)%Z) by lia.
  split; [exact H |].
  exact (cloner_nonpositive_count_places_nothing alternatingDraws unmoved
           Vec.zero 0 (meshOf [Vec.mk 1 0 0]) (-1) ["pine"] 1 true true true
           emptyWorld H).
Defined.

End ScatterClaims.

(** ** More on the wave displacer *)

Module WaveExtras.

Import Wave Samples.

Section Pipeline.

Local Open Scope R_scope.

Variable noise3D : R -> R -> R -> R.
Variable normals : list vec3 -> option (list nat) -> list vec3.

(** The falloff is a factor between 0 and 1. *)
Lemma falloffAt_unit (dist : R) : 0 <= dist -> 0 <= falloffAt dist <= 1.
Proof.
  intros Hd. unfold falloffAt, falloffRadius.
  assert (H : 0 <= Rmax 0 (1 - dist / 15) <= 1).
  { split; [apply Rmax_l |]. apply Rmax_lub; lra. }
  simpl. nra.
Qed.

(** The wave is within the displacement strength. *)
Lemma waveAt_bound (time audioVolume dist : R) :
  0 <= dist -> Rabs (waveAt time audioVolume dist) <= Rabs audioVolume.
Proof.
  intros Hd. unfold waveAt. rewrite !Rabs_mult.
  pose proof (falloffAt_unit dist Hd) as Hf.
  rewrite (Rabs_pos_eq (falloffAt dist)) by lra.
  assert (Hs : Rabs (sin (dist * frequency - time * 5)) <= 1).
  { apply Rabs_le. pose proof (SIN_bound (dist * frequency - time * 5)). lra. }
  pose proof (Rabs_pos audioVolume) as Ha.
  pose proof (Rabs_pos (sin (dist * frequency - time * 5))) as Hs0.
  set (s := Rabs (sin (dist * frequency - time * 5))) in *.
  set (a := Rabs audioVolume) in *. set (f := falloffAt dist) in *.
  assert (H1 : s * a <= a) by nra.
  assert (H2 : 0 <= s * a) by nra.
  assert (H3 : s * a * f <= s * a) by nra.
  lra.
Qed.

Lemma distanceTo_nonneg (a b : vec3) : 0 <= Vec.distanceTo a b.
Proof. apply VecFacts.length_nonneg. Qed.

(** With a null strength the body of the loop puts the vertex back. *)
Lemma displace_silent (time : R) (impact vertex : vec3) :
  displace time 0 impact vertex = vertex.
Proof.
  unfold displace, waveAt. destruct vertex as [x y z].
  unfold Vec.add, Vec.multiplyScalar. simpl. f_equal; ring.
Qed.

(** X1.  The positions a frame writes are computed from
    [originalPositions], the impact point, the time and the strength alone:
    two states that agree on these (and on the number of vertices) get the
    same positions, whatever positions they had before. *)
Theorem updateDisplacer_from_baseline (time audioVolume : R)
    (pick : option vec3) (st1 st2 : State) :
  originalPositions st1 = originalPositions st2 ->
  count (planet st1) = count (planet st2) ->
  impactPoint (updateRaycast pick st1) = impactPoint (updateRaycast pick st2) ->
  (fun st => position (planet st))
    <$> updateDisplacer normals time audioVolume pick st1
  = (fun st => position (planet st))
      <$> updateDisplacer normals time audioVolume pick st2.
Proof.
  intros Ho Hc Hi. rewrite !WaveFacts.updateDisplacer_spec, Ho, Hc, Hi.
  by destruct (mapM _ _).
Qed.

(** X2.  A frame played a second time with the same arguments changes
    nothing: the displacement does not build up from frame to frame. *)
Theorem updateDisplacer_idempotent (time audioVolume : R)
    (pick : option vec3) (st st' : State) :
  updateDisplacer normals time audioVolume pick st = Some st' ->
  updateDisplacer normals time audioVolume pick st' = Some st'.
Proof.
  intros H. pose proof H as H0.
  rewrite WaveFacts.updateDisplacer_spec in H.
  destruct (mapM _ _) as [pos |] eqn:Hm; simpl in H; [| done].
  injection H as <-.
  rewrite WaveFacts.updateDisplacer_spec. simpl.
  assert (Hi : impactPoint
                 (updateRaycast pick
                    {| planet := computeVertexNormals normals
                                   (setPosition pos (planet st));
                       originalPositions := originalPositions st;
                       impactPoint := impactPoint (updateRaycast pick st) |})
               = impactPoint (updateRaycast pick st))
    by (by destruct pick).
  rewrite Hi.
  assert (Hc : count (computeVertexNormals normals
                        (setPosition pos (planet st)))
               = count (planet st)).
  { apply length_mapM in Hm. rewrite length_seq in Hm. unfold count. simpl.
    by rewrite <- Hm. }
  rewrite Hc, Hm. reflexivity.
Qed.

(** X3.  Right after the terrain bake, a frame of null strength returns and
    leaves every vertex where the bake put it, whatever the time and the
    impact point. *)
Theorem updateDisplacer_silent_after_bake (time : R) (pick : option vec3)
    (st baked : State) :
  bakeTerrain noise3D normals st = Some baked ->
  exists st',
    updateDisplacer normals time 0 pick baked = Some st'
    /\ position (planet st') = position (planet baked).
Proof.
  intros Hb. rewrite WaveFacts.bakeTerrain_spec in Hb. injection Hb as <-.
  rewrite WaveFacts.updateDisplacer_spec. simpl.
  set (p := bakeVertex noise3D <$> position (planet st)).
  assert (Hm : mapM (fun i => displace time 0
                       (impactPoint (updateRaycast pick
                          {| planet := computeVertexNormals normals
                                         (setPosition p (planet st));
                             originalPositions := Vec.toArray p;
                             impactPoint := impactPoint st |}))
                     <$> readVertex (Vec.toArray p) i)
                 (seq 0 (count (computeVertexNormals normals
                                  (setPosition p (planet st)))))
               = Some p).
  { apply mapM_Some_2. apply Forall2_same_length_lookup_2.
    - rewrite length_seq. reflexivity.
    - intros i j v Hj Hv. apply lookup_seq in Hj as [-> _]. simpl.
      rewrite WaveFacts.readVertex_toArray. simpl in Hv. rewrite Hv. simpl.
      by rewrite displace_silent. }
  rewrite Hm. simpl. eauto.
Qed.

(** X4.  A frame moves no vertex further from (or nearer to) the origin than
    the displacement strength: the distance of vertex [i] to the origin
    differs from that of its original position by at most [|audioVolume|]. *)
Theorem updateDisplacer_radius_within_strength (time audioVolume : R)
    (pick : option vec3) (st st' : State) (i : nat) (baseline : vec3) :
  updateDisplacer normals time audioVolume pick st = Some st' ->
  (i < count (planet st))%nat ->
  readVertex (originalPositions st) i = Some baseline ->
  exists vertex,
    position (planet st') !! i = Some vertex
    /\ Rabs (Vec.length vertex - Vec.length baseline) <= Rabs audioVolume.
Proof.
  intros H Hi Hb. rewrite WaveFacts.updateDisplacer_spec in H.
  destruct (mapM _ _) as [pos |] eqn:Hm; simpl in H; [| done].
  injection H as <-. simpl.
  assert (Hseq : seq 0 (count (planet st)) !! i = Some i)
    by (by apply lookup_seq_lt).
  destruct (LoopFacts.mapM_lookup _ _ _ _ _ Hm Hseq) as (v & Hv & Hf).
  rewrite Hb in Hf. simpl in Hf. injection Hf as <-.
  eexists. split; [exact Hv |]. unfold displace.
  destruct (VecFacts.length_radial_bounds baseline
              (waveAt time audioVolume
                 (Vec.distanceTo baseline
                    (impactPoint (updateRaycast pick st))))) as [H1 _].
  simpl in H1. eapply Rle_trans; [exact H1 |].
  apply waveAt_bound, distanceTo_nonneg.
Qed.

End Pipeline.

End WaveExtras.

(** ** More on the terrain bake *)

Module TerrainExtras.

Import Utilities Samples.

Section Bake.

Local Open Scope R_scope.

Variable noise3D : R -> R -> R -> R.
Variable normals : list vec3 -> option (list nat) -> list vec3.
Variable mergeVertices : BufferGeometry -> BufferGeometry.

Lemma setPosition_same (g : BufferGeometry) : setPosition (position g) g = g.
Proof. by destruct g. Qed.

Lemma mapM_Some_same {A : Type} (f : A -> option A) (l : list A) :
  (forall a, a ∈ l -> f a = Some a) -> mapM f l = Some l.
Proof.
  intros H. apply mapM_Some_2. induction l as [| a l IH]; constructor.
  - apply H, list_elem_of_here.
  - apply IH. intros b Hb. by apply H, list_elem_of_further.
Qed.

(** A null overall amplitude gives a null height. *)
Lemma finalHeight_flat (params : NoiseFieldParameters) (vertex : vec3) :
  0 <= persistence params -> (1 <= octaves params)%Z ->
  amplitude params = 0 ->
  finalHeight noise3D params vertex = Some 0.
Proof.
  intros Hp Ho Ha.
  destruct (TerrainFacts.finalHeight_real noise3D params vertex Hp Ho)
    as [h Hh].
  rewrite Hh. f_equal. unfold finalHeight in Hh.
  destruct (octaveLoop _ _ _ _ _ _ _ _) as [nv mx].
  destruct (Req_dec_T mx 0); [done |]. injection Hh as <-.
  rewrite Ha. ring.
Qed.

(** X5.  With a null overall amplitude (and at least one octave, the
    persistence not negative) the bake moves no vertex: it only recomputes
    the normals, welds and sets the flat shading. *)
Theorem bakeTerrain_null_amplitude (planet : Mesh)
    (params : NoiseFieldParameters) :
  0 <= persistence params -> (1 <= octaves params)%Z ->
  amplitude params = 0 ->
  bakeTerrain noise3D normals mergeVertices planet params
  = Some {| geometry :=
              mergeVertices (computeVertexNormals normals (geometry planet));
            flatShading := true |}.
Proof.
  intros Hp Ho Ha. rewrite TerrainFacts.bakeTerrain_positions.
  rewrite (mapM_Some_same _ (position (geometry planet))).
  - simpl. by rewrite setPosition_same.
  - intros v _. unfold bakeVertex. rewrite finalHeight_flat by done. simpl.
    f_equal. destruct v as [x y z].
    unfold Vec.add, Vec.multiplyScalar. simpl. f_equal; ring.
Qed.

(** Without an octave the height is 0 / 0. *)
Lemma finalHeight_no_octave (params : NoiseFieldParameters) (vertex : vec3) :
  (octaves params <= 0)%Z -> finalHeight noise3D params vertex = None.
Proof.
  intros Ho. unfold finalHeight.
  replace (Z.to_nat (octaves params)) with 0%nat by lia. simpl.
  by destruct (Req_dec_T 0 0).
Qed.

(** X6.  When [params.octaves] is zero or less, the octave loop makes no
    pass and the height of every vertex is 0 / 0: the bake of a mesh that
    has a vertex leaves the real numbers, and only the bake of a mesh
    without vertices returns (unchanged, normals and welding apart). *)
Theorem bakeTerrain_no_octave (planet : Mesh) (params : NoiseFieldParameters) :
  (octaves params <= 0)%Z ->
  bakeTerrain noise3D normals mergeVertices planet params
  = match position (geometry planet) with
    | [] => Some {| geometry :=
                      mergeVertices
                        (computeVertexNormals normals (geometry planet));
                    flatShading := true |}
    | _ :: _ => None
    end.
Proof.
  intros Ho. rewrite TerrainFacts.bakeTerrain_positions.
  destruct (position (geometry planet)) as [| v l] eqn:Hpos.
  - simpl. rewrite <- Hpos. by rewrite setPosition_same.
  - assert (Hv : bakeVertex noise3D params v = None)
      by (unfold bakeVertex; by rewrite finalHeight_no_octave).
    change (mapM (bakeVertex noise3D params) (v :: l))
      with (y ← bakeVertex noise3D params v;
            k ← mapM (bakeVertex noise3D params) l; mret (y :: k)).
    by rewrite Hv.
Qed.

(** X7.  The bake moves a vertex along the line through the origin and the
    vertex only: every vertex of the baked mesh is a vertex of the mesh as
    it was, multiplied by a number; a vertex at the origin stays there. *)
Theorem bakeTerrain_keeps_rays (planet planet' : Mesh)
    (params : NoiseFieldParameters) (v' : vec3) :
  weldKeepsVertices mergeVertices ->
  bakeTerrain noise3D normals mergeVertices planet params = Some planet' ->
  v' ∈ position (geometry planet') ->
  exists v s,
    v ∈ position (geometry planet)
    /\ v' = Vec.multiplyScalar v s
    /\ (v = Vec.zero -> v' = Vec.zero).
Proof.
  intros Hw Hb Hv'.
  destruct (TerrainFacts.bakeTerrain_vertex noise3D normals mergeVertices
              planet planet' params v' Hw Hb Hv') as (v & h & Hv & _ & ->).
  exists v. destruct (Req_dec_T (Vec.length v) 0) as [E | N].
  - apply VecFacts.length_null in E. subst v. exists 1.
    rewrite VecFacts.radial_null. split; [done |]. split; [| done].
    unfold Vec.multiplyScalar, Vec.zero. simpl. f_equal; ring.
  - exists (1 + h / Vec.length v).
    split; [done |]. split; [by apply VecFacts.radial_as_scaling |].
    intros ->. apply VecFacts.radial_null.
Qed.

End Bake.

End TerrainExtras.

(** ** More on reduceMeshComplexity and loadAssets *)

Module SimplifyExtras.

Import Utilities Samples.

Section Simplify.

Variable normals : list vec3 -> option (list nat) -> list vec3.
Variable mergeVertices : BufferGeometry -> BufferGeometry.

(** The number of vertices to remove, for a ratio between 0 and 1. *)
Lemma countToRemove_range (n : nat) (ratio : Q) :
  (0 <= ratio <= 1)%Q ->
  (0 <= Qfloor (inject_Z (Z.of_nat n) * ratio) <= Z.of_nat n)%Z.
Proof.
  intros [H0 H1].
  assert (Hn : (0 <= inject_Z (Z.of_nat n))%Q)
    by (rewrite <- (Zle_Qle 0); lia).
  split.
  - rewrite <- (Qfloor_Z 0). apply Qfloor_resp_le.
    by apply Qmult_le_0_compat.
  - rewrite <- (Qfloor_Z (Z.of_nat n)) at 2. apply Qfloor_resp_le.
    rewrite <- (Qmult_1_r (inject_Z (Z.of_nat n))) at 2.
    rewrite !(Qmult_comm (inject_Z (Z.of_nat n))).
    by apply Qmult_le_compat_r.
Qed.

(** X8.  For a reduction ratio between 0 and 1 the modifier is asked to
    remove a number of vertices between 0 and the number of vertices of the
    geometry it is given: what [reduceMeshComplexity] does depends on the
    modifier for such requests only. *)
Theorem reduceMeshComplexity_asks_within_count
    (modify1 modify2 : BufferGeometry -> Z -> Exception + BufferGeometry)
    (mesh : Mesh) (reductionRatio : Q) (console : list ConsoleLine) :
  (0 <= reductionRatio <= 1)%Q ->
  (forall g n, (0 <= n <= Z.of_nat (count g))%Z ->
               modify1 g n = modify2 g n) ->
  reduceMeshComplexity normals mergeVertices modify1 mesh reductionRatio
    console
  = reduceMeshComplexity normals mergeVertices modify2 mesh reductionRatio
      console.
Proof.
  intros Hr Hm. unfold reduceMeshComplexity.
  by rewrite Hm by (by apply countToRemove_range).
Qed.

End Simplify.

End SimplifyExtras.

Module AssetExtras.

Import Utilities Samples.

Section Assets.

Context {Object3D Texture : Type}.

Variable gltfLoad : string -> Exception + Object3D.
Variable textureLoad : string -> Exception + Texture.
Variable shadowReady : Object3D -> Object3D.

(** What an entry of the object of loaded assets can be: the model or the
    texture that the loader of its extension gave for a requested url. *)
Lemma settleAll_holds (entries : list (string * string))
    (loadedAssets : gmap string (Asset Object3D Texture)) (name : string)
    (asset : Asset Object3D Texture) :
  fst (settleAll gltfLoad textureLoad shadowReady entries loadedAssets)
    !! name = Some asset ->
  loadedAssets !! name = Some asset
  \/ exists url,
       (name, url) ∈ entries
       /\ ((endsWith url ".glb" || endsWith url ".gltf" = true
            /\ exists result,
                 gltfLoad url = inr result
                 /\ asset = Model (shadowReady result))
           \/ (endsWith url ".glb" || endsWith url ".gltf" = false
               /\ endsWith url ".png" || endsWith url ".jpg" = true
               /\ exists texture,
                    textureLoad url = inr texture /\ asset = Image texture)).
Proof.
  revert loadedAssets.
  induction entries as [| [n u] rest IH]; intros loadedAssets H; simpl in H;
    [by left |].
  assert (Hrest : forall m,
            fst (settleAll gltfLoad textureLoad shadowReady rest m) !! name
            = Some asset ->
            m !! name = Some asset
            \/ exists url,
                 (name, url) ∈ (n, u) :: rest
                 /\ ((endsWith url ".glb" || endsWith url ".gltf" = true
                      /\ exists result,
                           gltfLoad url = inr result
                           /\ asset = Model (shadowReady result))
                     \/ (endsWith url ".glb" || endsWith url ".gltf" = false
                         /\ endsWith url ".png" || endsWith url ".jpg" = true
                         /\ exists texture,
                              textureLoad url = inr texture
                              /\ asset = Image texture))).
  { intros m Hm. destruct (IH m Hm) as [? | (url & Hin & Hu)]; [by left |].
    right. exists url. split; [by apply list_elem_of_further | done]. }
  unfold loadOne in H.
  destruct (endsWith u ".glb" || endsWith u ".gltf") eqn:Eg.
  - destruct (gltfLoad u) as [e | result] eqn:El.
    + destruct (settleAll _ _ _ rest loadedAssets) as [m o] eqn:Es.
      apply Hrest. by rewrite Es.
    + destruct (Hrest _ H) as [Hm | ?]; [| by right].
      destruct (decide (n = name)) as [-> | Hne].
      * rewrite lookup_insert_eq in Hm. injection Hm as <-. right.
        exists u. split; [apply list_elem_of_here |]. left. eauto.
      * rewrite lookup_insert_ne in Hm by done. by left.
  - destruct (endsWith u ".png" || endsWith u ".jpg") eqn:Ep.
    + destruct (textureLoad u) as [e | texture] eqn:El.
      * destruct (settleAll _ _ _ rest loadedAssets) as [m o] eqn:Es.
        apply Hrest. by rewrite Es.
      * destruct (Hrest _ H) as [Hm | ?]; [| by right].
        destruct (decide (n = name)) as [-> | Hne].
        -- rewrite lookup_insert_eq in Hm. injection Hm as <-. right.
           exists u. split; [apply list_elem_of_here |]. right. eauto.
        -- rewrite lookup_insert_ne in Hm by done. by left.
    + by apply Hrest.
Qed.

(** X9.  Whatever [loadAssets] resolves with holds nothing but loaded
    assets under requested names: an entry under [name] is the model (made
    shadow-ready) that the model loader returned for a url requested under
    that name and ending in .glb or .gltf, or the texture that the texture
    loader returned for one ending in .png or .jpg. *)
Theorem loadAssets_holds_loaded (assetsObj : list (string * string))
    (loadedAssets : gmap string (Asset Object3D Texture)) (name : string)
    (asset : Asset Object3D Texture) :
  loadAssets gltfLoad textureLoad shadowReady assetsObj = inr loadedAssets ->
  loadedAssets !! name = Some asset ->
  exists url,
    (name, url) ∈ assetsObj
    /\ ((endsWith url ".glb" || endsWith url ".gltf" = true
         /\ exists result,
              gltfLoad url = inr result /\ asset = Model (shadowReady result))
        \/ (endsWith url ".glb" || endsWith url ".gltf" = false
            /\ endsWith url ".png" || endsWith url ".jpg" = true
            /\ exists texture,
                 textureLoad url = inr texture /\ asset = Image texture)).
Proof.
  intros Hl Hn. unfold loadAssets in Hl.
  pose proof (settleAll_holds assetsObj ∅ name asset) as H.
  destruct (settleAll _ _ _ _ _) as [m [e |]]; [done |].
  injection Hl as <-. simpl in H.
  destruct (H Hn) as [He | ?]; [| done]. by rewrite lookup_empty in He.
Qed.

(** X10.  Entries whose url has none of the four extensions are passed
    over: when no requested url ends in .glb, .gltf, .png or .jpg,
    [loadAssets] resolves with the empty object, whatever the loaders
    would do. *)
Theorem loadAssets_unrecognised (assetsObj : list (string * string)) :
  Forall (fun entry =>
            endsWith entry.2 ".glb" || endsWith entry.2 ".gltf" = false
            /\ endsWith entry.2 ".png" || endsWith entry.2 ".jpg" = false)
         assetsObj ->
  loadAssets gltfLoad textureLoad shadowReady assetsObj = inr ∅.
Proof.
  intros H. unfold loadAssets.
  assert (Hs : forall m,
            settleAll gltfLoad textureLoad shadowReady assetsObj m
            = (m, None)).
  { induction H as [| [n u] rest [Hg Hp] _ IH]; intros m; simpl; [done |].
    simpl in Hg, Hp. unfold loadOne. rewrite Hg, Hp. apply IH. }
  by rewrite Hs.
Qed.

End Assets.

End AssetExtras.

(** ** More on cloner *)

Module ScatterExtras.

Import Utilities Samples.

Section Scatter.

Context {Prefab : Type}.

Variable random : nat -> Q.
Variable matrixWorld : vec3 -> vec3.
Variable planetPosition : vec3.

Implicit Types (w : World Prefab) (usedIndices : gset nat).

Lemma optionally_returns {A : Type} (flag : bool) (m : M Prefab A) w
    (o : option A) w' :
  optionally flag m w = Returns o w' ->
  (flag = false /\ o = None)
  \/ (flag = true /\ exists a w0, m w0 = Returns a w' /\ o = Some a).
Proof.
  destruct flag; simpl.
  - intros H. apply ScatterFacts.bind_returns in H as (a & w1 & Hm & H).
    injection H as <- <-. right. eauto.
  - intros [= <- <-]. by left.
Qed.

Lemma randomScale_returns (sz s : Q) w w' :
  randomScale random sz w = Returns s w' ->
  exists n,
    s = (random n * ((2 # 1000) * sz - (1 # 1000) * sz) + (1 # 1000) * sz)%Q.
Proof. intros [= <- <-]. eauto. Qed.

Lemma randomTurns_returns (t : Q * Q * Q) w w' :
  randomTurns random w = Returns t w' ->
  exists n1 n2 n3, t = (random n1, random n2, random n3).
Proof. intros [= <- <-]. eauto. Qed.

Lemma randomOffsets_returns (dispAmount : Q) (t : Q * Q * Q) w w' :
  randomOffsets random dispAmount w = Returns t w' ->
  exists n1 n2 n3,
    t = ((random n1 - (1 # 2)) * dispAmount,
         (random n2 - (1 # 2)) * dispAmount,
         (random n3 - (1 # 2)) * dispAmount)%Q.
Proof. intros [= <- <-]. eauto. Qed.

(** What one pass puts in the clone it returns. *)
Lemma placeOne_fields (fuel : nat) (positions : list vec3)
    (prefabs : list Prefab) (sz : Q)
    (scaleRand rotationRand positionRand : bool) usedIndices w (v : nat)
    (clone : Clone Prefab) w' :
  placeOne random matrixWorld planetPosition fuel positions prefabs sz
    scaleRand rotationRand positionRand usedIndices w
  = Returns (v, clone) w' ->
  prefab clone ∈ prefabs
  /\ anchor clone = matrixWorld <$> positions !! vertexIndex clone
  /\ up clone
     = (fun p => Vec.normalize (Vec.sub p planetPosition)) <$> anchor clone
  /\ match scaleScalar clone with
     | Some s =>
         scaleRand = true
         /\ exists n,
              s = (random n * ((2 # 1000) * sz - (1 # 1000) * sz)
                   + (1 # 1000) * sz)%Q
     | None => scaleRand = false
     end
  /\ match turns clone with
     | Some t =>
         rotationRand = true
         /\ exists n1 n2 n3, t = (random n1, random n2, random n3)
     | None => rotationRand = false
     end
  /\ match offsets clone with
     | Some t =>
         positionRand = true
         /\ exists n1 n2 n3,
              t = ((random n1 - (1 # 2)) * (1 # 2),
                   (random n2 - (1 # 2)) * (1 # 2),
                   (random n3 - (1 # 2)) * (1 # 2))%Q
     | None => positionRand = false
     end.
Proof.
  unfold placeOne. cbv zeta. intros H.
  apply ScatterFacts.bind_returns in H as (vIndex & w1 & Hpick & H).
  apply ScatterFacts.bind_returns in H as (p & w2 & Hclone & H).
  apply ScatterFacts.bind_returns in H as (sc & w3 & Hsc & H).
  apply ScatterFacts.bind_returns in H as (rot & w4 & Hrot & H).
  apply ScatterFacts.bind_returns in H as (off & w5 & Hoff & H).
  apply ScatterFacts.bind_returns in H as ([] & w6 & _ & H).
  injection H as <- <- <-. simpl.
  split.
  { pose proof (ScatterFacts.clonePrefab_run random prefabs w1) as Hrun.
    destruct (prefabs !! _) as [p' |] eqn:Hp; rewrite Hrun in Hclone;
      [| done].
    injection Hclone as <- _. by eapply list_elem_of_lookup_2. }
  split; [done |]. split; [done |].
  split.
  { apply optionally_returns in Hsc as [[-> ->] | (-> & s & w0 & Hs & ->)];
      [done |].
    split; [done |]. by eapply randomScale_returns. }
  split.
  { apply optionally_returns in Hrot as [[-> ->] | (-> & t & w0 & Ht & ->)];
      [done |].
    split; [done |]. by eapply randomTurns_returns. }
  apply optionally_returns in Hoff as [[-> ->] | (-> & t & w0 & Ht & ->)];
    [done |].
  split; [done |]. by eapply randomOffsets_returns.
Qed.

(** What holds of the clone of every pass holds of every clone the loop
    adds. *)
Lemma placeLoop_returns_all (P : Clone Prefab -> Prop) (fuel : nat)
    (positions : list vec3) (prefabs : list Prefab) (sz : Q)
    (scaleRand rotationRand positionRand : bool) :
  (forall usedIndices w v clone w',
      placeOne random matrixWorld planetPosition fuel positions prefabs sz
        scaleRand rotationRand positionRand usedIndices w
      = Returns (v, clone) w' -> P clone) ->
  forall (k : nat) usedIndices (clones cs : list (Clone Prefab)) w w',
    placeLoop random matrixWorld planetPosition fuel positions prefabs sz
      scaleRand rotationRand positionRand k usedIndices clones w
    = Returns cs w' ->
    Forall P clones -> Forall P cs.
Proof.
  intros HP. induction k as [| k IH]; intros usedIndices clones cs w w' H Hc.
  - by injection H as <- <-.
  - simpl in H.
    apply ScatterFacts.bind_returns in H as ([v clone] & w1 & Hone & H).
    apply IH in H; [done |]. apply Forall_app. split; [done |].
    apply Forall_singleton. by eapply HP.
Qed.

(** One pass does not throw when the prefab array has a prefab. *)
Lemma placeOne_never_throws (fuel : nat) (positions : list vec3)
    (prefabs : list Prefab) (sz : Q)
    (scaleRand rotationRand positionRand : bool) usedIndices w
    (e : Exception) w' :
  unitDraws random -> prefabs <> [] ->
  placeOne random matrixWorld planetPosition fuel positions prefabs sz
    scaleRand rotationRand positionRand usedIndices w
  <> Throws e w'.
Proof.
  intros Hu Hp H.
  destruct (pickVertex random fuel (length positions) usedIndices w)
    as [v1 w1 | e1 w1 |] eqn:Hpick.
  - pose proof (ScatterFacts.placeOne_after_pick random matrixWorld
                  planetPosition fuel positions prefabs sz scaleRand
                  rotationRand positionRand usedIndices w v1 w1 Hpick) as Ha.
    destruct (lookup_lt_is_Some_2 prefabs
                (drawnIndex random (length prefabs) (draws w1))) as [p Hpre].
    { apply ScatterFacts.drawnIndex_lt; [done |].
      destruct prefabs; [done | simpl; lia]. }
    rewrite Hpre in Ha. destruct Ha as (c & w2 & Hone & _).
    by rewrite Hone in H.
  - by apply ScatterFacts.pickVertex_never_throws in Hpick.
  - unfold placeOne in H. cbv zeta in H.
    by rewrite (ScatterFacts.bind_after_running _ _ _ Hpick) in H.
Qed.

(** X11.  With a prefab array that is not empty and draws in [0, 1),
    [cloner] never throws, whatever the mesh, the count and the flags. *)
Theorem cloner_never_throws (fuel : nat) (planet : Mesh) (count : Z)
    (prefabs : list Prefab) (sz : Q)
    (scaleRand rotationRand positionRand : bool) w (e : Exception) w' :
  unitDraws random -> prefabs <> [] ->
  cloner random matrixWorld planetPosition fuel planet count prefabs sz
    scaleRand rotationRand positionRand w
  <> Throws e w'.
Proof.
  intros Hu Hp. unfold cloner.
  generalize (∅ : gset nat) ([] : list (Clone Prefab)).
  generalize (Z.to_nat (Z.min count
                (Z.of_nat (length (position (geometry planet)))))).
  intros k. revert w.
  induction k as [| k IH]; intros w usedIndices clones; simpl; [done |].
  unfold mbind, M_bind.
  destruct (placeOne _ _ _ _ _ _ _ _ _ _ _ w) as [[v c] w1 | e1 w1 |] eqn:H1.
  - apply IH.
  - by apply placeOne_never_throws in H1.
  - done.
Qed.


(** X13.  The random scale, turns and offsets of the clones: each is there
    exactly when its flag is set; for a size that is not negative the scale
    lies between 0.001 and 0.002 times the size, every turn is in [0, 1)
    (of a full turn) and every offset in [-0.25, 0.25). *)
Theorem cloner_jitter_ranges (fuel : nat) (planet : Mesh) (count : Z)
    (prefabs : list Prefab) (sz : Q)
    (scaleRand rotationRand positionRand : bool) w
    (clones : list (Clone Prefab)) w' :
  unitDraws random -> (0 <= sz)%Q ->
  cloner random matrixWorld planetPosition fuel planet count prefabs sz
    scaleRand rotationRand positionRand w
  = Returns clones w' ->
  forall clone, clone ∈ clones ->
    match scaleScalar clone with
    | Some s => scaleRand = true
                /\ ((1 # 1000) * sz <= s <= (2 # 1000) * sz)%Q
    | None => scaleRand = false
    end
    /\ match turns clone with
       | Some (tx, ty, tz) =>
           rotationRand = true
           /\ (0 <= tx < 1)%Q /\ (0 <= ty < 1)%Q /\ (0 <= tz < 1)%Q
       | None => rotationRand = false
       end
    /\ match offsets clone with
       | Some (ox, oy, oz) =>
           positionRand = true
           /\ (- (1 # 4) <= ox < 1 # 4)%Q /\ (- (1 # 4) <= oy < 1 # 4)%Q
           /\ (- (1 # 4) <= oz < 1 # 4)%Q
       | None => positionRand = false
       end.
Proof.
  intros Hu Hsz H. unfold cloner in H. apply Forall_forall.
  eapply placeLoop_returns_all; [| exact H | apply Forall_nil_2].
  - intros u0 w0 v c w0' Hone. simpl.
    apply placeOne_fields in Hone as (_ & _ & _ & Hs & Ht & Ho).
    split; [| split].
    + destruct (scaleScalar c) as [s |]; [| done].
      destruct Hs as (-> & n & ->). split; [done |].
      destruct (Hu n) as [H0 H1].
      assert (0 <= random n * sz)%Q by (by apply Qmult_le_0_compat).
      assert (random n * sz <= sz)%Q.
      { rewrite <- (Qmult_1_l sz) at 2. apply Qmult_le_compat_r; [| done].
        by apply Qlt_le_weak. }
      split; Lqa.lra.
    + destruct (turns c) as [[[tx ty] tz] |]; [| done].
      destruct Ht as (-> & n1 & n2 & n3 & [= -> -> ->]).
      split; [done |]. repeat split; apply Hu.
    + destruct (offsets c) as [[[ox oy] oz] |]; [| done].
      destruct Ho as (-> & n1 & n2 & n3 & [= -> -> ->]).
      split; [done |].
      destruct (Hu n1), (Hu n2), (Hu n3). repeat split; Lqa.lra.
Qed.

End Scatter.

End ScatterExtras.

(** ** The water animation and the gradient materials (main.js) *)

Module OceanExtras.

Import Utilities Samples Ocean.

Section Water.

Local Open Scope R_scope.

Variable noise3D : R -> R -> R -> R.
Variable normals : list vec3 -> option (list nat) -> list vec3.
Variable mergeVertices : BufferGeometry -> BufferGeometry.

Lemma wave_bound (time : R) (vertex : vec3) :
  Rabs (wave time vertex) <= 0.015.
Proof.
  unfold wave. apply Rabs_le.
  pose proof (SIN_bound (time * 2.0 + Vec.x vertex * 1.5 + Vec.y vertex * 1.5)).
  lra.
Qed.

(** The vertex loop of [animateWater]. *)
Lemma animateWater_spec (oceanMesh : Mesh) (time : R) (original : list R) :
  userData_originalPositions (geometry oceanMesh) = Some original ->
  animateWater normals oceanMesh time
  = inr (pos ← mapM (fun i => waterVertex time <$> Wave.readVertex original i)
                 (seq 0 (count (geometry oceanMesh)));
         Some {| geometry := computeVertexNormals normals
                               (setPosition pos (geometry oceanMesh));
                 flatShading := flatShading oceanMesh |}).
Proof.
  intros Ho. unfold animateWater. rewrite Ho. f_equal. f_equal.
  unfold count. rewrite <- LoopFacts.forLoop_write. unfold forLoop.
  apply LoopFacts.forFrom_ext. intros i q.
  by destruct (Wave.readVertex original i).
Qed.

(** X14.  When [originalPositions] holds the three coordinates of every
    vertex, a frame of the water animation returns and puts every vertex on
    the line through the origin and its original position, at a distance to
    the origin that differs from the original one by at most 0.015. *)
Theorem animateWater_ripple (oceanMesh : Mesh) (time : R) (original : list R) :
  userData_originalPositions (geometry oceanMesh) = Some original ->
  length original = (3 * count (geometry oceanMesh))%nat ->
  exists oceanMesh',
    animateWater normals oceanMesh time = inr (Some oceanMesh')
    /\ forall (i : nat) (vertex : vec3),
        Wave.readVertex original i = Some vertex ->
        (i < count (geometry oceanMesh))%nat ->
        exists vertex',
          position (geometry oceanMesh') !! i = Some vertex'
          /\ vertex'
             = Vec.add vertex
                 (Vec.multiplyScalar (Vec.normalize vertex)
                    (sin (time * 2.0 + Vec.x vertex * 1.5
                          + Vec.y vertex * 1.5) * 0.015))
          /\ Rabs (Vec.length vertex' - Vec.length vertex) <= 0.015.
Proof.
  intros Ho Hl. rewrite (animateWater_spec _ _ _ Ho).
  destruct (mapM _ _) as [pos |] eqn:Hm; simpl.
  - eexists. split; [reflexivity |]. intros i vertex Hv Hi. simpl.
    assert (Hseq : seq 0 (count (geometry oceanMesh)) !! i = Some i)
      by (by apply lookup_seq_lt).
    destruct (LoopFacts.mapM_lookup _ _ _ _ _ Hm Hseq) as (v' & Hv' & Hf).
    rewrite Hv in Hf. simpl in Hf. injection Hf as <-.
    eexists. split; [exact Hv' |]. split; [reflexivity |].
    destruct (VecFacts.length_radial_bounds vertex (wave time vertex))
      as [H1 _].
    simpl in H1. eapply Rle_trans; [exact H1 | apply wave_bound].
  - exfalso. apply mapM_None_1, Exists_exists in Hm as (i & Hi & Hn).
    apply elem_of_seq in Hi.
    destruct (WaveFacts.readVertex_is_Some original i) as [v Hv]; [lia |].
    by rewrite Hv in Hn.
Qed.

(** X15.  The frames of the water animation do not build up: a frame played
    on the mesh that an earlier frame left gives what it gives on the mesh
    before that frame. *)
Theorem animateWater_from_original (oceanMesh oceanMesh' : Mesh)
    (time time' : R) :
  animateWater normals oceanMesh time = inr (Some oceanMesh') ->
  animateWater normals oceanMesh' time' = animateWater normals oceanMesh time'.
Proof.
  intros H.
  destruct (userData_originalPositions (geometry oceanMesh))
    as [original |] eqn:Ho.
  - rewrite (animateWater_spec _ _ _ Ho) in H. injection H as H.
    destruct (mapM _ _) as [pos |] eqn:Hm; simpl in H; [| done].
    injection H as <-.
    rewrite (animateWater_spec oceanMesh time' original Ho).
    rewrite (animateWater_spec _ time' original) by done. simpl.
    assert (Hc : count (computeVertexNormals normals
                          (setPosition pos (geometry oceanMesh)))
                 = count (geometry oceanMesh)).
    { apply length_mapM in Hm. rewrite length_seq in Hm. unfold count.
      simpl. by rewrite <- Hm. }
    rewrite Hc. by destruct (mapM _ _).
  - unfold animateWater in H. rewrite Ho in H.
    destruct (count (geometry oceanMesh)) eqn:Hc; [| done].
    injection H as <-. unfold animateWater. simpl. rewrite Ho.
    unfold count in *. simpl. by rewrite Hc.
Qed.

(** *** The gradient *)

Lemma factor_unit (g : Gradient) (vDist : R) : 0 <= factor g vDist <= 1.
Proof.
  unfold factor, clamp, Rmin, Rmax. repeat destruct Rle_dec; lra.
Qed.

Lemma finalColor_outer (g : Gradient) (vDist : R) :
  innerRadius g < outerRadius g -> outerRadius g <= vDist ->
  finalColor g vDist = colorOuter g.
Proof.
  intros Hr Hv.
  assert (Hd : 0 < outerRadius g - innerRadius g) by lra.
  assert (Hf : factor g vDist = 1).
  { unfold factor, clamp.
    assert (1 <= (vDist - innerRadius g) / (outerRadius g - innerRadius g)).
    { apply (Rmult_le_reg_r (outerRadius g - innerRadius g)); [done |].
      unfold Rdiv. rewrite Rmult_assoc, Rinv_l by lra. lra. }
    unfold Rmin, Rmax. repeat destruct Rle_dec; lra. }
  unfold finalColor, mix. rewrite Hf. destruct (colorInner g), (colorOuter g).
  unfold Vec.add, Vec.multiplyScalar. simpl. f_equal; ring.
Qed.

Lemma finalColor_inner (g : Gradient) (vDist : R) :
  innerRadius g < outerRadius g -> vDist <= innerRadius g ->
  finalColor g vDist = colorInner g.
Proof.
  intros Hr Hv.
  assert (Hd : 0 < outerRadius g - innerRadius g) by lra.
  assert (Hf : factor g vDist = 0).
  { unfold factor, clamp.
    assert ((vDist - innerRadius g) / (outerRadius g - innerRadius g) <= 0).
    { apply (Rmult_le_reg_r (outerRadius g - innerRadius g)); [done |].
      unfold Rdiv. rewrite Rmult_assoc, Rinv_l by lra. lra. }
    unfold Rmin, Rmax. repeat destruct Rle_dec; lra. }
  unfold finalColor, mix. rewrite Hf. destruct (colorInner g), (colorOuter g).
  unfold Vec.add, Vec.multiplyScalar. simpl. f_equal; ring.
Qed.

(** X16.  The gradient factor is between 0 and 1; for an outer radius above
    the inner one, a point at the outer radius or beyond has the outer
    colour and a point at the inner radius or nearer the inner colour. *)
Theorem finalColor_ends (g : Gradient) (vDist : R) :
  innerRadius g < outerRadius g ->
  0 <= factor g vDist <= 1
  /\ (outerRadius g <= vDist -> finalColor g vDist = colorOuter g)
  /\ (vDist <= innerRadius g -> finalColor g vDist = colorInner g).
Proof.
  intros Hr. split; [apply factor_unit |].
  split; intros Hv; [by apply finalColor_outer | by apply finalColor_inner].
Qed.

(** A baked vertex is within the overall amplitude of the distance of some
    vertex of the mesh as it was. *)
Lemma baked_radius (planet planet' : Mesh) (params : NoiseFieldParameters)
    (v' : vec3) :
  unitNoise noise3D -> weldKeepsVertices mergeVertices ->
  0 <= persistence params -> (1 <= octaves params)%Z ->
  bakeTerrain noise3D normals mergeVertices planet params = Some planet' ->
  v' ∈ position (geometry planet') ->
  exists v, v ∈ position (geometry planet)
            /\ Rabs (Vec.length v' - Vec.length v) <= Rabs (amplitude params).
Proof.
  intros Hn Hw Hp Ho Hb Hv'.
  destruct (TerrainFacts.bakeTerrain_vertex noise3D normals mergeVertices
              planet planet' params v' Hw Hb Hv') as (v & h & Hv & Hh & ->).
  exists v. split; [done |].
  destruct (TerrainFacts.finalHeight_bound noise3D params v Hn Hp Ho)
    as (h' & Hh' & Hbound).
  rewrite Hh in Hh'. injection Hh' as <-.
  destruct (VecFacts.length_radial_bounds v h) as [H1 _]. simpl in H1. lra.
Qed.

(** X17.  The gradients of the ocean and of the sand never show: baked with
    [paramsOcean] from a sphere of radius 12, or with [paramsSand] from one
    of radius 11.2, every vertex is at 11.5, or 10.7, or more from the
    origin, beyond the outer radius (5.0, or 5.1) of the gradient, and is
    given the outer colour. *)
Theorem ocean_and_sand_outer_colour (layer layer' : Mesh)
    (inner outer v' : vec3) :
  unitNoise noise3D -> weldKeepsVertices mergeVertices ->
  v' ∈ position (geometry layer') ->
  ((forall v, v ∈ position (geometry layer) -> Vec.length v = 12) ->
   bakeTerrain noise3D normals mergeVertices layer paramsOcean
   = Some layer' ->
   11.5 <= Vec.length v'
   /\ finalColor (oceanGradient inner outer) (Vec.length v') = outer)
  /\ ((forall v, v ∈ position (geometry layer) -> Vec.length v = 11.2) ->
      bakeTerrain noise3D normals mergeVertices layer paramsSand
      = Some layer' ->
      10.7 <= Vec.length v'
      /\ finalColor (sandGradient inner outer) (Vec.length v') = outer).
Proof.
  intros Hn Hw Hv'.
  assert (Ha : Rabs 0.5 = 0.5) by (apply Rabs_pos_eq; lra).
  split; intros Hr Hb.
  - destruct (baked_radius layer layer' paramsOcean v' Hn Hw
                ltac:(simpl; lra) ltac:(simpl; lia) Hb Hv')
      as (v & Hv & Hd).
    simpl in Hd. rewrite Ha, (Hr v Hv) in Hd.
    assert (Hlen : 11.5 <= Vec.length v')
      by (revert Hd; unfold Rabs; destruct Rcase_abs; lra).
    split; [exact Hlen |].
    apply (finalColor_outer (oceanGradient inner outer) (Vec.length v'));
      simpl; lra.
  - destruct (baked_radius layer layer' paramsSand v' Hn Hw
                ltac:(simpl; lra) ltac:(simpl; lia) Hb Hv')
      as (v & Hv & Hd).
    simpl in Hd. rewrite Ha, (Hr v Hv) in Hd.
    assert (Hlen : 10.7 <= Vec.length v')
      by (revert Hd; unfold Rabs; destruct Rcase_abs; lra).
    split; [exact Hlen |].
    apply (finalColor_outer (sandGradient inner outer) (Vec.length v'));
      simpl; lra.
Qed.

End Water.

End OceanExtras.

(** ** The colours of the planet (wave pipeline) *)

Module ShaderExtras.

Import Wave Shader Samples.

Section Colours.

Local Open Scope R_scope.

Variable noise3D : R -> R -> R -> R.
Variable normals : list vec3 -> option (list nat) -> list vec3.

(** X18.  On a planet whose vertices are all at [PLANET_RADIUS] from the
    origin, with noise samples in [-1, 1], the bake and the lock give every
    vertex a locked height of 10 plus its (attenuated) noise, between 9.85
    and 11.5: no vertex is ever given the snow colour, and a vertex is
    given the ocean colour exactly when its summed noise is below 0.2. *)
Theorem planet_colours (st baked locked : State) :
  Utilities.unitNoise noise3D ->
  (forall v, v ∈ position (planet st) -> Vec.length v = PLANET_RADIUS) ->
  bakeTerrain noise3D normals st = Some baked ->
  lockColors baked = Some locked ->
  exists heights,
    attributes (planet locked) !! "aBakedHeight" = Some heights
    /\ forall (i : nat) (vertex : vec3),
        position (planet st) !! i = Some vertex ->
        exists h,
          heights !! i = Some h
          /\ h = 10 + shallowOceans (rawNoise noise3D vertex)
          /\ 9.85 <= h <= 11.5
          /\ planetFragmentShader h <> snow
          /\ (planetFragmentShader h = ocean
              <-> rawNoise noise3D vertex < 0.2).
Proof.
  intros Hn Hr Hb Hl. rewrite WaveFacts.bakeTerrain_spec in Hb.
  injection Hb as <-. rewrite WaveFacts.lockColors_spec in Hl.
  injection Hl as <-. simpl.
  eexists. split; [apply lookup_insert_eq |].
  intros i vertex Hi. rewrite !list_lookup_fmap, Hi. simpl.
  eexists. split; [reflexivity |].
  assert (Hlen : Vec.length vertex = 10).
  { apply Hr. by eapply list_elem_of_lookup_2. }
  assert (Hraw : -1.5 <= rawNoise noise3D vertex <= 1.5).
  { unfold rawNoise.
    pose proof (Hn (Vec.x vertex * 0.1) (Vec.y vertex * 0.1)
                   (Vec.z vertex * 0.1)).
    pose proof (Hn (Vec.x vertex * 0.4) (Vec.y vertex * 0.4)
                   (Vec.z vertex * 0.4)).
    lra. }
  assert (Hs : -0.15 <= shallowOceans (rawNoise noise3D vertex) <= 1.5
               /\ (shallowOceans (rawNoise noise3D vertex) < 0.2
                   <-> rawNoise noise3D vertex < 0.2)).
  { unfold shallowOceans. destruct Rlt_dec; split; try split; lra. }
  destruct Hs as [Hs Hiff].
  assert (Hh : Vec.length (bakeVertex noise3D vertex)
               = 10 + shallowOceans (rawNoise noise3D vertex)).
  { unfold bakeVertex. rewrite VecFacts.length_radial by lra.
    rewrite Hlen. apply Rabs_pos_eq. lra. }
  rewrite Hh. split; [reflexivity |]. split; [lra |].
  unfold planetFragmentShader.
  split; [repeat destruct Rlt_dec; try done; lra |].
  rewrite <- Hiff. repeat destruct Rlt_dec; split; intros; try done; lra.
Qed.

End Colours.

End ShaderExtras.

(** ** The buildings of the wave pipeline *)

Module BuildingFacts.

Import Wave Buildings.

(** [scene.remove] on children that occur once each. *)
Lemma sceneRemove_spec (object : nat) (children : list nat) :
  NoDup children ->
  NoDup (sceneRemove object children)
  /\ forall o, o ∈ sceneRemove object children
               <-> o ∈ children /\ o <> object.
Proof.
  induction children as [| child rest IH]; intros Hnd; simpl.
  - split; [done |]. intros o. split; [by intros H%elem_of_nil |].
    by intros [H%elem_of_nil _].
  - apply NoDup_cons in Hnd as [Hc Hnd]. destruct (IH Hnd) as [IH1 IH2].
    destruct (decide (child = object)) as [-> | Hne].
    + split; [done |]. intros o. rewrite elem_of_cons. split.
      * intros Ho. split; [by right |]. by intros ->.
      * by intros [[-> | Ho] Hne].
    + split.
      * apply NoDup_cons. split; [| done]. rewrite IH2. by intros [? _].
      * intros o. rewrite !elem_of_cons, IH2. split.
        -- intros [-> | [Ho Hne']]; [by split; [left |] | by split; [right |]].
        -- intros [[-> | Ho] Hne']; [by left | by right].
Qed.

Lemma sceneRemove_all (buildings : list Building) (children : list nat) :
  NoDup children ->
  NoDup (foldl (fun children building =>
                  sceneRemove (ident building) children)
               children buildings)
  /\ forall o,
       o ∈ foldl (fun children building =>
                    sceneRemove (ident building) children)
                 children buildings
       <-> o ∈ children /\ o ∉ ident <$> buildings.
Proof.
  revert children.
  induction buildings as [| b buildings IH]; intros children Hnd; simpl.
  - split; [done |]. intros o. split; [| by intros [? _]].
    intros Ho. split; [done |]. by intros H%elem_of_nil.
  - destruct (sceneRemove_spec (ident b) children Hnd) as [Hnd1 H1].
    destruct (IH _ Hnd1) as [Hnd2 H2]. split; [done |].
    intros o. rewrite H2, H1, not_elem_of_cons. tauto.
Qed.

(** A list of numbers below [n] without repetition has at most [n]
    entries. *)
Lemma NoDup_below (l : list nat) (n : nat) :
  NoDup l -> Forall (fun i => (i < n)%nat) l -> (length l <= n)%nat.
Proof.
  intros Hnd Hl.
  assert (H : l ⊆+ seq 0 n).
  { apply NoDup_submseteq; [done |].
    intros i Hi. rewrite Forall_forall in Hl. apply elem_of_seq.
    specialize (Hl i Hi). lia. }
  apply submseteq_length in H. by rewrite length_seq in H.
Qed.

Section Cloner.

Local Open Scope R_scope.

Variable random : nat -> Q.
Variable normals : list vec3 -> option (list nat) -> list vec3.

(** The loop of [setupCloner] in one step: [k] new objects, one draw each. *)
Lemma setupLoop_spec (k : nat) (st : State) :
  setupLoop random k st
  = {| wave := wave st;
       scene := scene st ++ seq (created st) k;
       clones := clones st
                 ++ ((fun o => {| ident := o; place := Some Vec.zero;
                                  up := Some (Vec.mk 0 1 0) |})
                       <$> seq (created st) k);
       vertexIndices :=
         vertexIndices st
         ++ (Utilities.drawnIndex random (count (planet (wave st)))
               <$> seq (draws st) k);
       settingsCount := settingsCount st;
       created := (created st + k)%nat;
       draws := (draws st + k)%nat |}.
Proof.
  revert st. induction k as [| k IH]; intros st; simpl.
  - rewrite !app_nil_r, !Nat.add_0_r. by destruct st.
  - rewrite IH. simpl. rewrite <- !app_assoc. simpl.
    f_equal; lia.
Qed.

(** What a frame makes of a vertex. *)
Lemma updateDisplacer_vertex (time audioVolume : R) (pick : option vec3)
    (st st' : Wave.State) (i : nat) :
  updateDisplacer normals time audioVolume pick st = Some st' ->
  (i < count (planet st))%nat ->
  exists baseline vertex,
    readVertex (originalPositions st) i = Some baseline
    /\ position (planet st') !! i = Some vertex
    /\ Rabs (Vec.length vertex - Vec.length baseline) <= Rabs audioVolume.
Proof.
  intros H Hi. rewrite WaveFacts.updateDisplacer_spec in H.
  destruct (mapM _ _) as [pos |] eqn:Hm; simpl in H; [| done].
  injection H as <-. simpl.
  assert (Hseq : seq 0 (count (planet st)) !! i = Some i)
    by (by apply lookup_seq_lt).
  destruct (LoopFacts.mapM_lookup _ _ _ _ _ Hm Hseq) as (v & Hv & Hf).
  destruct (readVertex (originalPositions st) i) as [baseline |];
    simpl in Hf; [| done].
  injection Hf as <-. exists baseline. eexists.
  split; [done |]. split; [exact Hv |]. unfold displace.
  destruct (VecFacts.length_radial_bounds baseline
              (waveAt time audioVolume
                 (Vec.distanceTo baseline
                    (impactPoint (updateRaycast pick st))))) as [H1 _].
  simpl in H1. eapply Rle_trans; [exact H1 |].
  apply WaveExtras.waveAt_bound, WaveExtras.distanceTo_nonneg.
Qed.

End Cloner.

End BuildingFacts.

Module BuildingExtras.

Import Wave Buildings Samples.

Section Cloner.

Local Open Scope R_scope.

Variable random : nat -> Q.
Variable normals : list vec3 -> option (list nat) -> list vec3.

(** X19.  [setupCloner] pushes one building and one vertex index for each
    unit of its argument (none when it is zero or less), so that [clones]
    and [vertexIndices] stay of the same length, and adds the buildings to
    the scene; on a planet with a vertex and with draws in [0, 1) every
    index pushed is an index of a vertex. *)
Theorem setupCloner_pushes (n : Z) (st : State) :
  Utilities.unitDraws random ->
  (0 < count (planet (wave st)))%nat ->
  exists buildings indices,
    clones (setupCloner random n st) = clones st ++ buildings
    /\ vertexIndices (setupCloner random n st) = vertexIndices st ++ indices
    /\ scene (setupCloner random n st) = scene st ++ (ident <$> buildings)
    /\ length buildings = Z.to_nat n
    /\ length indices = Z.to_nat n
    /\ Forall (fun i => (i < count (planet (wave st)))%nat) indices.
Proof.
  intros Hu Hc. unfold setupCloner. rewrite BuildingFacts.setupLoop_spec.
  simpl. do 2 eexists. split; [reflexivity |]. split; [reflexivity |].
  split.
  { f_equal. rewrite <- list_fmap_compose. simpl.
    by rewrite list_fmap_id. }
  rewrite !length_fmap, !length_seq. split; [done |]. split; [done |].
  apply Forall_fmap, Forall_forall. intros d _. simpl.
  by apply ScatterFacts.drawnIndex_lt.
Qed.

(** X20.  [setupCloner] draws the vertices with replacement: asked for more
    buildings than the planet has vertices, it puts two buildings on the
    same vertex. *)
Theorem setupCloner_shares_vertices (n : Z) (st : State) :
  Utilities.unitDraws random ->
  (0 < count (planet (wave st)))%nat ->
  (Z.of_nat (count (planet (wave st))) < n)%Z ->
  ~ NoDup (vertexIndices (setupCloner random n st)).
Proof.
  intros Hu Hc Hn Hnd. unfold setupCloner in Hnd.
  rewrite BuildingFacts.setupLoop_spec in Hnd. simpl in Hnd.
  apply NoDup_app in Hnd as (_ & _ & Hnd).
  apply (BuildingFacts.NoDup_below _ (count (planet (wave st)))) in Hnd.
  - rewrite length_fmap, length_seq in Hnd. lia.
  - apply Forall_fmap, Forall_forall. intros d _. simpl.
    by apply ScatterFacts.drawnIndex_lt.
Qed.

(** X21.  [refreshClones] leaves exactly [settings.count] buildings (none
    for a count of zero or less), as many vertex indices, and a scene made
    of the objects that were there and were no building, followed by the new
    buildings: given that no object is twice in the scene and that the
    identities in use are those of objects created so far, no old building
    is left in the scene and the new scene has no object twice. *)
Theorem refreshClones_replaces (st : State) :
  NoDup (scene st) ->
  Forall (fun o => (o < created st)%nat) (scene st) ->
  Forall (fun b => (ident b < created st)%nat) (clones st) ->
  length (clones (refreshClones random st)) = Z.to_nat (settingsCount st)
  /\ length (vertexIndices (refreshClones random st))
     = Z.to_nat (settingsCount st)
  /\ NoDup (scene (refreshClones random st))
  /\ (forall o, o ∈ scene (refreshClones random st)
                <-> (o ∈ scene st /\ o ∉ ident <$> clones st)
                    \/ o ∈ ident <$> clones (refreshClones random st))
  /\ (forall b, b ∈ clones st ->
                ident b ∉ scene (refreshClones random st)).
Proof.
  intros Hnd Hsc Hcl. unfold refreshClones, setupCloner.
  rewrite BuildingFacts.setupLoop_spec. simpl.
  destruct (BuildingFacts.sceneRemove_all (clones st) (scene st) Hnd)
    as [Hnd' Hin'].
  set (scene' := foldl _ _ _) in *.
  assert (Hids : ident <$> ((fun o => {| ident := o; place := Some Vec.zero;
                                         up := Some (Vec.mk 0 1 0) |})
                              <$> seq (created st)
                                    (Z.to_nat (settingsCount st)))
                 = seq (created st) (Z.to_nat (settingsCount st))).
  { rewrite <- list_fmap_compose. simpl. by rewrite list_fmap_id. }
  rewrite Hids, !length_fmap, !length_seq.
  assert (Hold : forall o, o ∈ scene' -> (o < created st)%nat).
  { intros o Ho. apply Hin' in Ho as [Ho _].
    rewrite Forall_forall in Hsc. by apply Hsc. }
  split; [done |]. split; [done |]. split; [| split].
  - apply NoDup_app. split; [done |]. split; [| apply NoDup_seq].
    intros o Ho Hnew. apply Hold in Ho. apply elem_of_seq in Hnew. lia.
  - intros o. rewrite elem_of_app, Hin'. tauto.
  - intros b Hb Hin. apply elem_of_app in Hin as [Hin | Hin].
    + apply Hin' in Hin as [_ Hn]. apply Hn.
      apply list_elem_of_fmap. eauto.
    + apply elem_of_seq in Hin. rewrite Forall_forall in Hcl.
      specialize (Hcl b Hb). lia.
Qed.

(** X22.  After a frame of [animate] every building whose vertex index is
    an index of a vertex sits on that vertex as the displacer has just left
    it, its y axis along the direction from the origin to the vertex, at a
    distance to the origin within [|audioVolume|] of that of the original
    position of the vertex. *)
Theorem animate_buildings_follow (time audioVolume : R) (pick : option vec3)
    (st st' : State) (i vIndex : nat) (building : Building) :
  animate normals time audioVolume pick st = Some st' ->
  clones st !! i = Some building ->
  vertexIndices st !! i = Some vIndex ->
  (vIndex < count (planet (wave st)))%nat ->
  exists baseline vertex,
    readVertex (originalPositions (wave st)) vIndex = Some baseline
    /\ position (planet (wave st')) !! vIndex = Some vertex
    /\ clones st' !! i
       = Some {| ident := ident building; place := Some vertex;
                 up := Some (Vec.normalize vertex) |}
    /\ Rabs (Vec.length vertex - Vec.length baseline) <= Rabs audioVolume.
Proof.
  intros H Hb Hv Hlt. unfold animate in H.
  destruct (updateDisplacer _ _ _ _ _) as [wave' |] eqn:Hw; simpl in H;
    [| done].
  injection H as <-. simpl.
  destruct (BuildingFacts.updateDisplacer_vertex normals time audioVolume
              pick (wave st) wave' vIndex Hw Hlt)
    as (baseline & vertex & Hr & Hp & Hd).
  exists baseline, vertex. split; [done |]. split; [done |].
  split; [| done].
  rewrite list_lookup_imap, Hb. simpl. rewrite Hv. simpl. by rewrite Hp.
Qed.

End Cloner.

End BuildingExtras.

(** ** createStars *)

Module StarFacts.

Import Stars.

Local Open Scope R_scope.

(** Three writes in a row past what is done. *)
Lemma write3 (done rest : list R) (x0 x1 x2 a b c : R) (i : nat) :
  length done = (i * 3)%nat ->
  <[(i * 3 + 2)%nat := c]>
    (<[(i * 3 + 1)%nat := b]>
       (<[(i * 3)%nat := a]> (done ++ x0 :: x1 :: x2 :: rest)))
  = (done ++ [a; b; c]) ++ rest.
Proof.
  intros Hl. rewrite <- Hl.
  replace (length done) with (length done + 0)%nat at 3 by lia.
  rewrite !insert_app_r. simpl. by rewrite <- app_assoc.
Qed.

Lemma write1 (done rest : list R) (x0 a : R) (i : nat) :
  length done = i -> <[i := a]> (done ++ x0 :: rest) = (done ++ [a]) ++ rest.
Proof.
  intros <-. rewrite insert_app_r_alt by lia. rewrite Nat.sub_diag. simpl.
  by rewrite <- app_assoc.
Qed.

Lemma elem_of_toArray (l : list vec3) (e : R) :
  e ∈ Vec.toArray l ->
  exists v, v ∈ l /\ (e = Vec.x v \/ e = Vec.y v \/ e = Vec.z v).
Proof.
  induction l as [| v l IH]; simpl; [by intros H%elem_of_nil |].
  rewrite !elem_of_cons. intros [-> | [-> | [-> | H]]].
  - exists v. split; [by left | tauto].
  - exists v. split; [by left | tauto].
  - exists v. split; [by left | tauto].
  - destruct (IH H) as (u & Hu & He). exists u. split; [by right | done].
Qed.

(** A vector that is not null has a direction of length 1. *)
Lemma length_normalize (a : vec3) :
  Vec.length a <> 0 -> Vec.length (Vec.normalize a) = 1.
Proof.
  intros Hl. unfold Vec.normalize.
  destruct (Req_dec_T (Vec.length a) 0) as [E | _]; [done |].
  unfold Vec.divideScalar. rewrite VecFacts.length_multiplyScalar.
  pose proof (VecFacts.length_nonneg a).
  rewrite Rabs_pos_eq.
  - field. done.
  - apply Rmult_le_pos; [lra |]. left. apply Rinv_0_lt_compat. lra.
Qed.

Section CreateStars.

Variable random : nat -> Q.
Variable color : Z -> vec3.

Lemma mathRandom_unit (n : nat) :
  Utilities.unitDraws random -> 0 <= mathRandom random n < 1.
Proof.
  intros Hu. destruct (Hu n) as [H0 H1]. unfold mathRandom.
  apply Qreals.Qle_Rle in H0. apply Qreals.Qlt_Rlt in H1.
  rewrite RMicromega.Q2R_0 in H0. rewrite RMicromega.Q2R_1 in H1. lra.
Qed.

(** With draws in [0, 1) the palette always has the colour drawn. *)
Lemma starColor_is_Some (n : nat) :
  Utilities.unitDraws random ->
  exists baseColor,
    baseColor ∈ palette color
    /\ starColor random color n
       = Some (Vec.multiplyScalar baseColor
                 (0.5 + mathRandom random (n + 5) * 2.0)).
Proof.
  intros Hu. unfold starColor.
  destruct (lookup_lt_is_Some_2 (palette color)
              (Utilities.drawnIndex random (length (palette color)) (n + 4)))
    as [c Hc].
  { apply ScatterFacts.drawnIndex_lt; [done | simpl; lia]. }
  rewrite Hc. simpl. exists c. split; [| done].
  by eapply list_elem_of_lookup_2.
Qed.

(** The loop fills the arrays star after star, seven draws a star. *)
Lemma starLoop_spec (radius : R) (k : nat) :
  Utilities.unitDraws random ->
  forall (i n : nat) (donePos doneCol doneSz : list R),
    length donePos = (i * 3)%nat -> length doneCol = (i * 3)%nat ->
    length doneSz = i ->
    exists cols sz,
      mapM (starColor random color)
           ((fun j => (n + 7 * j)%nat) <$> seq 0 k) = Some cols
      /\ starLoop random color radius k i
           {| positions := donePos ++ replicate (k * 3) 0;
              colors := doneCol ++ replicate (k * 3) 0;
              sizes := doneSz ++ replicate k 0;
              drawn := n |}
         = inr {| positions :=
                    donePos
                    ++ Vec.toArray
                         (starPosition random radius
                            <$> ((fun j => (n + 7 * j)%nat) <$> seq 0 k));
                  colors := doneCol ++ Vec.toArray cols;
                  sizes := doneSz ++ sz;
                  drawn := (n + 7 * k)%nat |}.
Proof.
  intros Hu. induction k as [| k IH]; intros i n donePos doneCol doneSz
    Hp Hc Hs.
  - exists [], []. split; [done |]. simpl. by rewrite Nat.add_0_r.
  - destruct (starColor_is_Some n Hu) as (base & _ & Hcol).
    set (c := Vec.multiplyScalar base _) in Hcol.
    set (d := starPosition random radius n).
    destruct (IH (S i) (n + 7)%nat (donePos ++ [Vec.x d; Vec.y d; Vec.z d])
                (doneCol ++ [Vec.x c; Vec.y c; Vec.z c])
                (doneSz ++ [mathRandom random (n + 6) * 2.0]))
      as (cols & sz & Hm & Hl).
    { rewrite length_app, Hp. simpl. lia. }
    { rewrite length_app, Hc. simpl. lia. }
    { rewrite length_app, Hs. simpl. lia. }
    exists (c :: cols), (mathRandom random (n + 6) * 2.0 :: sz).
    assert (Hseq : (fun j => (n + 7 * j)%nat) <$> seq 0 (S k)
                   = n :: ((fun j => (n + 7 + 7 * j)%nat) <$> seq 0 k)).
    { simpl. f_equal; [lia |]. rewrite <- fmap_S_seq, <- list_fmap_compose.
      apply list_fmap_ext. intros _ j _. simpl. lia. }
    rewrite Hseq. split.
    + change (mapM (starColor random color)
                (n :: ((fun j => (n + 7 + 7 * j)%nat) <$> seq 0 k)))
        with (y ← starColor random color n;
              l ← mapM (starColor random color)
                    ((fun j => (n + 7 + 7 * j)%nat) <$> seq 0 k);
              mret (y :: l)).
      rewrite Hcol. cbn [mbind option_bind]. by rewrite Hm.
    + cbn [starLoop]. unfold starPass. cbn [drawn positions colors sizes].
      rewrite Hcol.
      change (replicate (S k * 3) 0) with (0 :: 0 :: 0 :: replicate (k * 3) 0).
      rewrite !write3 by done.
      change (replicate (S k) 0) with (0 :: replicate k 0).
      rewrite write1 by done.
      fold d. rewrite Hl. f_equal. cbn [fmap list_fmap Vec.toArray flat_map].
      fold d. f_equal.
      * by rewrite <- app_assoc.
      * by rewrite <- app_assoc.
      * by rewrite <- app_assoc.
      * lia.
Qed.

End CreateStars.

End StarFacts.

Module StarExtras.

Import Stars Samples.

Section CreateStars.

Local Open Scope R_scope.

Variable random : nat -> Q.
Variable color : Z -> vec3.

(** What [createStars] returns for a count that is not negative. *)
Lemma createStars_spec (count : Z) (radius : R) (drawn0 : nat) :
  Utilities.unitDraws random -> (0 <= count)%Z ->
  exists cols,
    mapM (starColor random color)
         ((fun j => (drawn0 + 7 * j)%nat) <$> seq 0 (Z.to_nat count))
    = Some cols
    /\ createStars random color count radius drawn0
       = inr {| positionArray :=
                  Vec.toArray
                    (starPosition random radius
                       <$> ((fun j => (drawn0 + 7 * j)%nat)
                              <$> seq 0 (Z.to_nat count)));
                colorArray := Vec.toArray cols |}.
Proof.
  intros Hu Hc. unfold createStars.
  destruct (Z.ltb_spec count 0) as [? | _]; [lia |].
  destruct (StarFacts.starLoop_spec random color radius (Z.to_nat count) Hu
              0 drawn0 [] [] []) as (cols & sz & Hm & Hl); [done.. |].
  exists cols. split; [done |]. simpl in Hl. by rewrite Hl.
Qed.

(** X23.  For a count that is not negative and draws in [0, 1),
    [createStars] returns the positions and colours of [count] stars, three
    numbers each.  A star whose random direction is not null is at a
    distance to the origin of [radius] plus less than 100, in the
    direction drawn; a star whose three draws are all 0.5 has no direction
    and is put at the origin. *)
Theorem createStars_shell (count : Z) (radius : R) (drawn0 : nat) :
  Utilities.unitDraws random -> (0 <= count)%Z -> 0 <= radius ->
  exists stars,
    createStars random color count radius drawn0 = inr stars
    /\ length (positionArray stars) = (3 * Z.to_nat count)%nat
    /\ length (colorArray stars) = (3 * Z.to_nat count)%nat
    /\ forall i, (i < Z.to_nat count)%nat ->
         let n := (drawn0 + 7 * i)%nat in
         let direction :=
           Vec.mk (mathRandom random n - 0.5)
                  (mathRandom random (n + 1) - 0.5)
                  (mathRandom random (n + 2) - 0.5) in
         exists star,
           Wave.readVertex (positionArray stars) i = Some star
           /\ star = Vec.multiplyScalar (Vec.normalize direction)
                       (radius + mathRandom random (n + 3) * 100)
           /\ (direction = Vec.zero -> star = Vec.zero)
           /\ (direction <> Vec.zero ->
               radius <= Vec.length star < radius + 100).
Proof.
  intros Hu Hc Hr.
  destruct (createStars_spec count radius drawn0 Hu Hc) as (cols & Hm & Hs).
  eexists. split; [exact Hs |]. cbn [positionArray colorArray].
  split; [by rewrite WaveFacts.length_toArray, !length_fmap, length_seq |].
  split.
  { apply length_mapM in Hm. rewrite length_fmap, length_seq in Hm.
    by rewrite WaveFacts.length_toArray, <- Hm. }
  intros i Hi. set (n := (drawn0 + 7 * i)%nat).
  set (direction := Vec.mk (mathRandom random n - 0.5)
                           (mathRandom random (n + 1) - 0.5)
                           (mathRandom random (n + 2) - 0.5)).
  eexists. split.
  { rewrite WaveFacts.readVertex_toArray, !list_lookup_fmap.
    rewrite lookup_seq_lt by done. reflexivity. }
  cbn [fmap option_fmap option_map Nat.add]. fold n.
  split; [reflexivity |].
  pose proof (StarFacts.mathRandom_unit random (n + 3) Hu) as Hd.
  split.
  - intros Hz. unfold starPosition. fold direction. rewrite Hz.
    unfold Vec.normalize, Vec.divideScalar, Vec.multiplyScalar, Vec.zero.
    simpl. f_equal; ring.
  - intros Hnz. unfold starPosition. fold direction.
    rewrite VecFacts.length_multiplyScalar.
    rewrite StarFacts.length_normalize.
    + rewrite Rabs_pos_eq by lra. lra.
    + intros Hl. by apply VecFacts.length_null in Hl.
Qed.

(** X24.  When the components of the colours of the palette are between 0
    and 1, every number of the colour array that [createStars] returns is
    between 0 and 2.5 (excluded): a component of a colour of the palette
    times an intensity between 0.5 and 2.5. *)
Theorem createStars_colours (count : Z) (radius : R) (drawn0 : nat)
    (stars : Points) (c : R) :
  Utilities.unitDraws random -> unitColours color ->
  createStars random color count radius drawn0 = inr stars ->
  c ∈ colorArray stars ->
  0 <= c < 2.5.
Proof.
  intros Hu Hcol Hs Hc.
  assert (Hcount : (0 <= count)%Z).
  { unfold createStars in Hs. by destruct (Z.ltb_spec count 0). }
  destruct (createStars_spec count radius drawn0 Hu Hcount)
    as (cols & Hm & Hs').
  rewrite Hs' in Hs. injection Hs as <-. simpl in Hc.
  apply StarFacts.elem_of_toArray in Hc as (v & Hv & Hc).
  apply list_elem_of_lookup in Hv as [i Hi].
  destruct (LoopFacts.mapM_lookup_inv _ _ _ _ _ Hm Hi) as (n & _ & Hn).
  destruct (StarFacts.starColor_is_Some random color n Hu)
    as (base & Hbase & Hn').
  rewrite Hn in Hn'. injection Hn' as ->.
  apply list_elem_of_fmap in Hbase as (hex & -> & _).
  destruct (Hcol hex) as (Hx & Hy & Hz).
  pose proof (StarFacts.mathRandom_unit random (n + 5) Hu) as Hd.
  unfold Vec.multiplyScalar in Hc. simpl in Hc.
  destruct Hc as [-> | [-> | ->]]; split; nra.
Qed.

End CreateStars.

End StarExtras.

(** ** The further properties at sample inputs *)

Module Witnesses.

Import Samples MoreSamples.

Local Open Scope R_scope.

Lemma updateDisplacer_from_baseline_witness :
  Wave.originalPositions restingState = Wave.originalPositions displacedState
  /\ count (Wave.planet restingState) = count (Wave.planet displacedState)
  /\ Wave.impactPoint (Wave.updateRaycast None restingState)
     = Wave.impactPoint (Wave.updateRaycast None displacedState)
  /\ (fun st => position (Wave.planet st))
       <$> Wave.updateDisplacer noNormals 1 1 None restingState
     = (fun st => position (Wave.planet st))
         <$> Wave.updateDisplacer noNormals 1 1 None displacedState.
Proof.
  assert (H1 : Wave.originalPositions restingState
               = Wave.originalPositions displacedState) by reflexivity.
  assert (H2 : count (Wave.planet restingState)
               = count (Wave.planet displacedState)) by reflexivity.
  assert (H3 : Wave.impactPoint (Wave.updateRaycast None restingState)
               = Wave.impactPoint (Wave.updateRaycast None displacedState))
    by reflexivity.
  split; [exact H1 |]. split; [exact H2 |]. split; [exact H3 |].
  exact (WaveExtras.updateDisplacer_from_baseline noNormals 1 1 None
           restingState displacedState H1 H2 H3).
Defined.

Lemma restingState_frame (time audioVolume : R) :
  is_Some (Wave.updateDisplacer noNormals time audioVolume None restingState).
Proof. by apply WaveFacts.updateDisplacer_total. Qed.

Lemma updateDisplacer_idempotent_witness :
  exists st',
    Wave.updateDisplacer noNormals 1 1 None restingState = Some st'
    /\ Wave.updateDisplacer noNormals 1 1 None st' = Some st'.
Proof.
  destruct (restingState_frame 1 1) as [st' H]. exists st'.
  split; [exact H |].
  exact (WaveExtras.updateDisplacer_idempotent noNormals 1 1 None
           restingState st' H).
Defined.

Lemma updateDisplacer_silent_after_bake_witness :
  exists baked st',
    Wave.bakeTerrain rampNoise noNormals restingState = Some baked
    /\ Wave.updateDisplacer noNormals 1 0 None baked = Some st'
    /\ position (Wave.planet st') = position (Wave.planet baked).
Proof.
  pose proof (WaveFacts.bakeTerrain_spec rampNoise noNormals restingState)
    as Hb.
  destruct (WaveExtras.updateDisplacer_silent_after_bake rampNoise noNormals
              1 None restingState _ Hb) as (st' & H1 & H2).
  eexists. exists st'. split; [exact Hb |]. split; [exact H1 | exact H2].
Defined.

Lemma updateDisplacer_radius_within_strength_witness :
  exists st',
    Wave.updateDisplacer noNormals 1 1 None restingState = Some st'
    /\ (0 < count (Wave.planet restingState))%nat
    /\ Wave.readVertex (Wave.originalPositions restingState) 0
       = Some (Vec.mk 10 0 0)
    /\ exists vertex,
         position (Wave.planet st') !! 0%nat = Some vertex
         /\ Rabs (Vec.length vertex - Vec.length (Vec.mk 10 0 0)) <= Rabs 1.
Proof.
  destruct (restingState_frame 1 1) as [st' H]. exists st'.
  assert (H1 : (0 < count (Wave.planet restingState))%nat)
    by (unfold count; simpl; lia).
  assert (H2 : Wave.readVertex (Wave.originalPositions restingState) 0
               = Some (Vec.mk 10 0 0)) by reflexivity.
  split; [exact H |]. split; [exact H1 |]. split; [exact H2 |].
  exact (WaveExtras.updateDisplacer_radius_within_strength noNormals 1 1
           None restingState st' 0 (Vec.mk 10 0 0) H H1 H2).
Defined.

Lemma bakeTerrain_null_amplitude_witness :
  0 <= Utilities.persistence flatParams
  /\ (1 <= Utilities.octaves flatParams)%Z
  /\ Utilities.amplitude flatParams = 0
  /\ Utilities.bakeTerrain rampNoise noNormals noWeld
       (meshOf [Vec.mk 10 0 0]) flatParams
     = Some {| geometry :=
                 noWeld (computeVertexNormals noNormals
                           (geometry (meshOf [Vec.mk 10 0 0])));
               flatShading := true |}.
Proof.
  assert (H1 : 0 <= Utilities.persistence flatParams) by (simpl; lra).
  assert (H2 : (1 <= Utilities.octaves flatParams)%Z) by (simpl; lia).
  assert (H3 : Utilities.amplitude flatParams = 0) by reflexivity.
  split; [exact H1 |]. split; [exact H2 |]. split; [exact H3 |].
  exact (TerrainExtras.bakeTerrain_null_amplitude rampNoise noNormals noWeld
           (meshOf [Vec.mk 10 0 0]) flatParams H1 H2 H3).
Defined.

Lemma bakeTerrain_no_octave_witness :
  (Utilities.octaves noOctaves <= 0)%Z
  /\ Utilities.bakeTerrain rampNoise noNormals noWeld
       (meshOf [Vec.mk 10 0 0]) noOctaves
     = None.
Proof.
  assert (H : (Utilities.octaves noOctaves <= 0)%Z) by (simpl; lia).
  split; [exact H |].
  exact (TerrainExtras.bakeTerrain_no_octave rampNoise noNormals noWeld
           (meshOf [Vec.mk 10 0 0]) noOctaves H).
Defined.

Lemma oneOctave_baked :
  Utilities.bakeTerrain rampNoise noNormals noWeld (meshOf [Vec.mk 1 0 0])
    oneOctave
  = Some {| geometry :=
              noWeld (computeVertexNormals noNormals
                        (setPosition [Vec.mk (1 + 1) 0 0]
                           (geometry (meshOf [Vec.mk 1 0 0]))));
            flatShading := true |}.
Proof.
  rewrite TerrainFacts.bakeTerrain_positions. simpl.
  rewrite SampleFacts.oneOctave_bake by lra. reflexivity.
Qed.

Lemma bakeTerrain_keeps_rays_witness :
  Utilities.weldKeepsVertices noWeld
  /\ exists planet' v',
      Utilities.bakeTerrain rampNoise noNormals noWeld
        (meshOf [Vec.mk 1 0 0]) oneOctave = Some planet'
      /\ v' ∈ position (geometry planet')
      /\ exists v s,
           v ∈ position (geometry (meshOf [Vec.mk 1 0 0]))
           /\ v' = Vec.multiplyScalar v s
           /\ (v = Vec.zero -> v' = Vec.zero).
Proof.
  split; [exact SampleFacts.noWeld_keeps |].
  assert (Hin : Vec.mk (1 + 1) 0 0
                ∈ position (noWeld (computeVertexNormals noNormals
                     (setPosition [Vec.mk (1 + 1) 0 0]
                        (geometry (meshOf [Vec.mk 1 0 0]))))))
    by apply list_elem_of_here.
  eexists. exists (Vec.mk (1 + 1) 0 0).
  split; [exact oneOctave_baked |]. split; [exact Hin |].
  exact (TerrainExtras.bakeTerrain_keeps_rays rampNoise noNormals noWeld
           (meshOf [Vec.mk 1 0 0]) _ oneOctave (Vec.mk (1 + 1) 0 0)
           SampleFacts.noWeld_keeps oneOctave_baked Hin).
Defined.

Lemma reduceMeshComplexity_asks_within_count_witness :
  (0 <= 1 # 2 <= 1)%Q
  /\ (forall g n, (0 <= n <= Z.of_nat (count g))%Z ->
                  strictModify g n = guardedModify g n)
  /\ Utilities.reduceMeshComplexity noNormals noWeld strictModify
       (meshOf [Vec.mk 1 0 0]) (1 # 2) []
     = Utilities.reduceMeshComplexity noNormals noWeld guardedModify
         (meshOf [Vec.mk 1 0 0]) (1 # 2) [].
Proof.
  assert (H1 : (0 <= 1 # 2 <= 1)%Q) by (split; done).
  assert (H2 : forall g n, (0 <= n <= Z.of_nat (count g))%Z ->
                           strictModify g n = guardedModify g n).
  { intros g n Hn. unfold guardedModify.
    destruct (Z.ltb_spec n 0); [lia | done]. }
  split; [exact H1 |]. split; [exact H2 |].
  exact (SimplifyExtras.reduceMeshComplexity_asks_within_count noNormals
           noWeld strictModify guardedModify (meshOf [Vec.mk 1 0 0]) (1 # 2)
           [] H1 H2).
Defined.

Lemma tree_loaded :
  Utilities.loadAssets pinelessLoad anyTexture (fun scene => scene)
    [("tree", "tree.glb")]
  = inr {["tree" := Utilities.Model "tree.glb"]}.
Proof. reflexivity. Qed.

Lemma loadAssets_holds_loaded_witness :
  Utilities.loadAssets pinelessLoad anyTexture (fun scene => scene)
    [("tree", "tree.glb")]
  = inr {["tree" := Utilities.Model "tree.glb"]}
  /\ ({["tree" := Utilities.Model "tree.glb"]}
        : gmap string (Utilities.Asset string string)) !! "tree"
     = Some (Utilities.Model "tree.glb")
  /\ exists url,
      ("tree", url) ∈ [("tree", "tree.glb")]
      /\ ((Utilities.endsWith url ".glb" || Utilities.endsWith url ".gltf"
           = true
           /\ exists result,
                pinelessLoad url = inr result
                /\ Utilities.Model (Texture := string) "tree.glb"
                   = Utilities.Model result)
          \/ (Utilities.endsWith url ".glb" || Utilities.endsWith url ".gltf"
              = false
              /\ Utilities.endsWith url ".png"
                 || Utilities.endsWith url ".jpg" = true
              /\ exists texture,
                   anyTexture url = inr texture
                   /\ Utilities.Model "tree.glb" = Utilities.Image texture)).
Proof.
  assert (H : ({["tree" := Utilities.Model "tree.glb"]}
                 : gmap string (Utilities.Asset string string)) !! "tree"
              = Some (Utilities.Model "tree.glb"))
    by apply lookup_singleton_eq.
  split; [exact tree_loaded |]. split; [exact H |].
  exact (AssetExtras.loadAssets_holds_loaded pinelessLoad anyTexture
           (fun scene => scene) [("tree", "tree.glb")] _ "tree"
           (Utilities.Model "tree.glb") tree_loaded H).
Defined.

Lemma loadAssets_unrecognised_witness :
  Forall (fun entry : string * string =>
            Utilities.endsWith entry.2 ".glb"
            || Utilities.endsWith entry.2 ".gltf" = false
            /\ Utilities.endsWith entry.2 ".png"
               || Utilities.endsWith entry.2 ".jpg" = false)
         [("notes", "notes.txt")]
  /\ Utilities.loadAssets pinelessLoad anyTexture (fun scene => scene)
       [("notes", "notes.txt")]
     = inr ∅.
Proof.
  assert (H : Forall (fun entry : string * string =>
                        Utilities.endsWith entry.2 ".glb"
                        || Utilities.endsWith entry.2 ".gltf" = false
                        /\ Utilities.endsWith entry.2 ".png"
                           || Utilities.endsWith entry.2 ".jpg" = false)
                     [("notes", "notes.txt")])
    by (repeat constructor).
  split; [exact H |].
  exact (AssetExtras.loadAssets_unrecognised pinelessLoad anyTexture
           (fun scene => scene) [("notes", "notes.txt")] H).
Defined.

Lemma pine_not_nil : ["pine"] <> ([] : list string).
Proof. done. Qed.

Lemma cloner_never_throws_witness :
  Utilities.unitDraws alternatingDraws
  /\ ["pine"] <> []
  /\ Utilities.cloner alternatingDraws unmoved Vec.zero 3
       (meshOf [Vec.mk 1 0 0; Vec.mk 0 1 0]) 2 ["pine"] 1 true true true
       emptyWorld
     <> Utilities.Throws TypeError emptyWorld.
Proof.
  split; [exact ScatterClaims.alternatingDraws_unit |].
  split; [exact pine_not_nil |].
  exact (ScatterExtras.cloner_never_throws alternatingDraws unmoved Vec.zero
           3 (meshOf [Vec.mk 1 0 0; Vec.mk 0 1 0]) 2 ["pine"] 1 true true
           true emptyWorld TypeError emptyWorld
           ScatterClaims.alternatingDraws_unit pine_not_nil).
Defined.

(** Two clones on the mesh of two vertices, with every flag set. *)
Lemma two_pines :
  exists clones w',
    Utilities.cloner alternatingDraws unmoved Vec.zero 3
      (meshOf [Vec.mk 1 0 0; Vec.mk 0 1 0]) 2 ["pine"] 1 true true true
      emptyWorld
    = Utilities.Returns clones w'.
Proof.
  by do 2 eexists.
Qed.



Lemma cloner_jitter_ranges_witness :
  Utilities.unitDraws alternatingDraws
  /\ (0 <= 1)%Q
  /\ exists clones w',
      Utilities.cloner alternatingDraws unmoved Vec.zero 3
        (meshOf [Vec.mk 1 0 0; Vec.mk 0 1 0]) 2 ["pine"] 1 true true true
        emptyWorld
      = Utilities.Returns clones w'
      /\ forall clone, clone ∈ clones ->
           match Utilities.scaleScalar clone with
           | Some s => true = true
                       /\ ((1 # 1000) * 1 <= s <= (2 # 1000) * 1)%Q
           | None => true = false
           end.
Proof.
  assert (H1 : (0 <= 1)%Q) by done.
  split; [exact ScatterClaims.alternatingDraws_unit |].
  split; [exact H1 |].
  destruct two_pines as (clones & w' & H). exists clones, w'.
  split; [exact H |]. intros clone Hc.
  exact (proj1 (ScatterExtras.cloner_jitter_ranges alternatingDraws unmoved
                  Vec.zero 3 (meshOf [Vec.mk 1 0 0; Vec.mk 0 1 0]) 2
                  ["pine"] 1 true true true emptyWorld clones w'
                  ScatterClaims.alternatingDraws_unit H1 H clone Hc)).
Defined.

Lemma animateWater_ripple_witness :
  userData_originalPositions (geometry oceanMesh)
  = Some (Vec.toArray [Vec.mk 12 0 0])
  /\ length (Vec.toArray [Vec.mk 12 0 0])
     = (3 * count (geometry oceanMesh))%nat
  /\ exists oceanMesh' vertex',
      Ocean.animateWater noNormals oceanMesh 1 = inr (Some oceanMesh')
      /\ position (geometry oceanMesh') !! 0%nat = Some vertex'
      /\ Rabs (Vec.length vertex' - Vec.length (Vec.mk 12 0 0)) <= 0.015.
Proof.
  assert (H1 : userData_originalPositions (geometry oceanMesh)
               = Some (Vec.toArray [Vec.mk 12 0 0])) by reflexivity.
  assert (H2 : length (Vec.toArray [Vec.mk 12 0 0])
               = (3 * count (geometry oceanMesh))%nat) by reflexivity.
  split; [exact H1 |]. split; [exact H2 |].
  destruct (OceanExtras.animateWater_ripple noNormals oceanMesh 1 _ H1 H2)
    as (oceanMesh' & Ha & Hv).
  destruct (Hv 0%nat (Vec.mk 12 0 0) eq_refl) as (vertex' & Hp & _ & Hd).
  { unfold count. simpl. lia. }
  exists oceanMesh', vertex'. split; [exact Ha |]. split; [exact Hp | exact Hd].
Defined.

Lemma oceanMesh_frame :
  exists oceanMesh',
    Ocean.animateWater noNormals oceanMesh 1 = inr (Some oceanMesh').
Proof. by eexists. Qed.

Lemma animateWater_from_original_witness :
  exists oceanMesh',
    Ocean.animateWater noNormals oceanMesh 1 = inr (Some oceanMesh')
    /\ Ocean.animateWater noNormals oceanMesh' 2
       = Ocean.animateWater noNormals oceanMesh 2.
Proof.
  destruct oceanMesh_frame as [oceanMesh' H]. exists oceanMesh'.
  split; [exact H |].
  exact (OceanExtras.animateWater_from_original noNormals oceanMesh oceanMesh'
           1 2 H).
Defined.

Lemma finalColor_ends_witness :
  Ocean.innerRadius landGradient < Ocean.outerRadius landGradient
  /\ 0 <= Ocean.factor landGradient 12.2 <= 1
  /\ (Ocean.outerRadius landGradient <= 12.2 ->
      Ocean.finalColor landGradient 12.2 = Ocean.colorOuter landGradient)
  /\ (12.2 <= Ocean.innerRadius landGradient ->
      Ocean.finalColor landGradient 12.2 = Ocean.colorInner landGradient).
Proof.
  assert (H : Ocean.innerRadius landGradient < Ocean.outerRadius landGradient)
    by (simpl; lra).
  split; [exact H |].
  exact (OceanExtras.finalColor_ends landGradient 12.2 H).
Defined.

Lemma ocean_baked :
  exists layer' v',
    Utilities.bakeTerrain rampNoise noNormals noWeld (meshOf [Vec.mk 12 0 0])
      Ocean.paramsOcean = Some layer'
    /\ v' ∈ position (geometry layer').
Proof.
  destruct (TerrainFacts.bake_all rampNoise Ocean.paramsOcean [Vec.mk 12 0 0])
    as [pos Hpos].
  { intros v _. apply TerrainFacts.finalHeight_real; simpl; [lra | lia]. }
  destruct (LoopFacts.mapM_lookup _ _ _ 0%nat (Vec.mk 12 0 0) Hpos eq_refl)
    as (v' & Hv' & _).
  eexists. exists v'. split.
  - rewrite TerrainFacts.bakeTerrain_positions. simpl position at 1.
    rewrite Hpos. reflexivity.
  - simpl. by eapply list_elem_of_lookup_2.
Qed.

Lemma ocean_and_sand_outer_colour_witness :
  Utilities.unitNoise rampNoise /\ Utilities.weldKeepsVertices noWeld
  /\ (forall v, v ∈ position (geometry (meshOf [Vec.mk 12 0 0])) ->
                Vec.length v = 12)
  /\ exists layer' v',
      Utilities.bakeTerrain rampNoise noNormals noWeld
        (meshOf [Vec.mk 12 0 0]) Ocean.paramsOcean = Some layer'
      /\ v' ∈ position (geometry layer')
      /\ 11.5 <= Vec.length v'
      /\ Ocean.finalColor
           (Ocean.oceanGradient (Vec.mk 0 0 0) (Vec.mk 1 1 1))
           (Vec.length v')
         = Vec.mk 1 1 1.
Proof.
  assert (Hr : forall v, v ∈ position (geometry (meshOf [Vec.mk 12 0 0])) ->
                         Vec.length v = 12).
  { intros v Hv. simpl in Hv. apply list_elem_of_singleton in Hv as ->.
    apply SampleFacts.length_on_x. lra. }
  split; [exact SampleFacts.rampNoise_unit |].
  split; [exact SampleFacts.noWeld_keeps |]. split; [exact Hr |].
  destruct ocean_baked as (layer' & v' & Hb & Hv').
  exists layer', v'. split; [exact Hb |]. split; [exact Hv' |].
  exact (proj1 (OceanExtras.ocean_and_sand_outer_colour rampNoise noNormals
                  noWeld (meshOf [Vec.mk 12 0 0]) layer' (Vec.mk 0 0 0)
                  (Vec.mk 1 1 1) v' SampleFacts.rampNoise_unit
                  SampleFacts.noWeld_keeps Hv') Hr Hb).
Defined.

Lemma restingState_radius :
  forall v, v ∈ position (Wave.planet restingState) ->
            Vec.length v = Shader.PLANET_RADIUS.
Proof.
  intros v Hv. simpl in Hv. apply list_elem_of_singleton in Hv as ->.
  apply (SampleFacts.length_on_x 10). lra.
Qed.

Lemma planet_colours_witness :
  Utilities.unitNoise rampNoise
  /\ (forall v, v ∈ position (Wave.planet restingState) ->
                Vec.length v = Shader.PLANET_RADIUS)
  /\ exists baked locked heights h,
      Wave.bakeTerrain rampNoise noNormals restingState = Some baked
      /\ Wave.lockColors baked = Some locked
      /\ attributes (Wave.planet locked) !! "aBakedHeight" = Some heights
      /\ heights !! 0%nat = Some h
      /\ 9.85 <= h <= 11.5
      /\ Shader.planetFragmentShader h <> Shader.snow.
Proof.
  split; [exact SampleFacts.rampNoise_unit |].
  split; [exact restingState_radius |].
  pose proof (WaveFacts.bakeTerrain_spec rampNoise noNormals restingState)
    as Hb.
  set (baked := {| Wave.planet := _ |}) in Hb.
  pose proof (WaveFacts.lockColors_spec baked) as Hl.
  destruct (ShaderExtras.planet_colours rampNoise noNormals restingState _ _
              SampleFacts.rampNoise_unit restingState_radius Hb Hl)
    as (heights & Hh & Hv).
  destruct (Hv 0%nat (Vec.mk 10 0 0) eq_refl) as (h & H0 & _ & Hr & Hs & _).
  do 2 eexists. exists heights, h.
  split; [exact Hb |]. split; [exact Hl |]. split; [exact Hh |].
  split; [exact H0 |]. split; [exact Hr | exact Hs].
Defined.

Lemma town_has_vertices : (0 < count (Wave.planet (Buildings.wave town)))%nat.
Proof. unfold count. simpl. lia. Qed.

Lemma setupCloner_pushes_witness :
  Utilities.unitDraws alternatingDraws
  /\ (0 < count (Wave.planet (Buildings.wave town)))%nat
  /\ exists buildings indices,
      Buildings.clones (Buildings.setupCloner alternatingDraws 3 town)
      = Buildings.clones town ++ buildings
      /\ Buildings.vertexIndices
           (Buildings.setupCloner alternatingDraws 3 town)
         = Buildings.vertexIndices town ++ indices
      /\ Buildings.scene (Buildings.setupCloner alternatingDraws 3 town)
         = Buildings.scene town ++ (Buildings.ident <$> buildings)
      /\ length buildings = Z.to_nat 3
      /\ length indices = Z.to_nat 3
      /\ Forall (fun i => (i < count (Wave.planet (Buildings.wave town)))%nat)
           indices.
Proof.
  split; [exact ScatterClaims.alternatingDraws_unit |].
  split; [exact town_has_vertices |].
  exact (BuildingExtras.setupCloner_pushes alternatingDraws 3 town
           ScatterClaims.alternatingDraws_unit town_has_vertices).
Defined.

Lemma setupCloner_shares_vertices_witness :
  Utilities.unitDraws alternatingDraws
  /\ (0 < count (Wave.planet (Buildings.wave town)))%nat
  /\ (Z.of_nat (count (Wave.planet (Buildings.wave town))) < 3)%Z
  /\ ~ NoDup (Buildings.vertexIndices
                (Buildings.setupCloner alternatingDraws 3 town)).
Proof.
  assert (H : (Z.of_nat (count (Wave.planet (Buildings.wave town))) < 3)%Z)
    by (unfold count; simpl; lia).
  split; [exact ScatterClaims.alternatingDraws_unit |].
  split; [exact town_has_vertices |]. split; [exact H |].
  exact (BuildingExtras.setupCloner_shares_vertices alternatingDraws 3 town
           ScatterClaims.alternatingDraws_unit town_has_vertices H).
Defined.

Lemma refreshClones_replaces_witness :
  NoDup (Buildings.scene settledTown)
  /\ Forall (fun o => (o < Buildings.created settledTown)%nat)
        (Buildings.scene settledTown)
  /\ Forall (fun b => (Buildings.ident b < Buildings.created settledTown)%nat)
        (Buildings.clones settledTown)
  /\ length (Buildings.clones
               (Buildings.refreshClones alternatingDraws settledTown))
     = Z.to_nat (Buildings.settingsCount settledTown)
  /\ NoDup (Buildings.scene
              (Buildings.refreshClones alternatingDraws settledTown))
  /\ Buildings.ident house
     ∉ Buildings.scene (Buildings.refreshClones alternatingDraws settledTown).
Proof.
  assert (H1 : NoDup (Buildings.scene settledTown)).
  { simpl. apply NoDup_cons. split; [| apply NoDup_singleton].
    intros H%list_elem_of_singleton. discriminate H. }
  assert (H2 : Forall (fun o => (o < Buildings.created settledTown)%nat)
                 (Buildings.scene settledTown)).
  { simpl. repeat constructor. }
  assert (H3 : Forall (fun b => (Buildings.ident b
                                 < Buildings.created settledTown)%nat)
                 (Buildings.clones settledTown)).
  { simpl. repeat constructor. }
  split; [exact H1 |]. split; [exact H2 |]. split; [exact H3 |].
  destruct (BuildingExtras.refreshClones_replaces alternatingDraws
              settledTown H1 H2 H3) as (Hl & _ & Hnd & _ & Hold).
  split; [exact Hl |]. split; [exact Hnd |].
  apply Hold. simpl. apply list_elem_of_here.
Defined.

Lemma settledTown_frame :
  exists st',
    Buildings.animate noNormals 0 1 None settledTown = Some st'.
Proof.
  unfold Buildings.animate.
  destruct (WaveFacts.updateDisplacer_total noNormals 0 1 None
              (Buildings.wave settledTown)) as [wave' H]; [reflexivity |].
  rewrite H. simpl. by eexists.
Qed.

Lemma animate_buildings_follow_witness :
  exists st' baseline vertex,
    Buildings.animate noNormals 0 1 None settledTown = Some st'
    /\ Buildings.clones settledTown !! 0%nat = Some house
    /\ Buildings.vertexIndices settledTown !! 0%nat = Some 1%nat
    /\ (1 < count (Wave.planet (Buildings.wave settledTown)))%nat
    /\ Wave.readVertex (Wave.originalPositions (Buildings.wave settledTown))
         1
       = Some baseline
    /\ position (Wave.planet (Buildings.wave st')) !! 1%nat = Some vertex
    /\ Buildings.clones st' !! 0%nat
       = Some {| Buildings.ident := Buildings.ident house;
                 Buildings.place := Some vertex;
                 Buildings.up := Some (Vec.normalize vertex) |}
    /\ Rabs (Vec.length vertex - Vec.length baseline) <= Rabs 1.
Proof.
  destruct settledTown_frame as [st' H].
  assert (H1 : Buildings.clones settledTown !! 0%nat = Some house)
    by reflexivity.
  assert (H2 : Buildings.vertexIndices settledTown !! 0%nat = Some 1%nat)
    by reflexivity.
  assert (H3 : (1 < count (Wave.planet (Buildings.wave settledTown)))%nat)
    by (unfold count; simpl; lia).
  destruct (BuildingExtras.animate_buildings_follow noNormals 0 1 None
              settledTown st' 0 1 house H H1 H2 H3)
    as (baseline & vertex & Ha & Hb & Hc & Hd).
  exists st', baseline, vertex.
  split; [exact H |]. split; [exact H1 |]. split; [exact H2 |].
  split; [exact H3 |]. split; [exact Ha |]. split; [exact Hb |].
  split; [exact Hc | exact Hd].
Defined.

Lemma createStars_shell_witness :
  Utilities.unitDraws alternatingDraws /\ (0 <= 2)%Z /\ 0 <= 50
  /\ exists stars star,
      Stars.createStars alternatingDraws white 2 50 0 = inr stars
      /\ length (Stars.positionArray stars) = (3 * Z.to_nat 2)%nat
      /\ length (Stars.colorArray stars) = (3 * Z.to_nat 2)%nat
      /\ Wave.readVertex (Stars.positionArray stars) 1 = Some star.
Proof.
  assert (H1 : (0 <= 2)%Z) by lia.
  assert (H2 : 0 <= 50) by lra.
  split; [exact ScatterClaims.alternatingDraws_unit |].
  split; [exact H1 |]. split; [exact H2 |].
  destruct (StarExtras.createStars_shell alternatingDraws white 2 50 0
              ScatterClaims.alternatingDraws_unit H1 H2)
    as (stars & Hs & Hp & Hc & Hv).
  destruct (Hv 1%nat) as (star & Hr & _); [simpl; lia |].
  exists stars, star.
  split; [exact Hs |]. split; [exact Hp |]. split; [exact Hc | exact Hr].
Defined.

Lemma white_unit : Stars.unitColours white.
Proof. intros hex. simpl. lra. Qed.

Lemma two_stars :
  exists stars c,
    Stars.createStars alternatingDraws white 2 50 0 = inr stars
    /\ c ∈ Stars.colorArray stars.
Proof.
  destruct (StarExtras.createStars_spec alternatingDraws white 2 50 0
              ScatterClaims.alternatingDraws_unit) as (cols & Hm & Hs);
    [lia |].
  apply length_mapM in Hm. rewrite length_fmap, length_seq in Hm.
  destruct cols as [| v cols]; [simpl in Hm; lia |].
  eexists. exists (Vec.x v). split; [exact Hs |].
  simpl. apply list_elem_of_here.
Qed.

Lemma createStars_colours_witness :
  Utilities.unitDraws alternatingDraws /\ Stars.unitColours white
  /\ exists stars c,
      Stars.createStars alternatingDraws white 2 50 0 = inr stars
      /\ c ∈ Stars.colorArray stars
      /\ 0 <= c < 2.5.
Proof.
  split; [exact ScatterClaims.alternatingDraws_unit |].
  split; [exact white_unit |].
  destruct two_stars as (stars & c & Hs & Hc). exists stars, c.
  split; [exact Hs |]. split; [exact Hc |].
  exact (StarExtras.createStars_colours alternatingDraws white 2 50 0 stars c
           ScatterClaims.alternatingDraws_unit white_unit Hs Hc).
Defined.

End Witnesses.
